(** * DemoUE containers: the sized heap allocator and the map base

    A shallow embedding of
    - [TSizedHeapAllocator::ForAnyElementType]
      (Core/Public/Containers/ContainerAllocationPolicies.h), and
    - [TMapBase] (the map header), over a model of the sparse element set
      [TSet] it wraps,
    together with the properties the design document states about them. *)

From Stdlib Require Import Ascii String.
From stdpp Require Import gmap strings list.

Local Open Scope Z_scope.

(** ** Part 1. TSizedHeapAllocator *)

Module SizedHeapAllocator.

(** Raw block addresses; [nullptr] is address 0. *)
Definition ptr := Z.
Definition nullptr : ptr := 0.

(** The template and platform parameters of one instantiation:
    [IndexSize] is the template argument (the width in bits of [SizeType],
    through [TBitsToSizeType]), [SIZE_T_bits] the width of the platform's
    [SIZE_T] (WindowsPlatform.h: 64 under [_WIN64], 32 otherwise), and
    [DO_GUARD_SLOW] tells whether [checkSlow] is compiled in (debug
    builds). *)
Record Config := {
  IndexSize : Z;
  SIZE_T_bits : Z;
  DO_GUARD_SLOW : bool
}.

(** [static_assert(sizeof(SizeType) <= sizeof(SIZE_T))] together with the
    widths that [TBitsToSizeType] and the platform header provide. *)
Definition ValidConfig (cfg : Config) : Prop :=
  (IndexSize cfg = 8 \/ IndexSize cfg = 16 \/ IndexSize cfg = 32 \/ IndexSize cfg = 64) /\
  (SIZE_T_bits cfg = 32 \/ SIZE_T_bits cfg = 64) /\
  IndexSize cfg <= SIZE_T_bits cfg.

Definition MAX_int32 : Z := 2147483647.

(** [TNumericLimits<SizeType>::Max()] for the signed [IndexSize]-bit type. *)
Definition SizeType_Max (cfg : Config) : Z := 2 ^ (IndexSize cfg - 1) - 1.
Definition SizeType_Min (cfg : Config) : Z := - 2 ^ (IndexSize cfg - 1).

Definition InSizeType (cfg : Config) (n : Z) : Prop :=
  SizeType_Min cfg <= n <= SizeType_Max cfg.
Definition InSIZE_T (cfg : Config) (b : Z) : Prop :=
  0 <= b < 2 ^ SIZE_T_bits cfg.

(** [(SIZE_T)(USizeType)x]: reinterpretation of a [SizeType] value as
    unsigned, then widening (a no-op where the cast is used). *)
Definition to_USizeType (cfg : Config) (x : Z) : Z := x mod 2 ^ IndexSize cfg.

(** Arithmetic in [SIZE_T] wraps around. *)
Definition wrap_SIZE_T (cfg : Config) (x : Z) : Z := x mod 2 ^ SIZE_T_bits cfg.

(** The calls the allocator makes into [BaseMallocType]. *)
Inductive Event :=
| EvFree (Original : ptr)
| EvRealloc (Original : ptr) (Count : Z) (Alignment : Z).

(** How a member function ends: it returns (with the calls it made), or
    it enters the fatal hook [OnInvalidSizedHeapAllocatorNum], which does
    not return, or a [checkSlow] assertion fails. *)
Inductive Outcome (A : Type) :=
| Returns (a : A) (calls : list Event)
| OnInvalidSizedHeapAllocatorNum (IndexSizeArg NumElements NumBytesPerElement : Z)
| CheckSlowFailed.
Arguments Returns {A} a calls.
Arguments OnInvalidSizedHeapAllocatorNum {A} _ _ _.
Arguments CheckSlowFailed {A}.

Definition IsFatal {A} (o : Outcome A) : Prop :=
  match o with OnInvalidSizedHeapAllocatorNum _ _ _ => True | _ => False end.

Definition CallsRealloc {A} (o : Outcome A) : Prop :=
  match o with
  | Returns _ calls => exists p c a, EvRealloc p c a ∈ calls
  | _ => False
  end.

Record ForAnyElementType := { Data : ptr }.

(** [bool(Data)] *)
Definition HasAllocation (a : ForAnyElementType) : bool := negb (Data a =? nullptr).

Section Allocator.
(** [BaseMallocType::Realloc]: the address it hands back, as a function
    of the call; and the alignment it uses when none is passed. *)
Variable Realloc : ptr -> Z -> Z -> ptr.
Variable DEFAULT_ALIGNMENT : Z.
Variable cfg : Config.

(** Lines 82-86 and 103-107. *)
Definition bInvalidResize (NumElements NumBytesPerElement : Z) : bool :=
  let b0 := (NumElements <? 0) || (NumBytesPerElement <? 1)
            || (MAX_int32 <? NumBytesPerElement) in
  if IndexSize cfg =? SIZE_T_bits cfg then
    b0 || (SizeType_Max cfg / NumBytesPerElement <? to_USizeType cfg NumElements)
  else b0.

Definition ResizeAllocation (self : ForAnyElementType)
    (PreviousNumElements NumElements NumBytesPerElement : Z)
    : Outcome ForAnyElementType :=
  if HasAllocation self || negb (NumElements =? 0) then
    if bInvalidResize NumElements NumBytesPerElement then
      OnInvalidSizedHeapAllocatorNum (IndexSize cfg) NumElements NumBytesPerElement
    else
      let Count := wrap_SIZE_T cfg (NumElements * NumBytesPerElement) in
      Returns {| Data := Realloc (Data self) Count DEFAULT_ALIGNMENT |}
              [EvRealloc (Data self) Count DEFAULT_ALIGNMENT]
  else Returns self [].

Definition ResizeAllocationAligned (self : ForAnyElementType)
    (PreviousNumElements NumElements NumBytesPerElement AlignmentOfElement : Z)
    : Outcome ForAnyElementType :=
  if HasAllocation self || negb (NumElements =? 0) then
    if bInvalidResize NumElements NumBytesPerElement then
      OnInvalidSizedHeapAllocatorNum (IndexSize cfg) NumElements NumBytesPerElement
    else
      let Count := wrap_SIZE_T cfg (NumElements * NumBytesPerElement) in
      Returns {| Data := Realloc (Data self) Count AlignmentOfElement |}
              [EvRealloc (Data self) Count AlignmentOfElement]
  else Returns self [].

(** Allocator objects live at addresses, so that [this] and [Other] may
    be one object. *)
Definition Store := nat -> ForAnyElementType.

Definition store_set (s : Store) (a : nat) (v : ForAnyElementType) : Store :=
  fun b => if Nat.eqb a b then v else s b.

Definition MoveToEmptyFromOtherAllocator (this Other : nat) (s : Store)
    : Outcome Store :=
  if DO_GUARD_SLOW cfg && Nat.eqb this Other then CheckSlowFailed
  else
    let calls := if HasAllocation (s this) then [EvFree (Data (s this))] else [] in
    let s1 := store_set s this {| Data := Data (s Other) |} in
    let s2 := store_set s1 Other {| Data := nullptr |} in
    Returns s2 calls.

Definition MoveToEmpty (this Other : nat) (s : Store) : Outcome Store :=
  MoveToEmptyFromOtherAllocator this Other s.

End Allocator.

(** The same instantiation with [checkSlow] switched on or off. *)
Definition with_guard_slow (cfg : Config) (d : bool) : Config :=
  {| IndexSize := IndexSize cfg; SIZE_T_bits := SIZE_T_bits cfg; DO_GUARD_SLOW := d |}.

(** Instantiations: 64-bit indices and the 32-bit indices of
    [TSizedDefaultAllocator<32>] on a 64-bit platform, release builds; and
    a debug build. *)
Definition Config64 : Config :=
  {| IndexSize := 64; SIZE_T_bits := 64; DO_GUARD_SLOW := false |}.
Definition Config32on64 : Config :=
  {| IndexSize := 32; SIZE_T_bits := 64; DO_GUARD_SLOW := false |}.
Definition ConfigDebug : Config :=
  {| IndexSize := 32; SIZE_T_bits := 64; DO_GUARD_SLOW := true |}.

(** Two allocators, each owning a block. *)
Definition TwoAllocators : nat -> ForAnyElementType :=
  fun a => if Nat.eqb a 0 then {| Data := 4096 |} else {| Data := 8192 |}.

End SizedHeapAllocator.

(** ** Part 2. The sparse element set and TMapBase *)

Module Containers.

(** The pluggable key strategy: [TMapBase] uses [KeyFuncs::GetKeyHash]
    (an unsigned 32-bit hash), [KeyFuncs::bAllowDuplicateKeys], and,
    through the element set, the strategy's equality test. *)
Class KeyFuncs (KeyType : Type) := {
  GetKeyHash : KeyType -> Z;
  Matches : KeyType -> KeyType -> bool;
  bAllowDuplicateKeys : bool
}.

(** What a key strategy owes the table: its equality is an equivalence and
    equal keys hash alike. *)
Class KeyFuncsLaws {KeyType : Type} (KF : KeyFuncs KeyType) : Prop := {
  Matches_refl : forall a, Matches a a = true;
  Matches_sym : forall a b, Matches a b = true -> Matches b a = true;
  Matches_trans : forall a b c,
    Matches a b = true -> Matches b c = true -> Matches a c = true;
  Matches_hash : forall a b, Matches a b = true -> GetKeyHash a = GetKeyHash b
}.

(** Slot identifiers ([FSetElementId]). A pointer or reference to a stored
    element or to its value is the identifier of the slot that holds it. *)
Abbreviation FSetElementId := nat (only parsing).

(** [ValueType*] and [ValueType&] into the table: the slot whose [Value]
    field is referred to. *)
Abbreviation ValuePtr := FSetElementId (only parsing).

(** Modelled from the spec: [TSet], the sparse element set of pairs (the
    set header is not part of the excerpt).  "A hash-indexed collection
    that assigns each live element a stable slot identifier and recycles
    identifiers of removed elements via a free list", with "tombstones for
    removed ones, and hash-bucket chaining":
    - [Elements]: the slots; [None] is a tombstone;
    - [FreeList]: the identifiers available for reuse;
    - [Hash]: for each hash value the chain of slot identifiers linked
      under it, most recently linked first (the table is keyed by the full
      32-bit hash; bucket-count changes are not modelled).
    A set of bare keys, [TSet<KeyType>], is this set at value type [unit]. *)
Record TSet (KeyType ValueType : Type) := {
  Elements : list (option (KeyType * ValueType));
  FreeList : list FSetElementId;
  Hash : gmap Z (list FSetElementId)
}.
Arguments Elements {KeyType ValueType} _.
Arguments FreeList {KeyType ValueType} _.
Arguments Hash {KeyType ValueType} _.

Module TSetOps.
Section TSetOps.
Context {KeyType ValueType : Type} {KF : KeyFuncs KeyType}.
Local Abbreviation ElementType := (KeyType * ValueType)%type.
Local Abbreviation SetType := (TSet KeyType ValueType).

(** Modelled from the spec: the default-constructed [TSet], with no slot. *)
Definition Empty : SetType :=
  {| Elements := []; FreeList := []; Hash := ∅ |}.

(** Modelled from the spec: [TSet::operator[]], the element a slot
    identifier refers to while it is valid. *)
Definition Get (s : SetType) (Id : FSetElementId) : option ElementType :=
  match Elements s !! Id with
  | Some (Some e) => Some e
  | _ => None
  end.

(** Modelled from the spec: the traversal of [TSet]'s iterators, the live
    elements in slot order. *)
Definition LivePairs (s : SetType) : list ElementType :=
  omap (fun e => e) (Elements s).

(** Modelled from the spec: [TSet::Num], the number of live elements. *)
Definition Num (s : SetType) : Z := Z.of_nat (length (LivePairs s)).

(** Modelled from the spec: the chain of one hash bucket of [TSet]. *)
Definition Bucket (s : SetType) (KeyHash : Z) : list FSetElementId :=
  default [] (Hash s !! KeyHash).

(** Modelled from the spec: [TSet]'s key test on a slot, the strategy's
    equality between the stored key and the probe key. *)
Definition MatchesAt (s : SetType) (Key : KeyType) (Id : FSetElementId) : bool :=
  match Get s Id with
  | Some (k, _) => Matches k Key
  | None => false
  end.

(** Modelled from the spec: [TSet::FindIdByHash], the probe of one chain
    for the first element whose key equals [Key]. *)
Definition FindIdByHash (s : SetType) (KeyHash : Z) (Key : KeyType)
    : option FSetElementId :=
  List.find (MatchesAt s Key) (Bucket s KeyHash).

(** Modelled from the spec: [TSet::FindId], the probe under the key's own
    hash. *)
Definition FindId (s : SetType) (Key : KeyType) : option FSetElementId :=
  FindIdByHash s (GetKeyHash Key) Key.

(** Modelled from the spec: [TSet::FindByHash], a pointer to the element
    found under a caller-supplied hash, or null. *)
Definition FindByHash (s : SetType) (KeyHash : Z) (Key : KeyType)
    : option FSetElementId :=
  FindIdByHash s KeyHash Key.

(** Modelled from the spec: [TSet::Find], "pointer to the stored value, or
    null-equivalent not found if no equal key exists". *)
Definition Find (s : SetType) (Key : KeyType) : option FSetElementId :=
  FindId s Key.

(** Modelled from the spec: [TSet::Contains], "boolean existence check". *)
Definition Contains (s : SetType) (Key : KeyType) : bool :=
  match FindId s Key with Some _ => true | None => false end.

(** Modelled from the spec: slot allocation of [TSet] on insertion. A new
    element takes the first identifier of the free list, or a fresh slot
    at the end, and is linked at the head of its chain. *)
Definition AddNew (s : SetType) (KeyHash : Z) (e : ElementType)
    : SetType * FSetElementId :=
  match FreeList s with
  | i :: fl =>
      ({| Elements := <[i := Some e]> (Elements s);
          FreeList := fl;
          Hash := <[KeyHash := i :: Bucket s KeyHash]> (Hash s) |}, i)
  | [] =>
      let i := length (Elements s) in
      ({| Elements := Elements s ++ [Some e];
          FreeList := [];
          Hash := <[KeyHash := i :: Bucket s KeyHash]> (Hash s) |}, i)
  end.

(** Modelled from the spec: the overwrite step of [TSet::Emplace], "any
    prior pair with an equal key is replaced in place (value updated, key
    retained)". *)
Definition ReplaceValue (s : SetType) (Id : FSetElementId) (v : ValueType)
    : SetType :=
  {| Elements := alter (fmap (fun e : ElementType => (e.1, v))) Id (Elements s);
     FreeList := FreeList s;
     Hash := Hash s |}.

(** Modelled from the spec: [TSet::EmplaceByHash], "find-or-create-then-set"
    when duplicate keys are disallowed, plain insertion otherwise. *)
Definition EmplaceByHash (s : SetType) (KeyHash : Z) (e : ElementType)
    : SetType * FSetElementId :=
  if bAllowDuplicateKeys then AddNew s KeyHash e
  else
    match FindIdByHash s KeyHash e.1 with
    | Some Id => (ReplaceValue s Id e.2, Id)
    | None => AddNew s KeyHash e
    end.

(** Modelled from the spec: [TSet::Emplace], insertion under the key's own
    hash. *)
Definition Emplace (s : SetType) (e : ElementType) : SetType * FSetElementId :=
  EmplaceByHash s (GetKeyHash e.1) e.

(** Modelled from the spec: [TSet::Add], the same insertion. *)
Definition Add (s : SetType) (e : ElementType) : SetType * FSetElementId :=
  Emplace s e.

(** Modelled from the spec: removal of one slot of [TSet]. It leaves a
    tombstone, unlinks the slot from its chain and puts its identifier on
    the free list. *)
Definition RemoveId (s : SetType) (KeyHash : Z) (Id : FSetElementId) : SetType :=
  {| Elements := <[Id := None]> (Elements s);
     FreeList := Id :: FreeList s;
     Hash := <[KeyHash := filter (fun j => j <> Id) (Bucket s KeyHash)]> (Hash s) |}.

(** Modelled from the spec: the chain walk of [TSet::RemoveByHash],
    removing the elements whose key equals [Key], "0 or 1 for
    single-value maps, 0..N for multi-maps". *)
Fixpoint RemoveChain (Key : KeyType) (KeyHash : Z) (chain : list FSetElementId)
    (s : SetType) : SetType * Z :=
  match chain with
  | [] => (s, 0)
  | Id :: rest =>
      if MatchesAt s Key Id then
        let s1 := RemoveId s KeyHash Id in
        if bAllowDuplicateKeys then
          let '(s2, n) := RemoveChain Key KeyHash rest s1 in (s2, n + 1)
        else (s1, 1)
      else RemoveChain Key KeyHash rest s
  end.

(** Modelled from the spec: [TSet::RemoveByHash], "count of removed
    entries" under a caller-supplied hash. *)
Definition RemoveByHash (s : SetType) (KeyHash : Z) (Key : KeyType) : SetType * Z :=
  RemoveChain Key KeyHash (Bucket s KeyHash) s.

(** Modelled from the spec: [TSet::Remove], removal under the key's own
    hash. *)
Definition Remove (s : SetType) (Key : KeyType) : SetType * Z :=
  RemoveByHash s (GetKeyHash Key) Key.

(** Modelled from the spec: [TSet::Reset], which discards all elements
    (the retained allocation is not part of the model). *)
Definition Reset (s : SetType) : SetType := Empty.

(** Modelled from the spec: [TSet::Reserve], which only pre-sizes the
    backing storage; capacity is not part of the model. *)
Definition Reserve (s : SetType) (Number : Z) : SetType := s.

(** The value stored under a key, if the probe finds one. *)
Definition FindValue (s : SetType) (Key : KeyType) : option ValueType :=
  match FindId s Key with
  | Some Id => snd <$> Get s Id
  | None => None
  end.

(** The representation invariant of the set: free identifiers name
    tombstones, each chain lists live slots, every live slot is linked
    under exactly one hash, and, when duplicate keys are disallowed, no
    two elements of one chain have equal keys. *)
Record WF (s : SetType) : Prop := {
  wf_free : forall i, i ∈ FreeList s -> Elements s !! i = Some None;
  wf_free_nodup : NoDup (FreeList s);
  wf_bucket_live : forall h i, i ∈ Bucket s h -> is_Some (Get s i);
  wf_bucket_disjoint : forall h1 h2 i,
    i ∈ Bucket s h1 -> i ∈ Bucket s h2 -> h1 = h2;
  wf_linked : forall i, is_Some (Get s i) -> exists h, i ∈ Bucket s h;
  wf_unique : bAllowDuplicateKeys = false ->
    forall h i j ei ej,
      i ∈ Bucket s h -> j ∈ Bucket s h ->
      Get s i = Some ei -> Get s j = Some ej ->
      Matches ei.1 ej.1 = true -> i = j
}.

(** Every element is linked under the hash of its own key: what holds as
    long as no by-hash insertion was given a foreign hash. *)
Definition WellHashed (s : SetType) : Prop :=
  forall h i e, i ∈ Bucket s h -> Get s i = Some e -> h = GetKeyHash e.1.

End TSetOps.
End TSetOps.

(** Modelled from the spec: the output [TArray] of [GetKeys] (the array
    header is not part of the excerpt), as the list of its elements:
    [Reset] empties it. *)
Definition TArray_Reset {A : Type} (a : list A) : list A := [].

(** Modelled from the spec: [TArray::Reserve] only pre-sizes the storage;
    capacity is not part of the model. *)
Definition TArray_Reserve {A : Type} (a : list A) (Number : Z) : list A := a.

(** Modelled from the spec: [TArray::Add] appends one element. *)
Definition TArray_Add {A : Type} (a : list A) (x : A) : list A := a ++ [x].

(** Modelled from the spec: [TArray::Num], the number of elements. *)
Definition TArray_Num {A : Type} (a : list A) : Z := Z.of_nat (length a).

(** The map: it owns exactly one element set of pairs. *)
Record TMapBase (KeyType ValueType : Type) := {
  Pairs : TSet KeyType ValueType
}.
Arguments Pairs {KeyType ValueType} _.

Module TMapBaseOps.
Section TMapBaseOps.
Context {KeyType ValueType : Type} {KF : KeyFuncs KeyType}.
Local Abbreviation MapType := (TMapBase KeyType ValueType).


(** The default-constructed map. *)
Definition EmptyMap : MapType := {| Pairs := TSetOps.Empty |}.

(** Reading through a [ValuePtr]: [Pairs[Id].Value]. *)
Definition ValueAt (m : MapType) (p : ValuePtr) : option ValueType :=
  snd <$> TSetOps.Get (Pairs m) p.

Definition Num (m : MapType) : Z := TSetOps.Num (Pairs m).

Definition Emplace (m : MapType) (InKey : KeyType) (InValue : ValueType)
    : MapType * ValuePtr :=
  let '(P, PairId) := TSetOps.Emplace (Pairs m) (InKey, InValue) in
  ({| Pairs := P |}, PairId).

Definition EmplaceByHash (m : MapType) (KeyHash : Z) (InKey : KeyType)
    (InValue : ValueType) : MapType * ValuePtr :=
  let '(P, PairId) := TSetOps.EmplaceByHash (Pairs m) KeyHash (InKey, InValue) in
  ({| Pairs := P |}, PairId).

Definition Add (m : MapType) (InKey : KeyType) (InValue : ValueType)
    : MapType * ValuePtr :=
  Emplace m InKey InValue.

Definition AddByHash (m : MapType) (KeyHash : Z) (InKey : KeyType)
    (InValue : ValueType) : MapType * ValuePtr :=
  EmplaceByHash m KeyHash InKey InValue.

Definition Remove (m : MapType) (InKey : KeyType) : MapType * Z :=
  let '(P, NumRemovedPairs) := TSetOps.Remove (Pairs m) InKey in
  ({| Pairs := P |}, NumRemovedPairs).

Definition RemoveByHash (m : MapType) (KeyHash : Z) (Key : KeyType) : MapType * Z :=
  let '(P, NumRemovedPairs) := TSetOps.RemoveByHash (Pairs m) KeyHash Key in
  ({| Pairs := P |}, NumRemovedPairs).

Definition Find (m : MapType) (Key : KeyType) : option ValuePtr :=
  match TSetOps.Find (Pairs m) Key with
  | Some Pair => Some Pair
  | None => None
  end.

Definition FindByHash (m : MapType) (KeyHash : Z) (Key : KeyType) : option ValuePtr :=
  match TSetOps.FindByHash (Pairs m) KeyHash Key with
  | Some Pair => Some Pair
  | None => None
  end.

Definition HashKey (Key : KeyType) : Z := GetKeyHash Key.

Definition FindOrAddImpl (m : MapType) (KeyHash : Z) (Key : KeyType)
    (Value : ValueType) : MapType * ValuePtr :=
  match TSetOps.FindByHash (Pairs m) KeyHash Key with
  | Some Pair => (m, Pair)
  | None => AddByHash m KeyHash Key Value
  end.

Definition FindOrAdd (m : MapType) (Key : KeyType) (Value : ValueType)
    : MapType * ValuePtr :=
  FindOrAddImpl m (HashKey Key) Key Value.

Definition Contains (m : MapType) (Key : KeyType) : bool :=
  TSetOps.Contains (Pairs m) Key.

(** [operator==] of [ValueType]. *)
Variable ValueEq : ValueType -> ValueType -> bool.

(** The loop of [OrderIndependentCompareEqual] over this map's pairs; next
    to the verdict it reports the value comparisons [*BVal == It->Value]
    it evaluated, in order. *)
Fixpoint CompareLoop (Other : MapType) (It : list (KeyType * ValueType))
    : bool * list (ValueType * ValueType) :=
  match It with
  | [] => (true, [])
  | (Key, Value) :: rest =>
      match Find Other Key with
      | None => (false, [])
      | Some BVal =>
          match ValueAt Other BVal with
          | None => (false, [])
          | Some b =>
              if ValueEq b Value then
                let '(r, cmps) := CompareLoop Other rest in (r, (b, Value) :: cmps)
              else (false, [(b, Value)])
          end
      end
  end.

Definition OrderIndependentCompareEqual_traced (this Other : MapType)
    : bool * list (ValueType * ValueType) :=
  if negb (Num this =? Num Other) then (false, [])
  else CompareLoop Other (TSetOps.LivePairs (Pairs this)).

Definition OrderIndependentCompareEqual (this Other : MapType) : bool :=
  (OrderIndependentCompareEqual_traced this Other).1.

(** [TSet<KeyType>] in [GetKeys] is a set under the key type's default
    key functions, not under the map's [KeyFuncs]. *)
Variable DefaultKeyFuncs : KeyFuncs KeyType.

(** The loop of the [TArray] overload of [GetKeys]. *)
Fixpoint GetKeysLoop (It : list (KeyType * ValueType)) (OutKeys : list KeyType)
    (VisitedKeys : TSet KeyType unit) : list KeyType * TSet KeyType unit :=
  match It with
  | [] => (OutKeys, VisitedKeys)
  | (Key, _) :: rest =>
      if negb (TSetOps.Contains (KF := DefaultKeyFuncs) VisitedKeys Key) then
        GetKeysLoop rest (TArray_Add OutKeys Key)
          (TSetOps.Add (KF := DefaultKeyFuncs) VisitedKeys (Key, tt)).1
      else GetKeysLoop rest OutKeys VisitedKeys
  end.

Definition GetKeys (m : MapType) (OutKeys : list KeyType) : list KeyType * Z :=
  let OutKeys := TArray_Reset OutKeys in
  let VisitedKeys := TSetOps.Reserve (TSetOps.Empty (ValueType := unit)) (Num m) in
  let OutKeys :=
    if negb (bAllowDuplicateKeys (KeyFuncs := KF)) then TArray_Reserve OutKeys (Num m) else OutKeys in
  let '(OutKeys, _) := GetKeysLoop (TSetOps.LivePairs (Pairs m)) OutKeys VisitedKeys in
  (OutKeys, TArray_Num OutKeys).

(** The output set of the [TSet] overload is [TSet<KeyType, Allocator>].
    The second template parameter of [TSet] is its key functions
    ([ElementSetType] is [TSet<ElementType, KeyFuncs, SetAllocator>]), so
    the argument named [Allocator] gives the key functions of the output
    set: they are the caller's, and may allow duplicate keys. *)
Variable OutKeyFuncs : KeyFuncs KeyType.

(** The [TSet] overload of [GetKeys]. *)
Definition GetKeys_TSet (m : MapType) (OutKeys : TSet KeyType unit)
    : TSet KeyType unit * Z :=
  let OutKeys := TSetOps.Reset OutKeys in
  let OutKeys :=
    if negb (bAllowDuplicateKeys (KeyFuncs := KF)) then TSetOps.Reserve OutKeys (Num m) else OutKeys in
  let OutKeys :=
    foldl (fun Out (It : KeyType * ValueType) =>
             (TSetOps.Add (KF := OutKeyFuncs) Out (It.1, tt)).1)
          OutKeys (TSetOps.LivePairs (Pairs m)) in
  (OutKeys, TSetOps.Num OutKeys).

End TMapBaseOps.
End TMapBaseOps.

(** A run of [Add] calls, left to right. *)
Definition AddAll {KeyType ValueType : Type} {KF : KeyFuncs KeyType}
    (ops : list (KeyType * ValueType)) (m : TMapBase KeyType ValueType)
    : TMapBase KeyType ValueType :=
  foldl (fun m kv => (TMapBaseOps.Add m kv.1 kv.2).1) m ops.

(** The values stored under keys equal to [Key], in iteration order. *)
Definition StoredValues {KeyType ValueType : Type} {KF : KeyFuncs KeyType}
    (m : TMapBase KeyType ValueType) (Key : KeyType) : list ValueType :=
  (filter (fun e => Matches e.1 Key = true) (TSetOps.LivePairs (Pairs m))).*2.

(** The value argument of the most recent [Add] of a run whose key equals
    [Key]. *)
Definition LastAdded {KeyType ValueType : Type} {KF : KeyFuncs KeyType}
    (ops : list (KeyType * ValueType)) (Key : KeyType) : option ValueType :=
  snd <$> last (filter (fun kv => Matches kv.1 Key = true) ops).

(** How many entries of a key list equal [Key] under a key strategy. *)
Definition CountEqual {KeyType : Type} (KF : KeyFuncs KeyType)
    (Key : KeyType) (keys : list KeyType) : nat :=
  length (filter (fun k0 => Matches k0 Key = true) keys).

(** A run of pairs with pairwise different keys. *)
Fixpoint DistinctKeys {KeyType ValueType : Type} {KF : KeyFuncs KeyType}
    (ops : list (KeyType * ValueType)) : Prop :=
  match ops with
  | [] => True
  | kv :: rest =>
      (forall kv', kv' ∈ rest -> Matches kv.1 kv'.1 = false) /\ DistinctKeys rest
  end.

(** *** Key strategies used in the examples *)

(** A 32-bit string hash ([GetTypeHash] stands outside the excerpt; any
    function of the characters serves). *)
Definition StringHash (s : string) : Z :=
  foldl (fun h c => (h * 31 + Z.of_nat (nat_of_ascii c)) mod 2 ^ 32) 0
        (list_ascii_of_string s).

(** Case-sensitive string keys, one value per key. *)
Definition StringKeyFuncs : KeyFuncs string :=
  {| GetKeyHash := StringHash; Matches := String.eqb; bAllowDuplicateKeys := false |}.

Definition to_lower (c : ascii) : ascii :=
  let n := nat_of_ascii c in
  if (Nat.leb 65 n && Nat.leb n 90)%bool then ascii_of_nat (n + 32) else c.

Definition lower (s : string) : string :=
  string_of_list_ascii (map to_lower (list_ascii_of_string s)).

(** Case-insensitive string comparison, as the default equality of a
    string key type. *)
Definition NoCaseKeyFuncs : KeyFuncs string :=
  {| GetKeyHash := fun s => StringHash (lower s);
     Matches := fun a b => String.eqb (lower a) (lower b);
     bAllowDuplicateKeys := false |}.

(** Integer keys under [==], with and without duplicate keys. *)
Definition IntKeyFuncs (bAllowDup : bool) : KeyFuncs Z :=
  {| GetKeyHash := fun k => k mod 2 ^ 32; Matches := Z.eqb;
     bAllowDuplicateKeys := bAllowDup |}.

End Containers.

(** ** Part 3. Further members and their callers *)

(** The rest of [TSizedHeapAllocator::ForAnyElementType]. *)
Module AllocatorLifetime.
Import SizedHeapAllocator.

(** The default constructor: no block. *)
Definition DefaultConstructed : ForAnyElementType := {| Data := nullptr |}.

(** [~ForAnyElementType]: the calls it makes. *)
Definition Destructor (self : ForAnyElementType) : list Event :=
  if HasAllocation self then [EvFree (Data self)] else [].

Definition GetAllocation (self : ForAnyElementType) : ptr := Data self.

(** [NumAllocatedElements * NumBytesPerElement], computed in [SIZE_T]. *)
Definition GetAllocatedSize (cfg : Config) (self : ForAnyElementType)
    (NumAllocatedElements NumBytesPerElement : Z) : Z :=
  wrap_SIZE_T cfg (NumAllocatedElements * NumBytesPerElement).

Definition GetInitialCapacity (self : ForAnyElementType) : Z := 0.

End AllocatorLifetime.

(** [FMemory::MemIsZero] over a byte-addressed memory. *)
Module Memory.

(** The loop [while (Start < End)] with [n = End - Start] bytes to go. *)
Fixpoint MemIsZeroLoop (mem : Z -> Z) (Start : Z) (n : nat) : bool :=
  match n with
  | O => true
  | S n' =>
      if negb (mem Start =? 0) then false
      else MemIsZeroLoop mem (Start + 1) n'
  end.

Definition MemIsZero (mem : Z -> Z) (Ptr Count : Z) : bool :=
  MemIsZeroLoop mem Ptr (Z.to_nat Count).

End Memory.

(** The log macros and [EnsureRetrievingVTablePtrDuringCtor]. *)
Module Logging.



Section Macros.
(** [ELogVerbosity::Fatal], [ELogVerbosity::VerbosityMask] and
    [COMPILED_IN_MINIMUM_VERBOSITY] are declared outside the excerpt. *)
Variable Fatal : Z.
Variable VerbosityMask : Z.
Variable COMPILED_IN_MINIMUM_VERBOSITY : Z.




End Macros.
End Logging.

(** [GetShaderPermutationFlags] (Shader.cpp). *)
Module Shader.

(** [EShaderPermutationFlags] *)
Definition None_ : Z := 0.
Definition HasEditorOnlyData : Z := Z.shiftl 1 0.

(** The function-local static [bProjectSupportsCookedEditor] is [None]
    until the first call initialises it.  [GetBool] stands for
    [GConfig->GetBool] on the cooked-editor key: from the value the
    out-parameter holds it gives the result and the value it leaves. *)
Definition GetShaderPermutationFlags (bProjectSupportsCookedEditor : option bool)
    (GetBool : bool -> bool * bool) (WithEditorOnly : bool) : Z * option bool :=
  let Result := None_ in
  let bSupports :=
    match bProjectSupportsCookedEditor with
    | Some b => b
    | None =>
        let bSupportCookedEditorConfigValue := false in
        let '(found, bSupportCookedEditorConfigValue) :=
          GetBool bSupportCookedEditorConfigValue in
        found && bSupportCookedEditorConfigValue
    end in
  let Result :=
    if bSupports || WithEditorOnly then Z.lor Result HasEditorOnlyData else Result in
  (Result, Some bSupports).

End Shader.

(** Further members of the element set that [TMapBase] forwards to. *)
Module TSetQueries.
Import Containers.
Section TSetQueries.
Context {KeyType ValueType : Type} {KF : KeyFuncs KeyType}.

(** Modelled from the spec: [TSet::IsEmpty], no live element. *)
Definition IsEmpty (s : TSet KeyType ValueType) : bool := TSetOps.Num s =? 0.

(** Modelled from the spec: [TSet::IsValidId], the identifier "refers to a
    valid element": its slot is live. *)
Definition IsValidId (s : TSet KeyType ValueType) (Id : FSetElementId) : bool :=
  match TSetOps.Get s Id with Some _ => true | None => false end.

(** Modelled from the spec: [TSet::ContainsByHash], the existence check
    under a caller-supplied hash. *)
Definition ContainsByHash (s : TSet KeyType ValueType) (KeyHash : Z) (Key : KeyType)
    : bool :=
  match TSetOps.FindIdByHash s KeyHash Key with Some _ => true | None => false end.

(** Modelled from the spec: [TSet::Array], the elements in iteration
    order. *)
Definition Array (s : TSet KeyType ValueType) : list (KeyType * ValueType) :=
  TSetOps.LivePairs s.

(** Modelled from the spec: [TSet::Empty], which "discards all elements,
    optionally pre-reserving" (capacity is not part of the model). *)
Definition Empty (s : TSet KeyType ValueType) (ExpectedNumElements : Z)
    : TSet KeyType ValueType :=
  TSetOps.Empty.

End TSetQueries.
End TSetQueries.

(** Modelled from the spec: [TArray::Empty], which discards all elements
    (the slack it keeps is not part of the model). *)
Definition TArray_Empty {A : Type} (a : list A) (Slack : Z) : list A := [].

(** Further members of [TMapBase]. *)
Module TMapBaseQueries.
Import Containers.

(** How a checked lookup ends.  Modelled from the spec: the [check] macro
    is not part of the excerpt; its assertions "are detected only in
    diagnostic/debug builds where checks are compiled in, and are fatal
    when detected".  [CheckFailed]: the assertion is compiled in and
    fails.  [NullDereference]: it is compiled out and the statement after
    it reads [Pair->Value] through a null [Pair].  [Checked]: the
    reference returned. *)
Inductive CheckResult (A : Type) :=
| CheckFailed
| NullDereference
| Checked (a : A).
Arguments CheckFailed {A}.
Arguments NullDereference {A}.
Arguments Checked {A} a.

Section TMapBaseQueries.
Context {KeyType ValueType : Type} {KF : KeyFuncs KeyType}.
Local Abbreviation MapType := (TMapBase KeyType ValueType).

Definition Empty (m : MapType) (ExpectedNumElements : Z) : MapType :=
  {| Pairs := TSetQueries.Empty (Pairs m) ExpectedNumElements |}.

Definition Reset (m : MapType) : MapType :=
  {| Pairs := TSetOps.Reset (Pairs m) |}.

Definition Reserve (m : MapType) (Number : Z) : MapType :=
  {| Pairs := TSetOps.Reserve (Pairs m) Number |}.

Definition IsEmpty (m : MapType) : bool := TSetQueries.IsEmpty (Pairs m).

Definition IsValidId (m : MapType) (Id : FSetElementId) : bool :=
  TSetQueries.IsValidId (Pairs m) Id.

Definition Get (m : MapType) (Id : FSetElementId) : option (KeyType * ValueType) :=
  TSetOps.Get (Pairs m) Id.


(** [DO_CHECK] tells whether the build compiles [check] in. *)
Definition FindChecked (DO_CHECK : bool) (m : MapType) (Key : KeyType)
    : CheckResult ValuePtr :=
  let Pair := TSetOps.Find (Pairs m) Key in
  if DO_CHECK && negb (match Pair with Some _ => true | None => false end)
  then CheckFailed
  else match Pair with
       | Some Pair => Checked Pair
       | None => NullDereference
       end.

(** [DefaultValue] is [ValueType()]. *)
Definition FindRef (DefaultValue : ValueType) (m : MapType) (Key : KeyType)
    : ValueType :=
  match TSetOps.Find (Pairs m) Key with
  | Some Pair => default DefaultValue (TMapBaseOps.ValueAt m Pair)
  | None => DefaultValue
  end.

Definition ContainsByHash (m : MapType) (KeyHash : Z) (Key : KeyType) : bool :=
  TSetQueries.ContainsByHash (Pairs m) KeyHash Key.

Definition Array (m : MapType) : list (KeyType * ValueType) :=
  TSetQueries.Array (Pairs m).

(** The pointer to the key is read at once: the result is the key of the
    first pair, in iteration order, whose value equals [Value]. *)
Definition FindKey (ValueEq : ValueType -> ValueType -> bool) (m : MapType)
    (Value : ValueType) : option KeyType :=
  fst <$> List.find (fun PairIt : KeyType * ValueType => ValueEq PairIt.2 Value)
                    (TSetOps.LivePairs (Pairs m)).

Definition FilterByPredicate (m : MapType) (Pred : KeyType * ValueType -> bool)
    : MapType :=
  let FilterResults := TMapBaseOps.EmptyMap in
  let FilterResults := Reserve FilterResults (TSetOps.Num (Pairs m)) in
  foldl (fun (FilterResults : MapType) (Pair : KeyType * ValueType) =>
           if Pred Pair then (TMapBaseOps.Add FilterResults Pair.1 Pair.2).1
           else FilterResults)
        FilterResults (TSetOps.LivePairs (Pairs m)).

Definition GenerateKeyArray (m : MapType) (OutArray : list KeyType) : list KeyType :=
  let OutArray := TArray_Empty OutArray (TSetOps.Num (Pairs m)) in
  foldl (fun (OutArray : list KeyType) (PairIt : KeyType * ValueType) =>
           TArray_Add OutArray PairIt.1)
        OutArray (TSetOps.LivePairs (Pairs m)).

Definition GenerateValueArray (m : MapType) (OutArray : list ValueType)
    : list ValueType :=
  let OutArray := TArray_Empty OutArray (TSetOps.Num (Pairs m)) in
  foldl (fun (OutArray : list ValueType) (PairIt : KeyType * ValueType) =>
           TArray_Add OutArray PairIt.2)
        OutArray (TSetOps.LivePairs (Pairs m)).

End TMapBaseQueries.
End TMapBaseQueries.

(** [FConfigCacheIni::Add] and [FConfigCacheIni::Remove], which keep the
    config files the cache owns in [TMap<FString, FConfigFile*> OtherFiles]. *)
Module ConfigCacheIni.
Import Containers.

Section ConfigCacheIni.
Context {FString FConfigFile : Type} {KF : KeyFuncs FString}.

(** The cache's map and the [FConfigFile] objects on the heap, by address;
    address 0 is the null pointer. *)
Record FConfigCacheIni := {
  OtherFiles : TMapBase FString Z;
  Heap : gmap Z FConfigFile
}.

(** [delete p]: nothing for the null pointer. *)
Definition Delete (p : Z) (H : gmap Z FConfigFile) : gmap Z FConfigFile :=
  if p =? 0 then H else delete p H.

(** [NewFile] is the address [new FConfigFile(File)] returns.  The result
    is the address of the file the returned reference designates. *)
Definition Add (c : FConfigCacheIni) (Filename : FString) (File : FConfigFile)
    (NewFile : Z) : FConfigCacheIni * Z :=
  let H := <[NewFile := File]> (Heap c) in
  let '(m, Ref) := TMapBaseOps.Add (OtherFiles c) Filename NewFile in
  ({| OtherFiles := m; Heap := H |}, default 0 (TMapBaseOps.ValueAt m Ref)).

Definition Remove (c : FConfigCacheIni) (Filename : FString) : FConfigCacheIni * Z :=
  let H := Delete (TMapBaseQueries.FindRef 0 (OtherFiles c) Filename) (Heap c) in
  let '(m, NumRemoved) := TMapBaseOps.Remove (OtherFiles c) Filename in
  ({| OtherFiles := m; Heap := H |}, NumRemoved).

End ConfigCacheIni.
End ConfigCacheIni.


(** * Properties of the sized heap allocator *)

Import SizedHeapAllocator.

Lemma pow2_IndexSize cfg :
  ValidConfig cfg ->
  2 ^ IndexSize cfg = 2 * 2 ^ (IndexSize cfg - 1) /\ 0 < 2 ^ (IndexSize cfg - 1).
Proof.
  intros (HI & _ & _).
  destruct HI as [-> | [-> | [-> | ->]]]; split; reflexivity.
Qed.

Lemma to_USizeType_nonneg cfg n :
  ValidConfig cfg -> InSizeType cfg n -> 0 <= n -> to_USizeType cfg n = n.
Proof.
  intros Hc [_ Hn] H0. unfold to_USizeType, SizeType_Max in *.
  destruct (pow2_IndexSize cfg Hc) as [E Hp].
  apply Z.mod_small. lia.
Qed.

Lemma quotient_lt_iff M b n : 0 < b -> (M / b <? n) = (M <? n * b).
Proof.
  intros Hb.
  destruct (Z.ltb_spec (M / b) n) as [H | H];
    destruct (Z.ltb_spec M (n * b)) as [H' | H']; try reflexivity; exfalso.
  - assert (n <= M / b) by (apply Z.div_le_lower_bound; lia). lia.
  - assert (M / b < n) by (apply Z.div_lt_upper_bound; lia). lia.
Qed.

Lemma bInvalidResize_spec cfg n b :
  ValidConfig cfg -> InSizeType cfg n -> InSIZE_T cfg b ->
  bInvalidResize cfg n b = true <->
  (n < 0 \/ b = 0 \/ MAX_int32 < b \/
   (IndexSize cfg = SIZE_T_bits cfg /\ SizeType_Max cfg < n * b)).
Proof.
  intros Hc Hn Hb. unfold bInvalidResize.
  destruct (Z.ltb_spec n 0) as [Hn0 | Hn0]; simpl.
  { rewrite Tauto.if_same. split; [auto | reflexivity]. }
  destruct (Z.ltb_spec b 1) as [Hb1 | Hb1]; simpl.
  { rewrite Tauto.if_same. split; [intros _; right; left; destruct Hb; lia | reflexivity]. }
  destruct (Z.ltb_spec MAX_int32 b) as [Hm | Hm]; simpl.
  { rewrite Tauto.if_same. split; [auto | reflexivity]. }
  destruct (Z.eqb_spec (IndexSize cfg) (SIZE_T_bits cfg)) as [He | He].
  - rewrite to_USizeType_nonneg, quotient_lt_iff by (assumption || lia).
    rewrite Z.ltb_lt. split; [intros H; do 3 right; auto | intros [?|[?|[?|[_ ?]]]]; lia].
  - split; [discriminate | intros [?|[?|[?|[? _]]]]; lia].
Qed.

Lemma exact_count cfg n b :
  ValidConfig cfg -> InSizeType cfg n -> InSIZE_T cfg b ->
  bInvalidResize cfg n b = false ->
  SIZE_T_bits cfg = 64 \/ IndexSize cfg = SIZE_T_bits cfg ->
  wrap_SIZE_T cfg (n * b) = n * b.
Proof.
  intros Hc Hn Hb Hv Hw.
  assert (Hnot : ~ (n < 0 \/ b = 0 \/ MAX_int32 < b \/
            (IndexSize cfg = SIZE_T_bits cfg /\ SizeType_Max cfg < n * b))).
  { rewrite <- bInvalidResize_spec by assumption. congruence. }
  unfold wrap_SIZE_T. apply Z.mod_small.
  destruct (pow2_IndexSize cfg Hc) as [E Hp].
  destruct Hn as [_ Hn]. unfold InSIZE_T, SizeType_Max, MAX_int32 in *.
  assert (0 <= n) by lia. assert (1 <= b <= 2147483647) by lia.
  split; [nia |].
  destruct (Z.eq_dec (IndexSize cfg) (SIZE_T_bits cfg)) as [He | He].
  - rewrite <- He, E. lia.
  - destruct Hw as [H64 | ?]; [| contradiction].
    rewrite H64. destruct Hc as (HI & _ & Hle).
    assert (IndexSize cfg <= 32) by lia.
    assert (2 ^ (IndexSize cfg - 1) <= 2 ^ 31) by (apply Z.pow_le_mono_r; lia).
    change (2 ^ 64) with (2 ^ 31 * 2 ^ 33). nia.
Qed.


Lemma resize_guard_iff self n :
  (HasAllocation self || negb (n =? 0))%bool = true <->
  (Data self <> nullptr \/ n <> 0).
Proof.
  unfold HasAllocation.
  destruct (Z.eqb_spec (Data self) nullptr), (Z.eqb_spec n 0); simpl;
    split; intros; try reflexivity; try discriminate; tauto.
Qed.


(** C3 (as amended). [ResizeAllocation], in both overloads, enters the fatal
    hook exactly when the allocator owns a block or the requested count is
    not zero, and the count is negative, or the element size is zero, or
    the element size exceeds [MAX_int32], or (where [SizeType] is as wide
    as [SIZE_T]) the byte count exceeds the largest [SizeType] value.  The
    hook receives the index width, the count and the element size.  The
    outcome does not depend on whether [checkSlow] is compiled in.  When
    the hook is not entered and the guard passes, [Realloc] is called once
    on the current block with [count * size] bytes, computed in [SIZE_T];
    for a 64-bit [SIZE_T], or an index as wide as [SIZE_T], that product is
    exact, and a product that would not fit [SIZE_T] always reaches the
    hook. *)
Theorem ResizeAllocation_fatal_iff :
  forall (Realloc : ptr -> Z -> Z -> ptr) (DEFAULT_ALIGNMENT : Z) (cfg : Config)
         (self : ForAnyElementType) (prev n b align : Z),
    ValidConfig cfg -> InSizeType cfg n -> InSIZE_T cfg b ->
    let o := ResizeAllocationAligned Realloc cfg self prev n b align in
    ResizeAllocation Realloc DEFAULT_ALIGNMENT cfg self prev n b =
      ResizeAllocationAligned Realloc cfg self prev n b DEFAULT_ALIGNMENT /\
    (IsFatal o <->
       (Data self <> nullptr \/ n <> 0) /\
       (n < 0 \/ b = 0 \/ MAX_int32 < b \/
        (IndexSize cfg = SIZE_T_bits cfg /\ SizeType_Max cfg < n * b))) /\
    (IsFatal o -> o = OnInvalidSizedHeapAllocatorNum (IndexSize cfg) n b) /\
    (forall d, ResizeAllocationAligned Realloc (with_guard_slow cfg d) self prev n b align = o) /\
    (~ IsFatal o -> Data self <> nullptr \/ n <> 0 ->
       o = Returns {| Data := Realloc (Data self) (wrap_SIZE_T cfg (n * b)) align |}
                   [EvRealloc (Data self) (wrap_SIZE_T cfg (n * b)) align] /\
       (SIZE_T_bits cfg = 64 \/ IndexSize cfg = SIZE_T_bits cfg ->
        wrap_SIZE_T cfg (n * b) = n * b)) /\
    (SIZE_T_bits cfg = 64 \/ IndexSize cfg = SIZE_T_bits cfg ->
     0 <= n -> 2 ^ SIZE_T_bits cfg <= n * b -> IsFatal o).
Proof.
  intros Realloc DA cfg self prev n b align Hc Hn Hb o.
  pose proof (bInvalidResize_spec cfg n b Hc Hn Hb) as Hinv.
  pose proof (resize_guard_iff self n) as Hg.
  assert (Hfat : IsFatal o <->
       (Data self <> nullptr \/ n <> 0) /\
       (n < 0 \/ b = 0 \/ MAX_int32 < b \/
        (IndexSize cfg = SIZE_T_bits cfg /\ SizeType_Max cfg < n * b))).
  { subst o. unfold ResizeAllocationAligned.
    destruct (HasAllocation self || negb (n =? 0))%bool.
    - destruct (bInvalidResize cfg n b); simpl.
      + split; [intros _; split; [apply Hg | apply Hinv]; reflexivity | trivial].
      + split; [contradiction | intros [_ H]; apply Hinv in H; discriminate].
    - simpl. split; [contradiction | intros [H _]; apply Hg in H; discriminate]. }
  split; [reflexivity |]. split; [exact Hfat |].
  split; [| split; [| split]].
  - subst o. unfold ResizeAllocationAligned.
    destruct (HasAllocation self || negb (n =? 0))%bool;
      [destruct (bInvalidResize cfg n b) |]; simpl; intros H;
      (reflexivity || contradiction).
  - intros d. reflexivity.
  - intros Hnf Hguard. apply Hg in Hguard.
    subst o. unfold ResizeAllocationAligned in *. rewrite Hguard in *.
    destruct (bInvalidResize cfg n b) eqn:Hv; [exfalso; apply Hnf; exact I |].
    split; [reflexivity |]. intros Hw. now apply exact_count.
  - intros Hw Hn0 Hov. apply Hfat.
    assert (Hpos : 0 < 2 ^ SIZE_T_bits cfg).
    { apply Z.pow_pos_nonneg; [lia |]. destruct Hc as (_ & [-> | ->] & _); lia. }
    assert (Hnz : n <> 0) by nia.
    split; [right; exact Hnz |].
    destruct (Z.eq_dec b 0) as [-> | Hb0]; [right; left; reflexivity |].
    destruct (Z_lt_le_dec MAX_int32 b) as [Hm | Hm]; [right; right; left; exact Hm |].
    do 3 right.
    destruct (pow2_IndexSize cfg Hc) as [E Hp].
    destruct Hn as [_ Hn]. unfold SizeType_Max, MAX_int32, InSIZE_T in *.
    destruct (Z.eq_dec (IndexSize cfg) (SIZE_T_bits cfg)) as [He | He].
    + split; [exact He |]. rewrite <- He, E in Hov. lia.
    + exfalso. destruct Hw as [H64 | ?]; [| contradiction].
      rewrite H64 in *. destruct Hc as (HI & _ & Hle).
      assert (IndexSize cfg <= 32) by lia.
      assert (2 ^ (IndexSize cfg - 1) <= 2 ^ 31) by (apply Z.pow_le_mono_r; lia).
      change (2 ^ 64) with (2 ^ 31 * 2 ^ 33) in Hov. nia.
Qed.

Lemma ResizeAllocation_fatal_iff_witness :
  ValidConfig Config64 /\ InSizeType Config64 (2 ^ 62) /\ InSIZE_T Config64 2 /\
  IsFatal (ResizeAllocationAligned (fun _ _ _ => 4096) Config64
             {| Data := nullptr |} 0 (2 ^ 62) 2 16).
Proof.
  assert (Hc : ValidConfig Config64) by (unfold ValidConfig; simpl; lia).
  assert (Hn : InSizeType Config64 (2 ^ 62)) by (split; vm_compute; discriminate).
  assert (Hb : InSIZE_T Config64 2) by (split; vm_compute; [discriminate | reflexivity]).
  split; [exact Hc | split; [exact Hn | split; [exact Hb |]]].
  destruct (ResizeAllocation_fatal_iff (fun _ _ _ => 4096) 0 Config64
              {| Data := nullptr |} 0 (2 ^ 62) 2 16 Hc Hn Hb) as (_ & Hiff & _).
  apply Hiff.
  split; [right; discriminate |].
  do 3 right. split; [reflexivity | reflexivity].
Defined.

(** With no block owned, a zero count and a zero element size, the hook is
    not entered although the element size is zero. *)
Lemma ResizeAllocation_zero_size_not_fatal :
  ~ (IsFatal (ResizeAllocation (fun _ _ _ => 4096) 0 Config32on64
                {| Data := nullptr |} 0 0 0) <->
     (0 < 0 \/ 0 = 0 \/ 2 ^ SIZE_T_bits Config32on64 <= 0 * 0)).
Proof.
  intros [_ H]. apply H. right; left; reflexivity.
Qed.

(** C10. With no block owned and a zero count, [ResizeAllocation] returns
    at once, for every element size: the allocator is unchanged, [Realloc]
    is not called and the fatal hook is not entered. *)
Theorem ResizeAllocation_null_zero_returns :
  forall (Realloc : ptr -> Z -> Z -> ptr) (DEFAULT_ALIGNMENT : Z) (cfg : Config)
         (prev b align : Z),
    let o := ResizeAllocation Realloc DEFAULT_ALIGNMENT cfg {| Data := nullptr |} prev 0 b in
    let o' := ResizeAllocationAligned Realloc cfg {| Data := nullptr |} prev 0 b align in
    o = Returns {| Data := nullptr |} [] /\ ~ IsFatal o /\ ~ CallsRealloc o /\
    o' = Returns {| Data := nullptr |} [] /\ ~ IsFatal o' /\ ~ CallsRealloc o'.
Proof.
  intros. subst o o'. unfold ResizeAllocation, ResizeAllocationAligned. simpl.
  repeat split; try (intros H; exact H);
    intros (p & c & a & H); inversion H.
Qed.

(** C7 (as amended). Moving the allocator state between two distinct
    allocator objects transfers the block: afterwards the destination
    holds the source's previous block pointer and the source holds null,
    and no other allocator changes.  A block the destination owned before
    is released with [Free]; owning one is not rejected.  The only internal
    check, active in debug builds, is that the destination is not the
    source itself. *)
Theorem MoveToEmpty_transfers_block :
  forall (cfg : Config) (this Other : nat) (s : Store),
    this <> Other ->
    exists s',
      MoveToEmptyFromOtherAllocator cfg this Other s =
        Returns s' (if HasAllocation (s this) then [EvFree (Data (s this))] else []) /\
      MoveToEmpty cfg this Other s = MoveToEmptyFromOtherAllocator cfg this Other s /\
      Data (s' this) = Data (s Other) /\
      Data (s' Other) = nullptr /\
      (forall a, a <> this -> a <> Other -> s' a = s a) /\
      (MoveToEmptyFromOtherAllocator cfg this this s = CheckSlowFailed <->
       DO_GUARD_SLOW cfg = true).
Proof.
  intros cfg this Other s Hne.
  unfold MoveToEmpty, MoveToEmptyFromOtherAllocator.
  assert (Hneq : Nat.eqb this Other = false) by (apply Nat.eqb_neq; exact Hne).
  assert (Hneq' : Nat.eqb Other this = false) by (apply Nat.eqb_neq; congruence).
  rewrite Hneq, andb_false_r. eexists. split; [reflexivity |].
  split; [reflexivity |]. unfold store_set.
  rewrite Nat.eqb_refl, Hneq', Nat.eqb_refl.
  split; [reflexivity |]. split; [reflexivity |]. split.
  - intros a Ha Hb.
    destruct (Nat.eqb_spec Other a); [congruence |].
    destruct (Nat.eqb_spec this a); [congruence | reflexivity].
  - rewrite andb_true_r. destruct (DO_GUARD_SLOW cfg); split; congruence.
Qed.

Lemma MoveToEmpty_transfers_block_witness :
  0%nat <> 1%nat /\
  exists s',
    MoveToEmptyFromOtherAllocator Config64 0 1 TwoAllocators =
      Returns s' [EvFree 4096] /\
    Data (s' 0%nat) = 8192 /\ Data (s' 1%nat) = nullptr.
Proof.
  split; [discriminate |].
  destruct (MoveToEmpty_transfers_block Config64 0 1 TwoAllocators ltac:(discriminate))
    as (s' & Hm & _ & Ht & Ho & _).
  exists s'. split; [exact Hm |]. split; [exact Ht | exact Ho].
Defined.

(** In a debug build a destination that owns a block is accepted: no check
    fails. *)
Lemma MoveToEmpty_accepts_allocated_destination :
  ~ (DO_GUARD_SLOW ConfigDebug = true ->
     HasAllocation (TwoAllocators 0%nat) = true ->
     MoveToEmptyFromOtherAllocator ConfigDebug 0 1 TwoAllocators = CheckSlowFailed).
Proof.
  intros H. specialize (H eq_refl eq_refl). discriminate H.
Qed.


(** * Properties of the element set *)

Import Containers.

Section TSetFacts.
Context {KeyType ValueType : Type} {KF : KeyFuncs KeyType}.
Implicit Types (s : TSet KeyType ValueType) (e : KeyType * ValueType).
Implicit Types (i j Id : FSetElementId) (h : Z).

(** Reading slots and chains after each primitive step. *)

Lemma Get_Some_lt s i e : TSetOps.Get s i = Some e -> (i < length (Elements s))%nat.
Proof.
  unfold TSetOps.Get. destruct (Elements s !! i) eqn:E; [| discriminate].
  intros _. eapply lookup_lt_Some; eauto.
Qed.

Lemma Get_tombstone s i : Elements s !! i = Some None -> TSetOps.Get s i = None.
Proof. unfold TSetOps.Get. now intros ->. Qed.

Lemma AddNew_id_fresh s h e :
  TSetOps.WF s -> TSetOps.Get s (TSetOps.AddNew s h e).2 = None.
Proof.
  intros W. unfold TSetOps.AddNew. destruct (FreeList s) as [| i fl] eqn:F; simpl.
  - unfold TSetOps.Get. rewrite lookup_ge_None_2; [reflexivity | lia].
  - apply Get_tombstone, (TSetOps.wf_free s W). rewrite F. left.
Qed.

Lemma Get_AddNew s h e j :
  TSetOps.WF s ->
  TSetOps.Get (TSetOps.AddNew s h e).1 j =
    if decide (j = (TSetOps.AddNew s h e).2) then Some e else TSetOps.Get s j.
Proof.
  intros W. unfold TSetOps.AddNew. destruct (FreeList s) as [| i fl] eqn:F; simpl.
  - unfold TSetOps.Get; simpl. case_decide as Hj.
    + subst j. now rewrite list_lookup_middle.
    + destruct (decide (j < length (Elements s))%nat) as [Hlt | Hge].
      * now rewrite lookup_app_l.
      * rewrite !lookup_ge_None_2; [reflexivity | lia |].
        rewrite length_app; simpl; lia.
  - assert (Hi : Elements s !! i = Some None).
    { apply (TSetOps.wf_free s W). rewrite F. left. }
    unfold TSetOps.Get; simpl. case_decide as Hj.
    + subst j. rewrite list_lookup_insert_eq; [reflexivity |].
      eapply lookup_lt_Some; eauto.
    + now rewrite list_lookup_insert_ne.
Qed.

Lemma Bucket_AddNew s h e h' :
  TSetOps.Bucket (TSetOps.AddNew s h e).1 h' =
    if decide (h = h') then (TSetOps.AddNew s h e).2 :: TSetOps.Bucket s h
    else TSetOps.Bucket s h'.
Proof.
  unfold TSetOps.AddNew.
  destruct (FreeList s); unfold TSetOps.Bucket; simpl;
    rewrite lookup_insert; case_decide; reflexivity.
Qed.

Lemma Get_ReplaceValue s Id v j :
  TSetOps.Get (TSetOps.ReplaceValue s Id v) j =
    if decide (j = Id) then (fun e => (e.1, v)) <$> TSetOps.Get s Id
    else TSetOps.Get s j.
Proof.
  unfold TSetOps.ReplaceValue, TSetOps.Get; cbn [Elements]. case_decide as Hj.
  - subst j. rewrite list_lookup_alter_eq.
    destruct (_ !! Id) as [[e |] |]; reflexivity.
  - now rewrite list_lookup_alter_ne.
Qed.

Lemma Bucket_ReplaceValue s Id v h :
  TSetOps.Bucket (TSetOps.ReplaceValue s Id v) h = TSetOps.Bucket s h.
Proof. reflexivity. Qed.

Lemma Get_RemoveId s h Id j :
  TSetOps.Get (TSetOps.RemoveId s h Id) j =
    if decide (j = Id) then None else TSetOps.Get s j.
Proof.
  unfold TSetOps.RemoveId, TSetOps.Get; simpl. case_decide as Hj.
  - subst j. destruct (decide (Id < length (Elements s))%nat).
    + now rewrite list_lookup_insert_eq.
    + rewrite lookup_ge_None_2; [reflexivity |]. rewrite length_insert. lia.
  - now rewrite list_lookup_insert_ne.
Qed.

Lemma Bucket_RemoveId s h Id h' :
  TSetOps.Bucket (TSetOps.RemoveId s h Id) h' =
    if decide (h = h') then filter (fun j => j <> Id) (TSetOps.Bucket s h)
    else TSetOps.Bucket s h'.
Proof.
  unfold TSetOps.RemoveId, TSetOps.Bucket; simpl.
  rewrite lookup_insert; case_decide; reflexivity.
Qed.

Lemma MatchesAt_Some s Key i :
  TSetOps.MatchesAt s Key i = true <->
  exists e, TSetOps.Get s i = Some e /\ Matches e.1 Key = true.
Proof.
  unfold TSetOps.MatchesAt. destruct (TSetOps.Get s i) as [[k v] |]; simpl.
  - split; [eauto | intros (e & [= <-] & H); exact H].
  - split; [discriminate | intros (e & H & _); discriminate].
Qed.

(** The probe returns the first element of the chain with an equal key. *)

Lemma find_ext {A} (f g : A -> bool) (l : list A) :
  (forall x, x ∈ l -> f x = g x) -> List.find f l = List.find g l.
Proof.
  induction l as [| a l IH]; intros H; simpl; [reflexivity |].
  rewrite <- (H a) by left. destruct (f a); [reflexivity |].
  apply IH. intros x Hx. apply H. now right.
Qed.

Lemma find_Some_elem {A} (f : A -> bool) (l : list A) x :
  List.find f l = Some x -> x ∈ l /\ f x = true.
Proof.
  intros H. apply List.find_some in H as [H1 H2].
  split; [now apply list_elem_of_In | exact H2].
Qed.

Lemma find_None_elem {A} (f : A -> bool) (l : list A) :
  List.find f l = None <-> forall x, x ∈ l -> f x = false.
Proof.
  split.
  - intros H x Hx. eapply List.find_none; eauto. now apply list_elem_of_In.
  - induction l as [| a l IH]; intros H; simpl; [reflexivity |].
    rewrite (H a) by left. apply IH. intros x Hx. apply H. now right.
Qed.

Lemma FindIdByHash_Some s h Key i :
  TSetOps.FindIdByHash s h Key = Some i ->
  i ∈ TSetOps.Bucket s h /\
  exists e, TSetOps.Get s i = Some e /\ Matches e.1 Key = true.
Proof.
  unfold TSetOps.FindIdByHash. intros H.
  apply find_Some_elem in H as [H1 H2]. split; [exact H1 |].
  now apply MatchesAt_Some.
Qed.


(** The invariant holds initially and every step keeps it. *)

Lemma WF_Empty : TSetOps.WF (TSetOps.Empty (KeyType := KeyType) (ValueType := ValueType)).
Proof.
  constructor; unfold TSetOps.Bucket, TSetOps.Get; simpl.
  - intros i Hi. inversion Hi.
  - constructor.
  - intros h i Hi. rewrite lookup_empty in Hi. inversion Hi.
  - intros h1 h2 i Hi. rewrite lookup_empty in Hi. inversion Hi.
  - intros i [? Hi]. discriminate.
  - intros _ h i j ei ej Hi. rewrite lookup_empty in Hi. inversion Hi.
Qed.

Lemma WellHashed_Empty :
  TSetOps.WellHashed (TSetOps.Empty (KeyType := KeyType) (ValueType := ValueType)).
Proof.
  intros h i e Hi. unfold TSetOps.Bucket in Hi; simpl in Hi.
  rewrite lookup_empty in Hi. inversion Hi.
Qed.

Lemma not_in_bucket_of_dead s h i :
  TSetOps.WF s -> TSetOps.Get s i = None -> i ∉ TSetOps.Bucket s h.
Proof.
  intros W Hd Hi. destruct (TSetOps.wf_bucket_live s W h i Hi) as [x Hx]. congruence.
Qed.

Context {KL : KeyFuncsLaws KF}.

Lemma WF_AddNew s h e :
  TSetOps.WF s ->
  (bAllowDuplicateKeys = false -> TSetOps.FindIdByHash s h e.1 = None) ->
  TSetOps.WF (TSetOps.AddNew s h e).1.
Proof.
  intros W Hnone.
  pose proof (AddNew_id_fresh s h e W) as Hfresh.
  pose proof (fun j => Get_AddNew s h e j W) as HG.
  pose proof (Bucket_AddNew s h e) as HB.
  assert (Hnb : forall h', (TSetOps.AddNew s h e).2 ∉ TSetOps.Bucket s h')
    by (intros h'; now apply not_in_bucket_of_dead).
  constructor.
  - unfold TSetOps.AddNew. destruct (FreeList s) as [| i0 fl] eqn:F; simpl.
    + intros i Hi. inversion Hi.
    + intros i Hi.
      pose proof (TSetOps.wf_free_nodup s W) as Hnd. rewrite F in Hnd.
      apply NoDup_cons in Hnd as [Hni _].
      rewrite list_lookup_insert_ne by (intros ->; contradiction).
      apply (TSetOps.wf_free s W). rewrite F. now right.
  - unfold TSetOps.AddNew. destruct (FreeList s) as [| i0 fl] eqn:F; simpl.
    + constructor.
    + pose proof (TSetOps.wf_free_nodup s W) as Hnd. rewrite F in Hnd.
      now apply NoDup_cons in Hnd as [_ Hnd].
  - intros h' i Hi. rewrite HG. case_decide; [eauto |].
    rewrite HB in Hi. case_decide.
    + apply elem_of_cons in Hi as [-> | Hi]; [contradiction |].
      eapply TSetOps.wf_bucket_live; eauto.
    + eapply TSetOps.wf_bucket_live; eauto.
  - intros h1 h2 i H1 H2. rewrite HB in H1, H2.
    destruct (decide (h = h1)) as [E1 | E1]; destruct (decide (h = h2)) as [E2 | E2];
      [congruence | | |].
    + apply elem_of_cons in H1 as [-> | H1]; [exfalso; eapply Hnb; eauto |].
      subst. eapply TSetOps.wf_bucket_disjoint; eauto.
    + apply elem_of_cons in H2 as [-> | H2]; [exfalso; eapply Hnb; eauto |].
      subst. eapply TSetOps.wf_bucket_disjoint; eauto.
    + eapply TSetOps.wf_bucket_disjoint; eauto.
  - intros i Hi. rewrite HG in Hi. case_decide as Hd.
    + exists h. rewrite HB. rewrite decide_True by reflexivity. subst i. left.
    + destruct (TSetOps.wf_linked s W i Hi) as [h' Hh'].
      exists h'. rewrite HB. case_decide; [subst; now right | exact Hh'].
  - intros Hdup h' i j ei ej Hi Hj Gi Gj Hm.
    rewrite HG in Gi, Gj. rewrite HB in Hi, Hj.
    assert (Hprobe : forall x ex, x ∈ TSetOps.Bucket s h -> TSetOps.Get s x = Some ex ->
                       Matches ex.1 e.1 = false).
    { intros x ex Hx Gx.
      pose proof (proj1 (find_None_elem _ _) (Hnone Hdup) x Hx) as Hf.
      unfold TSetOps.MatchesAt in Hf. rewrite Gx in Hf. now destruct ex. }
    destruct (decide (i = (TSetOps.AddNew s h e).2)) as [Ei | Ei];
      destruct (decide (j = (TSetOps.AddNew s h e).2)) as [Ej | Ej];
      try congruence.
    + exfalso. injection Gi as <-.
      case_decide; [| subst; eapply Hnb; eauto].
      apply elem_of_cons in Hj as [-> | Hj]; [contradiction |].
      apply Matches_sym in Hm. rewrite (Hprobe j ej Hj Gj) in Hm. discriminate.
    + exfalso. injection Gj as <-.
      case_decide; [| subst; eapply Hnb; eauto].
      apply elem_of_cons in Hi as [-> | Hi]; [contradiction |].
      rewrite (Hprobe i ei Hi Gi) in Hm. discriminate.
    + assert (Hi' : i ∈ TSetOps.Bucket s h').
      { case_decide; [| exact Hi]. subst.
        apply elem_of_cons in Hi as [-> | Hi]; [contradiction | exact Hi]. }
      assert (Hj' : j ∈ TSetOps.Bucket s h').
      { case_decide; [| exact Hj]. subst.
        apply elem_of_cons in Hj as [-> | Hj]; [contradiction | exact Hj]. }
      eapply (TSetOps.wf_unique s W Hdup); eauto.
Qed.

Lemma WF_ReplaceValue s Id v :
  TSetOps.WF s -> TSetOps.WF (TSetOps.ReplaceValue s Id v).
Proof.
  intros W.
  pose proof (Get_ReplaceValue s Id v) as HG.
  assert (Hsome : forall j, is_Some (TSetOps.Get (TSetOps.ReplaceValue s Id v) j) <->
                            is_Some (TSetOps.Get s j)).
  { intros j. rewrite HG. case_decide; [subst; apply fmap_is_Some | reflexivity]. }
  assert (Hkey : forall j e', TSetOps.Get (TSetOps.ReplaceValue s Id v) j = Some e' ->
                   exists e0, TSetOps.Get s j = Some e0 /\ e0.1 = e'.1).
  { intros j e'. rewrite HG. case_decide; [subst | eauto].
    destruct (TSetOps.Get s Id) as [e0 |]; simpl; [| discriminate].
    intros [= <-]. eauto. }
  constructor; try (rewrite Bucket_ReplaceValue || idtac).
  - intros i Hi. simpl in *.
    pose proof (TSetOps.wf_free s W i Hi) as Ht.
    destruct (decide (i = Id)) as [-> | Hne].
    + rewrite list_lookup_alter_eq, Ht. reflexivity.
    + now rewrite list_lookup_alter_ne.
  - exact (TSetOps.wf_free_nodup s W).
  - intros h i Hi. apply Hsome. eapply TSetOps.wf_bucket_live; eauto.
  - exact (TSetOps.wf_bucket_disjoint s W).
  - intros i Hi. apply Hsome in Hi. exact (TSetOps.wf_linked s W i Hi).
  - intros Hdup h i j ei ej Hi Hj Gi Gj Hm.
    destruct (Hkey i ei Gi) as (ei0 & Gi0 & Ei).
    destruct (Hkey j ej Gj) as (ej0 & Gj0 & Ej).
    rewrite <- Ei, <- Ej in Hm.
    eapply (TSetOps.wf_unique s W Hdup); eauto.
Qed.

Lemma WF_RemoveId s h Id :
  TSetOps.WF s -> Id ∈ TSetOps.Bucket s h -> TSetOps.WF (TSetOps.RemoveId s h Id).
Proof.
  intros W HId.
  pose proof (Get_RemoveId s h Id) as HG.
  pose proof (Bucket_RemoveId s h Id) as HB.
  destruct (TSetOps.wf_bucket_live s W h Id HId) as [e0 Ge0].
  pose proof (Get_Some_lt s Id e0 Ge0) as Hlt.
  assert (Hsub : forall h' i, i ∈ TSetOps.Bucket (TSetOps.RemoveId s h Id) h' ->
                   i ∈ TSetOps.Bucket s h' /\ i <> Id).
  { intros h' i Hi. rewrite HB in Hi. case_decide as Hh.
    - subst h'. apply list_elem_of_filter in Hi as [? ?]. auto.
    - split; [exact Hi |]. intros ->. apply Hh.
      eapply TSetOps.wf_bucket_disjoint; eauto. }
  constructor.
  - intros i Hi. simpl in *. apply elem_of_cons in Hi as [-> | Hi].
    + now rewrite list_lookup_insert_eq.
    + pose proof (TSetOps.wf_free s W i Hi) as Ht.
      destruct (decide (Id = i)) as [-> | Hne].
      * now rewrite list_lookup_insert_eq.
      * now rewrite list_lookup_insert_ne.
  - simpl. apply NoDup_cons. split; [| exact (TSetOps.wf_free_nodup s W)].
    intros Hin. apply (TSetOps.wf_free s W) in Hin.
    apply Get_tombstone in Hin. congruence.
  - intros h' i Hi. apply Hsub in Hi as [Hi Hne].
    rewrite HG, decide_False by exact Hne.
    eapply TSetOps.wf_bucket_live; eauto.
  - intros h1 h2 i H1 H2. apply Hsub in H1 as [H1 _]. apply Hsub in H2 as [H2 _].
    eapply TSetOps.wf_bucket_disjoint; eauto.
  - intros i Hi. rewrite HG in Hi. case_decide as Hne; [destruct Hi; discriminate |].
    destruct (TSetOps.wf_linked s W i Hi) as [h' Hh'].
    exists h'. rewrite HB. case_decide; [| exact Hh'].
    subst. apply list_elem_of_filter. auto.
  - intros Hdup h' i j ei ej Hi Hj Gi Gj Hm.
    apply Hsub in Hi as [Hi Hni]. apply Hsub in Hj as [Hj Hnj].
    rewrite HG, decide_False in Gi by assumption.
    rewrite HG, decide_False in Gj by assumption.
    eapply (TSetOps.wf_unique s W Hdup); eauto.
Qed.


Lemma MatchesAt_ReplaceValue s Id v Key j :
  TSetOps.MatchesAt (TSetOps.ReplaceValue s Id v) Key j = TSetOps.MatchesAt s Key j.
Proof.
  unfold TSetOps.MatchesAt. rewrite Get_ReplaceValue. case_decide; [subst |]; [| reflexivity].
  destruct (TSetOps.Get s Id) as [[k0 v0] |]; reflexivity.
Qed.

Lemma FindIdByHash_ReplaceValue s Id v h Key :
  TSetOps.FindIdByHash (TSetOps.ReplaceValue s Id v) h Key = TSetOps.FindIdByHash s h Key.
Proof.
  unfold TSetOps.FindIdByHash. rewrite Bucket_ReplaceValue.
  apply find_ext. intros j _. apply MatchesAt_ReplaceValue.
Qed.

Lemma MatchesAt_AddNew_old s h e Key j :
  TSetOps.WF s -> is_Some (TSetOps.Get s j) ->
  TSetOps.MatchesAt (TSetOps.AddNew s h e).1 Key j = TSetOps.MatchesAt s Key j.
Proof.
  intros W Hj. unfold TSetOps.MatchesAt. rewrite Get_AddNew by exact W.
  case_decide as Hd; [| reflexivity]. subst j.
  rewrite AddNew_id_fresh in Hj by exact W. destruct Hj; discriminate.
Qed.

Lemma MatchesAt_AddNew_new s h e Key :
  TSetOps.WF s ->
  TSetOps.MatchesAt (TSetOps.AddNew s h e).1 Key (TSetOps.AddNew s h e).2 = Matches e.1 Key.
Proof.
  intros W. unfold TSetOps.MatchesAt. rewrite Get_AddNew by exact W.
  rewrite decide_True by reflexivity. now destruct e.
Qed.

(** Probing a chain after a new element was linked. *)
Lemma FindIdByHash_AddNew s h e h' Key :
  TSetOps.WF s ->
  TSetOps.FindIdByHash (TSetOps.AddNew s h e).1 h' Key =
    if decide (h = h') then
      if Matches e.1 Key then Some (TSetOps.AddNew s h e).2
      else TSetOps.FindIdByHash s h' Key
    else TSetOps.FindIdByHash s h' Key.
Proof.
  intros W. unfold TSetOps.FindIdByHash. rewrite Bucket_AddNew.
  assert (Hold : List.find (TSetOps.MatchesAt (TSetOps.AddNew s h e).1 Key)
                   (TSetOps.Bucket s h') =
                 List.find (TSetOps.MatchesAt s Key) (TSetOps.Bucket s h')).
  { apply find_ext. intros j Hj. apply MatchesAt_AddNew_old; [exact W |].
    eapply TSetOps.wf_bucket_live; eauto. }
  case_decide as Hh; [subst h' | exact Hold].
  simpl. rewrite MatchesAt_AddNew_new by exact W.
  destruct (Matches e.1 Key); [reflexivity | exact Hold].
Qed.

Lemma WF_EmplaceByHash s h e :
  TSetOps.WF s -> TSetOps.WF (TSetOps.EmplaceByHash s h e).1.
Proof.
  intros W. unfold TSetOps.EmplaceByHash.
  destruct bAllowDuplicateKeys eqn:Hdup.
  - apply WF_AddNew; [exact W | intros Hd; congruence].
  - destruct (TSetOps.FindIdByHash s h e.1) as [Id |] eqn:Hf; simpl.
    + now apply WF_ReplaceValue.
    + apply WF_AddNew; [exact W | intros _; exact Hf].
Qed.

Lemma WF_Emplace s e : TSetOps.WF s -> TSetOps.WF (TSetOps.Emplace s e).1.
Proof. apply WF_EmplaceByHash. Qed.

Lemma WellHashed_AddNew s e :
  TSetOps.WF s -> TSetOps.WellHashed s ->
  TSetOps.WellHashed (TSetOps.AddNew s (GetKeyHash e.1) e).1.
Proof.
  intros W WH h i e' Hi Gi.
  rewrite Get_AddNew in Gi by exact W. rewrite Bucket_AddNew in Hi.
  destruct (decide (i = (TSetOps.AddNew s (GetKeyHash e.1) e).2)) as [Ei | Ei].
  - simpl in Gi. injection Gi as <-. case_decide; [congruence |].
    exfalso. subst i. eapply not_in_bucket_of_dead; eauto using AddNew_id_fresh.
  - apply (WH h i e'); [| exact Gi].
    case_decide; [| exact Hi]. subst h.
    apply elem_of_cons in Hi as [-> | Hi]; [contradiction | exact Hi].
Qed.

Lemma WellHashed_ReplaceValue s Id v :
  TSetOps.WellHashed s -> TSetOps.WellHashed (TSetOps.ReplaceValue s Id v).
Proof.
  intros WH h i e' Hi Gi. rewrite Bucket_ReplaceValue in Hi.
  rewrite Get_ReplaceValue in Gi. case_decide; [subst i | eauto].
  destruct (TSetOps.Get s Id) as [e0 |] eqn:G0; simpl in Gi; [| discriminate].
  injection Gi as <-. simpl. exact (WH h Id e0 Hi G0).
Qed.

Lemma WellHashed_Emplace s e :
  TSetOps.WF s -> TSetOps.WellHashed s -> TSetOps.WellHashed (TSetOps.Emplace s e).1.
Proof.
  intros W WH. unfold TSetOps.Emplace, TSetOps.EmplaceByHash.
  destruct bAllowDuplicateKeys.
  - now apply WellHashed_AddNew.
  - destruct (TSetOps.FindIdByHash s (GetKeyHash e.1) e.1); simpl.
    + now apply WellHashed_ReplaceValue.
    + now apply WellHashed_AddNew.
Qed.

(** Insertion followed by a probe under the same hash: the inserted slot
    is found and holds the value. *)
Lemma FindIdByHash_EmplaceByHash s h e :
  TSetOps.WF s ->
  TSetOps.FindIdByHash (TSetOps.EmplaceByHash s h e).1 h e.1 =
    Some (TSetOps.EmplaceByHash s h e).2 /\
  exists k0, TSetOps.Get (TSetOps.EmplaceByHash s h e).1 (TSetOps.EmplaceByHash s h e).2
               = Some (k0, e.2) /\ Matches k0 e.1 = true.
Proof.
  intros W.
  assert (Hnew : TSetOps.FindIdByHash (TSetOps.AddNew s h e).1 h e.1 =
                   Some (TSetOps.AddNew s h e).2 /\
                 exists k0, TSetOps.Get (TSetOps.AddNew s h e).1 (TSetOps.AddNew s h e).2
                              = Some (k0, e.2) /\ Matches k0 e.1 = true).
  { rewrite FindIdByHash_AddNew by exact W.
    rewrite decide_True by reflexivity. rewrite Matches_refl.
    split; [reflexivity |]. exists e.1.
    rewrite Get_AddNew, decide_True by (exact W || reflexivity).
    split; [now destruct e | apply Matches_refl]. }
  unfold TSetOps.EmplaceByHash. destruct bAllowDuplicateKeys; [exact Hnew |].
  destruct (TSetOps.FindIdByHash s h e.1) as [Id |] eqn:Hf; [| exact Hnew].
  simpl. rewrite FindIdByHash_ReplaceValue. split; [exact Hf |].
  apply FindIdByHash_Some in Hf as (_ & e0 & G0 & Hm).
  exists e0.1. rewrite Get_ReplaceValue, decide_True, G0 by reflexivity.
  split; [reflexivity | exact Hm].
Qed.

Lemma Matches_congr (a b Key : KeyType) :
  Matches a b = true -> forall k, Matches k a = Matches k b.
Proof.
  intros Hab k. destruct (Matches k a) eqn:H1, (Matches k b) eqn:H2; try reflexivity.
  - rewrite (Matches_trans k a b H1 Hab) in H2. discriminate.
  - rewrite (Matches_trans k b a H2 (Matches_sym _ _ Hab)) in H1. discriminate.
Qed.

(** What a key maps to after an insertion. *)
Lemma FindValue_Emplace s e Key :
  TSetOps.WF s ->
  TSetOps.FindValue (TSetOps.Emplace s e).1 Key =
    if Matches e.1 Key then Some e.2 else TSetOps.FindValue s Key.
Proof.
  intros W. unfold TSetOps.FindValue, TSetOps.FindId.
  assert (Hnew :
    match TSetOps.FindIdByHash (TSetOps.AddNew s (GetKeyHash e.1) e).1 (GetKeyHash Key) Key with
    | Some Id => snd <$> TSetOps.Get (TSetOps.AddNew s (GetKeyHash e.1) e).1 Id
    | None => None
    end =
    if Matches e.1 Key then Some e.2
    else match TSetOps.FindIdByHash s (GetKeyHash Key) Key with
         | Some Id => snd <$> TSetOps.Get s Id
         | None => None
         end).
  { rewrite FindIdByHash_AddNew by exact W.
    assert (Hold : match TSetOps.FindIdByHash s (GetKeyHash Key) Key with
                   | Some Id => snd <$> TSetOps.Get (TSetOps.AddNew s (GetKeyHash e.1) e).1 Id
                   | None => None
                   end =
                   match TSetOps.FindIdByHash s (GetKeyHash Key) Key with
                   | Some Id => snd <$> TSetOps.Get s Id
                   | None => None
                   end).
    { destruct (TSetOps.FindIdByHash s (GetKeyHash Key) Key) as [j |] eqn:Hf; [| reflexivity].
      apply FindIdByHash_Some in Hf as (_ & ej & Gj & _).
      rewrite Get_AddNew by exact W. case_decide as Hd; [| reflexivity].
      subst j. rewrite AddNew_id_fresh in Gj by exact W. discriminate. }
    destruct (Matches e.1 Key) eqn:Hm.
    - rewrite decide_True by (now apply Matches_hash).
      rewrite Get_AddNew, decide_True by (exact W || reflexivity). reflexivity.
    - case_decide; exact Hold. }
  unfold TSetOps.Emplace, TSetOps.EmplaceByHash.
  destruct bAllowDuplicateKeys; [exact Hnew |].
  destruct (TSetOps.FindIdByHash s (GetKeyHash e.1) e.1) as [Id |] eqn:Hf; [| exact Hnew].
  simpl. rewrite FindIdByHash_ReplaceValue.
  pose proof Hf as Hf'. apply FindIdByHash_Some in Hf' as (_ & e0 & G0 & Hm0).
  destruct (Matches e.1 Key) eqn:Hm.
  - assert (Hsame : TSetOps.FindIdByHash s (GetKeyHash Key) Key = Some Id).
    { rewrite <- Hf. rewrite <- (Matches_hash _ _ Hm).
      unfold TSetOps.FindIdByHash. apply find_ext. intros j _.
      unfold TSetOps.MatchesAt. destruct (TSetOps.Get s j) as [[kj vj] |]; [| reflexivity].
      symmetry. now apply Matches_congr. }
    rewrite Hsame, Get_ReplaceValue, decide_True, G0 by reflexivity. reflexivity.
  - destruct (TSetOps.FindIdByHash s (GetKeyHash Key) Key) as [j |] eqn:Hfj; [| reflexivity].
    rewrite Get_ReplaceValue. case_decide as Hd; [| reflexivity]. exfalso. subst j.
    apply FindIdByHash_Some in Hfj as (_ & ej & Gj & Hmj).
    assert (ej = e0) by congruence. subst ej.
    rewrite (Matches_trans _ _ _ (Matches_sym _ _ Hm0) Hmj) in Hm. discriminate.
Qed.

End TSetFacts.


(** * The live elements of a slot array *)

Section LiveSlots.
Context {E : Type}.
Implicit Types (l : list (option E)) (i j : nat).

Local Abbreviation live := (omap (fun x : option E => x)).

Lemma live_append l x : live (l ++ [Some x]) = live l ++ [x].
Proof. now rewrite omap_app. Qed.

Lemma length_live_insert_Some l i x :
  l !! i = Some None ->
  length (live (<[i := Some x]> l)) = S (length (live l)).
Proof.
  revert i. induction l as [| a l IH]; intros [| i] H; simpl in *; try discriminate.
  - injection H as ->. reflexivity.
  - specialize (IH i H). destruct a; simpl; [f_equal |]; exact IH.
Qed.

Lemma length_live_insert_None l i x :
  l !! i = Some (Some x) ->
  S (length (live (<[i := None]> l))) = length (live l).
Proof.
  revert i. induction l as [| a l IH]; intros [| i] H; simpl in *; try discriminate.
  - injection H as ->. reflexivity.
  - specialize (IH i H). destruct a; simpl; [f_equal |]; exact IH.
Qed.

Lemma length_live_alter l i (f : E -> E) :
  length (live (alter (fmap f) i l)) = length (live l).
Proof.
  revert i. induction l as [| a l IH]; intros [| i]; simpl; try reflexivity.
  - destruct a; reflexivity.
  - specialize (IH i). destruct a; simpl; [f_equal |]; exact IH.
Qed.

Lemma elem_of_live l x : x ∈ live l <-> exists i, l !! i = Some (Some x).
Proof.
  rewrite list_elem_of_omap. split.
  - intros (o & Ho & ->). now apply list_elem_of_lookup in Ho.
  - intros (i & Hi). exists (Some x). split; [| reflexivity].
    eapply list_elem_of_lookup_2; eauto.
Qed.

Context (P : E -> Prop) {Pdec : forall x, Decision (P x)}.

Lemma live_filter_none l :
  (forall i x, l !! i = Some (Some x) -> ~ P x) -> filter P (live l) = [].
Proof.
  induction l as [| a l IH]; intros H; [reflexivity |].
  destruct a as [x |]; simpl.
  - rewrite filter_cons_False by (apply (H 0%nat); reflexivity).
    apply IH. intros i y Hi. apply (H (S i)). exact Hi.
  - apply IH. intros i y Hi. apply (H (S i)). exact Hi.
Qed.

Lemma live_filter_unique l i x :
  l !! i = Some (Some x) -> P x ->
  (forall j y, l !! j = Some (Some y) -> P y -> j = i) ->
  filter P (live l) = [x].
Proof.
  revert i. induction l as [| a l IH]; intros i Hi Px Hu; [discriminate |].
  destruct i as [| i]; simpl in Hi.
  - injection Hi as ->. simpl. rewrite filter_cons_True by exact Px.
    f_equal. apply live_filter_none. intros j y Hj Py.
    specialize (Hu (S j) y Hj Py). discriminate.
  - assert (Hl : filter P (live l) = [x]).
    { apply (IH i Hi Px). intros j y Hj Py.
      specialize (Hu (S j) y Hj Py). now injection Hu. }
    destruct a as [y |]; simpl; [| exact Hl].
    rewrite filter_cons_False; [exact Hl |].
    intros Py. specialize (Hu 0%nat y eq_refl Py). discriminate.
Qed.

End LiveSlots.

Section TSetCount.
Context {KeyType ValueType : Type} {KF : KeyFuncs KeyType}.
Implicit Types (s : TSet KeyType ValueType) (e : KeyType * ValueType).

Lemma Get_Some_iff s i e : TSetOps.Get s i = Some e <-> Elements s !! i = Some (Some e).
Proof.
  unfold TSetOps.Get. destruct (Elements s !! i) as [[x |] |]; split; congruence.
Qed.

Lemma elem_of_LivePairs s e : e ∈ TSetOps.LivePairs s <-> exists i, TSetOps.Get s i = Some e.
Proof.
  unfold TSetOps.LivePairs. rewrite elem_of_live.
  split; intros [i Hi]; exists i; now apply Get_Some_iff.
Qed.

Lemma Num_nonneg s : 0 <= TSetOps.Num s.
Proof. unfold TSetOps.Num. lia. Qed.

Lemma Num_AddNew s h e :
  TSetOps.WF s -> TSetOps.Num (TSetOps.AddNew s h e).1 = TSetOps.Num s + 1.
Proof.
  intros W. unfold TSetOps.Num, TSetOps.LivePairs, TSetOps.AddNew.
  destruct (FreeList s) as [| i fl] eqn:F; simpl.
  - rewrite live_append, length_app. simpl. lia.
  - rewrite length_live_insert_Some; [lia |].
    apply (TSetOps.wf_free s W). rewrite F. left.
Qed.

Lemma Num_ReplaceValue s Id v :
  TSetOps.Num (TSetOps.ReplaceValue s Id v) = TSetOps.Num s.
Proof.
  unfold TSetOps.Num, TSetOps.LivePairs, TSetOps.ReplaceValue. simpl.
  now rewrite length_live_alter.
Qed.

Lemma Num_RemoveId s h Id :
  is_Some (TSetOps.Get s Id) ->
  TSetOps.Num (TSetOps.RemoveId s h Id) = TSetOps.Num s - 1.
Proof.
  intros [e He]. apply Get_Some_iff in He.
  unfold TSetOps.Num, TSetOps.LivePairs, TSetOps.RemoveId. simpl.
  rewrite <- (length_live_insert_None _ _ _ He). lia.
Qed.

Lemma Num_EmplaceByHash s h e :
  TSetOps.WF s ->
  TSetOps.Num (TSetOps.EmplaceByHash s h e).1 =
    if bAllowDuplicateKeys then TSetOps.Num s + 1
    else match TSetOps.FindIdByHash s h e.1 with
         | Some _ => TSetOps.Num s
         | None => TSetOps.Num s + 1
         end.
Proof.
  intros W. unfold TSetOps.EmplaceByHash. destruct bAllowDuplicateKeys.
  - now apply Num_AddNew.
  - destruct (TSetOps.FindIdByHash s h e.1); simpl.
    + apply Num_ReplaceValue.
    + now apply Num_AddNew.
Qed.

Context {KL : KeyFuncsLaws KF}.

(** With every element linked under its own hash, the probe sees every
    element with an equal key, and a single-value set holds at most one. *)

Lemma live_in_own_bucket s i e :
  TSetOps.WF s -> TSetOps.WellHashed s -> TSetOps.Get s i = Some e ->
  i ∈ TSetOps.Bucket s (GetKeyHash e.1).
Proof.
  intros W WH G. destruct (TSetOps.wf_linked s W i) as [h Hh]; [eauto |].
  now rewrite <- (WH h i e Hh G).
Qed.

Lemma FindId_None_iff s Key :
  TSetOps.WF s -> TSetOps.WellHashed s ->
  TSetOps.FindId s Key = None <->
  forall i e, TSetOps.Get s i = Some e -> Matches e.1 Key = false.
Proof.
  intros W WH. unfold TSetOps.FindId, TSetOps.FindIdByHash.
  rewrite find_None_elem. split.
  - intros H i e G. destruct (Matches e.1 Key) eqn:Hm; [| reflexivity].
    pose proof (live_in_own_bucket s i e W WH G) as Hb.
    rewrite (Matches_hash _ _ Hm) in Hb.
    specialize (H i Hb). unfold TSetOps.MatchesAt in H. rewrite G in H.
    destruct e; simpl in *; congruence.
  - intros H i Hi. unfold TSetOps.MatchesAt.
    destruct (TSetOps.Get s i) as [[k v] |] eqn:G; [| reflexivity].
    exact (H i (k, v) G).
Qed.

Lemma live_unique s i j ei ej :
  TSetOps.WF s -> TSetOps.WellHashed s -> bAllowDuplicateKeys = false ->
  TSetOps.Get s i = Some ei -> TSetOps.Get s j = Some ej ->
  Matches ei.1 ej.1 = true -> i = j.
Proof.
  intros W WH Hdup Gi Gj Hm.
  eapply (TSetOps.wf_unique s W Hdup (GetKeyHash ei.1)); eauto.
  - now apply live_in_own_bucket.
  - rewrite (Matches_hash _ _ Hm). now apply live_in_own_bucket.
Qed.

End TSetCount.


(** * Removal *)

Section TSetRemove.
Context {KeyType ValueType : Type} {KF : KeyFuncs KeyType}.
Implicit Types (s : TSet KeyType ValueType) (e : KeyType * ValueType).

Lemma RemoveChain_none Key h chain s :
  (forall j, j ∈ chain -> TSetOps.MatchesAt s Key j = false) ->
  TSetOps.RemoveChain Key h chain s = (s, 0).
Proof.
  induction chain as [| Id rest IH]; intros H; simpl; [reflexivity |].
  rewrite (H Id) by left. apply IH. intros j Hj. apply H. now right.
Qed.

Lemma RemoveChain_single Key h chain s :
  bAllowDuplicateKeys = false ->
  TSetOps.RemoveChain Key h chain s =
    match List.find (TSetOps.MatchesAt s Key) chain with
    | Some Id => (TSetOps.RemoveId s h Id, 1)
    | None => (s, 0)
    end.
Proof.
  intros Hdup. induction chain as [| Id rest IH]; simpl; [reflexivity |].
  destruct (TSetOps.MatchesAt s Key Id); [now rewrite Hdup | exact IH].
Qed.

Lemma MatchesAt_mono s s' Key j :
  (forall e, TSetOps.Get s' j = Some e -> TSetOps.Get s j = Some e) ->
  TSetOps.MatchesAt s Key j = false -> TSetOps.MatchesAt s' Key j = false.
Proof.
  intros Hm. unfold TSetOps.MatchesAt.
  destruct (TSetOps.Get s' j) as [e |] eqn:G; [| reflexivity].
  now rewrite (Hm e eq_refl).
Qed.

Context {KL : KeyFuncsLaws KF}.

(** The walk keeps the invariant, only removes, and its count is the
    drop in the number of elements. *)
Lemma RemoveChain_inv Key h chain s :
  TSetOps.WF s ->
  (forall i, i ∈ chain -> is_Some (TSetOps.Get s i) -> i ∈ TSetOps.Bucket s h) ->
  TSetOps.WF (TSetOps.RemoveChain Key h chain s).1 /\
  (forall j e, TSetOps.Get (TSetOps.RemoveChain Key h chain s).1 j = Some e ->
               TSetOps.Get s j = Some e) /\
  (forall h' j, j ∈ TSetOps.Bucket (TSetOps.RemoveChain Key h chain s).1 h' ->
                j ∈ TSetOps.Bucket s h') /\
  TSetOps.Num (TSetOps.RemoveChain Key h chain s).1 =
    TSetOps.Num s - (TSetOps.RemoveChain Key h chain s).2 /\
  0 <= (TSetOps.RemoveChain Key h chain s).2 /\
  (bAllowDuplicateKeys = true ->
   forall j, j ∈ chain ->
     TSetOps.MatchesAt (TSetOps.RemoveChain Key h chain s).1 Key j = false).
Proof.
  revert s. induction chain as [| Id rest IH]; intros s W Hin.
  { simpl. split; [exact W |]. split; [auto |]. split; [auto |].
    split; [lia |]. split; [lia |]. intros _ j Hj. inversion Hj. }
  simpl. destruct (TSetOps.MatchesAt s Key Id) eqn:Hm.
  - apply MatchesAt_Some in Hm as (e0 & G0 & Hm0).
    assert (HId : Id ∈ TSetOps.Bucket s h) by (apply Hin; [left | eauto]).
    pose proof (WF_RemoveId s h Id W HId) as W1.
    assert (Hmono1 : forall j e, TSetOps.Get (TSetOps.RemoveId s h Id) j = Some e ->
                       TSetOps.Get s j = Some e).
    { intros j e. rewrite Get_RemoveId. case_decide; [discriminate | auto]. }
    assert (Hsub1 : forall h' j, j ∈ TSetOps.Bucket (TSetOps.RemoveId s h Id) h' ->
                       j ∈ TSetOps.Bucket s h').
    { intros h' j. rewrite Bucket_RemoveId. case_decide; [subst | auto].
      intros Hj. now apply list_elem_of_filter in Hj as [_ ?]. }
    assert (Hnum1 : TSetOps.Num (TSetOps.RemoveId s h Id) = TSetOps.Num s - 1)
      by (apply Num_RemoveId; eauto).
    destruct bAllowDuplicateKeys eqn:Hdup.
    + assert (Hin1 : forall i, i ∈ rest ->
                is_Some (TSetOps.Get (TSetOps.RemoveId s h Id) i) ->
                i ∈ TSetOps.Bucket (TSetOps.RemoveId s h Id) h).
      { intros i Hi [e He]. rewrite Get_RemoveId in He.
        case_decide as Hne; [discriminate |].
        rewrite Bucket_RemoveId, decide_True by reflexivity.
        apply list_elem_of_filter. split; [exact Hne |].
        apply Hin; [now right | eauto]. }
      destruct (IH (TSetOps.RemoveId s h Id) W1 Hin1)
        as (W2 & Hmono2 & Hsub2 & Hnum2 & Hpos2 & Hgone2).
      destruct (TSetOps.RemoveChain Key h rest (TSetOps.RemoveId s h Id))
        as [s2 n] eqn:Hr. simpl in *.
      split; [exact W2 |]. split; [eauto |]. split; [eauto |].
      split; [lia |]. split; [lia |].
      intros _ j Hj. apply elem_of_cons in Hj as [-> | Hj]; [| now apply Hgone2].
      unfold TSetOps.MatchesAt.
      destruct (TSetOps.Get s2 Id) as [e |] eqn:G2; [| reflexivity].
      apply Hmono2 in G2. rewrite Get_RemoveId, decide_True in G2 by reflexivity.
      discriminate.
    + simpl. split; [exact W1 |]. split; [exact Hmono1 |]. split; [exact Hsub1 |].
      split; [lia |]. split; [lia |]. discriminate.
  - assert (Hin' : forall i, i ∈ rest -> is_Some (TSetOps.Get s i) ->
                     i ∈ TSetOps.Bucket s h)
      by (intros i Hi; apply Hin; now right).
    destruct (IH s W Hin') as (W2 & Hmono2 & Hsub2 & Hnum2 & Hpos2 & Hgone2).
    split; [exact W2 |]. split; [exact Hmono2 |]. split; [exact Hsub2 |].
    split; [exact Hnum2 |]. split; [exact Hpos2 |].
    intros Hdup j Hj. apply elem_of_cons in Hj as [-> | Hj]; [| now apply Hgone2].
    eapply MatchesAt_mono; [| exact Hm]. intros e. apply Hmono2.
Qed.

Lemma RemoveByHash_inv s h Key :
  TSetOps.WF s ->
  TSetOps.WF (TSetOps.RemoveByHash s h Key).1 /\
  (forall j e, TSetOps.Get (TSetOps.RemoveByHash s h Key).1 j = Some e ->
               TSetOps.Get s j = Some e) /\
  (forall h' j, j ∈ TSetOps.Bucket (TSetOps.RemoveByHash s h Key).1 h' ->
                j ∈ TSetOps.Bucket s h') /\
  TSetOps.Num (TSetOps.RemoveByHash s h Key).1 =
    TSetOps.Num s - (TSetOps.RemoveByHash s h Key).2 /\
  0 <= (TSetOps.RemoveByHash s h Key).2.
Proof.
  intros W. unfold TSetOps.RemoveByHash.
  destruct (RemoveChain_inv Key h (TSetOps.Bucket s h) s W) as (H1 & H2 & H3 & H4 & H5 & _);
    [intros i Hi _; exact Hi | auto].
Qed.


(** After removal the probe under the same hash finds nothing. *)
Lemma FindIdByHash_RemoveByHash s h Key :
  TSetOps.WF s ->
  TSetOps.FindIdByHash (TSetOps.RemoveByHash s h Key).1 h Key = None.
Proof.
  intros W. unfold TSetOps.FindIdByHash. apply find_None_elem.
  destruct bAllowDuplicateKeys eqn:Hdup.
  - unfold TSetOps.RemoveByHash.
    destruct (RemoveChain_inv Key h (TSetOps.Bucket s h) s W)
      as (_ & _ & Hsub & _ & _ & Hgone); [intros i Hi _; exact Hi |].
    intros j Hj. apply Hgone; [exact Hdup |]. now apply Hsub in Hj.
  - unfold TSetOps.RemoveByHash. rewrite RemoveChain_single by exact Hdup.
    destruct (List.find (TSetOps.MatchesAt s Key) (TSetOps.Bucket s h)) as [Id |] eqn:Hf;
      simpl.
    + apply find_Some_elem in Hf as [HId Hm].
      apply MatchesAt_Some in Hm as (e0 & G0 & Hm0).
      intros j Hj. rewrite Bucket_RemoveId, decide_True in Hj by reflexivity.
      apply list_elem_of_filter in Hj as [Hne Hj].
      unfold TSetOps.MatchesAt. rewrite Get_RemoveId, decide_False by exact Hne.
      destruct (TSetOps.Get s j) as [[kj vj] |] eqn:Gj; [| reflexivity].
      destruct (Matches kj Key) eqn:Hmj; [| reflexivity].
      exfalso. apply Hne. symmetry.
      eapply (TSetOps.wf_unique s W Hdup h Id j); eauto.
      simpl. eapply Matches_trans; [exact Hm0 | now apply Matches_sym].
    + now apply find_None_elem.
Qed.

End TSetRemove.


(** * Properties of the map *)

Section TMapBaseFacts.
Context {KeyType ValueType : Type} {KF : KeyFuncs KeyType} {KL : KeyFuncsLaws KF}.
Implicit Types (m : TMapBase KeyType ValueType) (s : TSet KeyType ValueType).
Implicit Types (e : KeyType * ValueType) (ops : list (KeyType * ValueType)).

Lemma Pairs_Add m k v : Pairs (TMapBaseOps.Add m k v).1 = (TSetOps.Emplace (Pairs m) (k, v)).1.
Proof.
  unfold TMapBaseOps.Add, TMapBaseOps.Emplace.
  now destruct (TSetOps.Emplace (Pairs m) (k, v)).
Qed.

Lemma ref_Add m k v : (TMapBaseOps.Add m k v).2 = (TSetOps.Emplace (Pairs m) (k, v)).2.
Proof.
  unfold TMapBaseOps.Add, TMapBaseOps.Emplace.
  now destruct (TSetOps.Emplace (Pairs m) (k, v)).
Qed.

Lemma Pairs_Remove m k : Pairs (TMapBaseOps.Remove m k).1 = (TSetOps.Remove (Pairs m) k).1.
Proof.
  unfold TMapBaseOps.Remove. now destruct (TSetOps.Remove (Pairs m) k).
Qed.

Lemma count_Remove m k : (TMapBaseOps.Remove m k).2 = (TSetOps.Remove (Pairs m) k).2.
Proof.
  unfold TMapBaseOps.Remove. now destruct (TSetOps.Remove (Pairs m) k).
Qed.

Lemma Find_eq m k : TMapBaseOps.Find m k = TSetOps.FindId (Pairs m) k.
Proof.
  unfold TMapBaseOps.Find, TSetOps.Find. now destruct (TSetOps.FindId (Pairs m) k).
Qed.

Lemma FindByHash_eq m h k :
  TMapBaseOps.FindByHash m h k = TSetOps.FindIdByHash (Pairs m) h k.
Proof.
  unfold TMapBaseOps.FindByHash, TSetOps.FindByHash.
  now destruct (TSetOps.FindIdByHash (Pairs m) h k).
Qed.

(** The value a lookup reaches, in terms of [Find] and the pointer read. *)
Lemma FindValue_Some_iff m k v :
  TSetOps.WF (Pairs m) ->
  TSetOps.FindValue (Pairs m) k = Some v <->
  exists p, TMapBaseOps.Find m k = Some p /\ TMapBaseOps.ValueAt m p = Some v.
Proof.
  intros W. rewrite Find_eq. unfold TSetOps.FindValue, TMapBaseOps.ValueAt.
  destruct (TSetOps.FindId (Pairs m) k) as [p |]; split.
  - intros H. eauto.
  - intros (p' & [= <-] & H). exact H.
  - discriminate.
  - intros (p' & H & _). discriminate.
Qed.

Lemma FindValue_None_iff m k :
  TSetOps.WF (Pairs m) ->
  TSetOps.FindValue (Pairs m) k = None <-> TMapBaseOps.Find m k = None.
Proof.
  intros W. rewrite Find_eq. unfold TSetOps.FindValue.
  destruct (TSetOps.FindId (Pairs m) k) as [p |] eqn:Hf; split; try congruence.
  apply FindIdByHash_Some in Hf as (_ & e & G & _). rewrite G. discriminate.
Qed.

Lemma WF_EmptyMap : TSetOps.WF (Pairs (TMapBaseOps.EmptyMap (KeyType := KeyType) (ValueType := ValueType))).
Proof. apply WF_Empty. Qed.

Lemma WF_Add m k v : TSetOps.WF (Pairs m) -> TSetOps.WF (Pairs (TMapBaseOps.Add m k v).1).
Proof. intros W. rewrite Pairs_Add. now apply WF_Emplace. Qed.

Lemma WellHashed_Add m k v :
  TSetOps.WF (Pairs m) -> TSetOps.WellHashed (Pairs m) ->
  TSetOps.WellHashed (Pairs (TMapBaseOps.Add m k v).1).
Proof. intros W WH. rewrite Pairs_Add. now apply WellHashed_Emplace. Qed.

Lemma AddAll_inv ops m :
  TSetOps.WF (Pairs m) -> TSetOps.WellHashed (Pairs m) ->
  TSetOps.WF (Pairs (AddAll ops m)) /\ TSetOps.WellHashed (Pairs (AddAll ops m)).
Proof.
  revert m. induction ops as [| kv ops IH]; intros m W WH; [auto |].
  simpl. apply IH; [now apply WF_Add | now apply WellHashed_Add].
Qed.

Lemma LastAdded_cons kv ops Key :
  LastAdded (kv :: ops) Key =
    match LastAdded ops Key with
    | Some v => Some v
    | None => if Matches kv.1 Key then Some kv.2 else None
    end.
Proof.
  unfold LastAdded. rewrite filter_cons.
  destruct (decide (Matches kv.1 Key = true)) as [Hm | Hm].
  - rewrite Hm, last_cons.
    now destruct (last (filter (fun kv0 => Matches kv0.1 Key = true) ops)).
  - apply not_true_is_false in Hm. rewrite Hm.
    now destruct (last (filter (fun kv0 => Matches kv0.1 Key = true) ops)).
Qed.

(** A run of [Add] calls maps each key to the value of its latest [Add]. *)
Lemma FindValue_AddAll ops m Key :
  TSetOps.WF (Pairs m) ->
  TSetOps.FindValue (Pairs (AddAll ops m)) Key =
    match LastAdded ops Key with
    | Some v => Some v
    | None => TSetOps.FindValue (Pairs m) Key
    end.
Proof.
  revert m. induction ops as [| kv ops IH]; intros m W; [reflexivity |].
  simpl. rewrite IH by now apply WF_Add.
  rewrite LastAdded_cons, Pairs_Add, FindValue_Emplace by exact W. simpl.
  destruct (LastAdded ops Key); [reflexivity |].
  now destruct (Matches kv.1 Key).
Qed.

(** In a single-value map whose elements sit under their own hashes, the
    values stored under a key are the one value the lookup reaches. *)
Lemma StoredValues_FindValue m Key :
  TSetOps.WF (Pairs m) -> TSetOps.WellHashed (Pairs m) -> bAllowDuplicateKeys = false ->
  StoredValues m Key =
    match TSetOps.FindValue (Pairs m) Key with
    | Some v => [v]
    | None => []
    end.
Proof.
  intros W WH Hdup. unfold StoredValues, TSetOps.FindValue, TSetOps.LivePairs.
  destruct (TSetOps.FindId (Pairs m) Key) as [i |] eqn:Hf.
  - pose proof Hf as Hf'. apply FindIdByHash_Some in Hf' as (_ & e & G & Hm).
    rewrite G. simpl.
    rewrite (live_filter_unique _ (Elements (Pairs m)) i e); [reflexivity | | exact Hm |].
    + now apply Get_Some_iff.
    + intros j y Hj Hy. apply Get_Some_iff in Hj.
      eapply (live_unique (Pairs m) j i y e); eauto.
      eapply Matches_trans; [exact Hy | now apply Matches_sym].
  - rewrite live_filter_none; [reflexivity |].
    intros j y Hj Hy. apply Get_Some_iff in Hj.
    rewrite (proj1 (FindId_None_iff (Pairs m) Key W WH) Hf j y Hj) in Hy. discriminate.
Qed.

End TMapBaseFacts.


(** * The key strategies of the examples are lawful *)

Lemma StringKeyFuncs_laws : KeyFuncsLaws StringKeyFuncs.
Proof.
  constructor; simpl.
  - intros a. apply String.eqb_refl.
  - intros a b H. apply String.eqb_eq in H. subst. apply String.eqb_refl.
  - intros a b c H1 H2. apply String.eqb_eq in H1, H2. subst. apply String.eqb_refl.
  - intros a b H. apply String.eqb_eq in H. now subst.
Qed.

Lemma NoCaseKeyFuncs_laws : KeyFuncsLaws NoCaseKeyFuncs.
Proof.
  constructor; simpl.
  - intros a. apply String.eqb_refl.
  - intros a b H. apply String.eqb_eq in H. rewrite H. apply String.eqb_refl.
  - intros a b c H1 H2. apply String.eqb_eq in H1, H2. rewrite H1, H2.
    apply String.eqb_refl.
  - intros a b H. apply String.eqb_eq in H. now rewrite H.
Qed.

Lemma IntKeyFuncs_laws d : KeyFuncsLaws (IntKeyFuncs d).
Proof.
  constructor; simpl.
  - intros a. apply Z.eqb_refl.
  - intros a b H. apply Z.eqb_eq in H. subst. apply Z.eqb_refl.
  - intros a b c H1 H2. apply Z.eqb_eq in H1, H2. subst. apply Z.eqb_refl.
  - intros a b H. apply Z.eqb_eq in H. now subst.
Qed.

(** * Insertion, lookup and removal through the map *)

(** C1. In a single-value map built from the empty map by any run of [Add]
    calls, a key that some call of the run was given has exactly one
    stored value, the value argument of the most recent such call, and
    [Find] reaches it; a key no call was given is absent.  Inserting
    ("a",1), ("b",2), ("a",3) yields two pairs, "a" mapped to 3 and "b"
    to 2. *)
Theorem Add_sequence_latest_value :
  (forall (KeyType ValueType : Type) (KF : KeyFuncs KeyType),
     KeyFuncsLaws KF -> bAllowDuplicateKeys = false ->
     forall (ops : list (KeyType * ValueType)) (Key : KeyType),
       let m := AddAll ops TMapBaseOps.EmptyMap in
       match LastAdded ops Key with
       | Some v =>
           StoredValues m Key = [v] /\
           exists p, TMapBaseOps.Find m Key = Some p /\ TMapBaseOps.ValueAt m p = Some v
       | None => StoredValues m Key = [] /\ TMapBaseOps.Find m Key = None
       end) /\
  (let m := AddAll (KF := StringKeyFuncs)
              [("a"%string, 1); ("b"%string, 2); ("a"%string, 3)] TMapBaseOps.EmptyMap in
   TMapBaseOps.Num m = 2 /\
   TSetOps.LivePairs (Pairs m) = [("a"%string, 3); ("b"%string, 2)] /\
   StoredValues (KF := StringKeyFuncs) m "a" = [3] /\
   StoredValues (KF := StringKeyFuncs) m "b" = [2]).
Proof.
  split; [| vm_compute; repeat split].
  intros KeyType ValueType KF KL Hdup ops Key m.
  destruct (AddAll_inv ops TMapBaseOps.EmptyMap WF_EmptyMap WellHashed_Empty) as [W WH].
  fold m in W, WH.
  pose proof (FindValue_AddAll ops TMapBaseOps.EmptyMap Key WF_EmptyMap) as HF.
  fold m in HF.
  pose proof (StoredValues_FindValue m Key W WH Hdup) as HS.
  destruct (LastAdded ops Key) as [v |].
  - rewrite HF in HS. split; [exact HS |]. now apply FindValue_Some_iff.
  - change (TSetOps.FindValue (Pairs TMapBaseOps.EmptyMap) Key) with (@None ValueType) in HF.
    rewrite HF in HS. split; [exact HS |]. now apply FindValue_None_iff.
Qed.

Lemma Add_sequence_latest_value_witness :
  KeyFuncsLaws StringKeyFuncs /\
  bAllowDuplicateKeys (KeyFuncs := StringKeyFuncs) = false /\
  StoredValues (KF := StringKeyFuncs)
    (AddAll (KF := StringKeyFuncs)
       [("a"%string, 1); ("b"%string, 2); ("a"%string, 3)] TMapBaseOps.EmptyMap)
    "a" = [3].
Proof.
  split; [exact StringKeyFuncs_laws |]. split; [reflexivity |].
  pose proof (proj1 Add_sequence_latest_value string Z StringKeyFuncs
                StringKeyFuncs_laws eq_refl
                [("a"%string, 1); ("b"%string, 2); ("a"%string, 3)] "a"%string) as H.
  cbv zeta in H.
  change (LastAdded (KF := StringKeyFuncs)
            [("a"%string, 1); ("b"%string, 2); ("a"%string, 3)] "a") with (Some 3) in H.
  exact (proj1 H).
Defined.

(** C2. On every map state, [Find(k)] right after [Add(k, v)] returns the
    reference [Add] returned, a pointer to a stored value equal to [v];
    and [Find(k)] right after [Remove(k)] returns null. *)
Theorem Find_after_Add_and_after_Remove :
  forall (KeyType ValueType : Type) (KF : KeyFuncs KeyType),
    KeyFuncsLaws KF ->
    forall (m : TMapBase KeyType ValueType) (k : KeyType) (v : ValueType),
      TSetOps.WF (Pairs m) ->
      (TMapBaseOps.Find (TMapBaseOps.Add m k v).1 k = Some (TMapBaseOps.Add m k v).2 /\
       TMapBaseOps.ValueAt (TMapBaseOps.Add m k v).1 (TMapBaseOps.Add m k v).2 = Some v) /\
      TMapBaseOps.Find (TMapBaseOps.Remove m k).1 k = None.
Proof.
  intros KeyType ValueType KF KL m k v W. split.
  - rewrite Find_eq. unfold TMapBaseOps.ValueAt. rewrite Pairs_Add, ref_Add.
    destruct (FindIdByHash_EmplaceByHash (Pairs m) (GetKeyHash k) (k, v) W)
      as (Hf & k0 & G & _).
    split; [exact Hf |]. unfold TSetOps.Emplace. simpl. rewrite G. reflexivity.
  - rewrite Find_eq, Pairs_Remove. now apply FindIdByHash_RemoveByHash.
Qed.

Lemma Find_after_Add_and_after_Remove_witness :
  KeyFuncsLaws StringKeyFuncs /\
  TSetOps.WF (KF := StringKeyFuncs)
    (Pairs (TMapBaseOps.EmptyMap (KeyType := string) (ValueType := Z))) /\
  TMapBaseOps.Find (KF := StringKeyFuncs)
    (TMapBaseOps.Add (KF := StringKeyFuncs) TMapBaseOps.EmptyMap "a"%string 1).1 "a"
  = Some 0%nat.
Proof.
  split; [exact StringKeyFuncs_laws |]. split; [exact WF_EmptyMap |].
  exact (proj1 (proj1 (Find_after_Add_and_after_Remove string Z StringKeyFuncs
                         StringKeyFuncs_laws TMapBaseOps.EmptyMap "a"%string 1
                         WF_EmptyMap))).
Defined.

(** C5. For every map state and key, [FindByHash] given the key's own
    hash returns what [Find] returns: both null, or both the pointer to
    the same stored value.  In every state whose elements are linked
    under their own keys' hashes, as [Add], [Remove] and [FindOrAdd]
    leave them, that common result is null exactly when no stored key
    equals the key, and otherwise it points to a stored pair whose key
    equals the key, the only such pair in a single-value map. *)
Theorem FindByHash_own_hash_is_Find :
  forall (KeyType ValueType : Type) (KF : KeyFuncs KeyType)
         (m : TMapBase KeyType ValueType) (k : KeyType),
    TMapBaseOps.FindByHash m (GetKeyHash k) k = TMapBaseOps.Find m k /\
    TMapBaseOps.FindByHash m (TMapBaseOps.HashKey k) k = TMapBaseOps.Find m k /\
    (KeyFuncsLaws KF -> TSetOps.WF (Pairs m) -> TSetOps.WellHashed (Pairs m) ->
     (TMapBaseOps.FindByHash m (TMapBaseOps.HashKey k) k = None <->
      forall e, e ∈ TSetOps.LivePairs (Pairs m) -> Matches e.1 k = false) /\
     (forall p, TMapBaseOps.FindByHash m (TMapBaseOps.HashKey k) k = Some p ->
        TMapBaseOps.Find m k = Some p /\
        (exists e, TSetOps.Get (Pairs m) p = Some e /\ Matches e.1 k = true /\
                   TMapBaseOps.ValueAt m p = Some e.2) /\
        (bAllowDuplicateKeys = false ->
         forall i e, TSetOps.Get (Pairs m) i = Some e -> Matches e.1 k = true -> i = p))).
Proof.
  intros KeyType ValueType KF m k. split; [reflexivity |]. split; [reflexivity |].
  intros KL W WH. rewrite FindByHash_eq. unfold TMapBaseOps.HashKey.
  change (TSetOps.FindIdByHash (Pairs m) (GetKeyHash k) k)
    with (TSetOps.FindId (Pairs m) k).
  split.
  - rewrite (FindId_None_iff (Pairs m) k W WH). split.
    + intros H e He. apply elem_of_LivePairs in He as (i & G). eauto.
    + intros H i e G. apply H, elem_of_LivePairs. eauto.
  - intros p Hf. split; [rewrite Find_eq; exact Hf |].
    apply FindIdByHash_Some in Hf as (_ & e & G & Hm). split.
    + exists e. unfold TMapBaseOps.ValueAt. rewrite G. auto.
    + intros D i e' G' Hm'.
      apply (live_unique (Pairs m) i p e' e W WH D G' G).
      apply (Matches_trans _ k _ Hm'). now apply Matches_sym.
Qed.

Lemma FindByHash_own_hash_is_Find_witness :
  KeyFuncsLaws StringKeyFuncs /\
  TSetOps.WF (KF := StringKeyFuncs)
    (Pairs (AddAll (KF := StringKeyFuncs) [("a"%string, 1); ("b"%string, 2)]
              TMapBaseOps.EmptyMap)) /\
  TSetOps.WellHashed (KF := StringKeyFuncs)
    (Pairs (AddAll (KF := StringKeyFuncs) [("a"%string, 1); ("b"%string, 2)]
              TMapBaseOps.EmptyMap)) /\
  TMapBaseOps.FindByHash (KF := StringKeyFuncs)
    (AddAll (KF := StringKeyFuncs) [("a"%string, 1); ("b"%string, 2)]
       TMapBaseOps.EmptyMap)
    (TMapBaseOps.HashKey (KF := StringKeyFuncs) "b"%string) "b"%string = Some 1%nat /\
  TMapBaseOps.Find (KF := StringKeyFuncs)
    (AddAll (KF := StringKeyFuncs) [("a"%string, 1); ("b"%string, 2)]
       TMapBaseOps.EmptyMap) "b"%string = Some 1%nat.
Proof.
  destruct (AddAll_inv (KL := StringKeyFuncs_laws)
              [("a"%string, 1); ("b"%string, 2)] TMapBaseOps.EmptyMap
              WF_EmptyMap WellHashed_Empty) as [W WH].
  split; [exact StringKeyFuncs_laws |]. split; [exact W |]. split; [exact WH |].
  split; [reflexivity |].
  exact (proj1 (proj2 (proj2 (proj2 (FindByHash_own_hash_is_Find string Z StringKeyFuncs
                                (AddAll (KF := StringKeyFuncs)
                                   [("a"%string, 1); ("b"%string, 2)]
                                   TMapBaseOps.EmptyMap) "b"%string))
                         StringKeyFuncs_laws W WH) 1%nat eq_refl)).
Defined.

(** C6. The second of two consecutive [FindOrAdd(k, d)] calls returns the
    reference the first returned, to the same stored value, and leaves
    the map, hence [Num()], as the first call left it. *)
Theorem FindOrAdd_twice :
  forall (KeyType ValueType : Type) (KF : KeyFuncs KeyType),
    KeyFuncsLaws KF ->
    forall (m : TMapBase KeyType ValueType) (k : KeyType) (d : ValueType),
      TSetOps.WF (Pairs m) ->
      let r1 := TMapBaseOps.FindOrAdd m k d in
      let r2 := TMapBaseOps.FindOrAdd r1.1 k d in
      r2.2 = r1.2 /\
      r2.1 = r1.1 /\
      TMapBaseOps.Num r2.1 = TMapBaseOps.Num r1.1 /\
      is_Some (TMapBaseOps.ValueAt r1.1 r1.2) /\
      TMapBaseOps.ValueAt r2.1 r2.2 = TMapBaseOps.ValueAt r1.1 r1.2.
Proof.
  intros KeyType ValueType KF KL m k d W r1 r2.
  assert (Hfound : TSetOps.FindByHash (Pairs r1.1) (TMapBaseOps.HashKey k) k = Some r1.2 /\
                   is_Some (TMapBaseOps.ValueAt r1.1 r1.2)).
  { subst r1. unfold TMapBaseOps.FindOrAdd, TMapBaseOps.FindOrAddImpl.
    destruct (TSetOps.FindByHash (Pairs m) (TMapBaseOps.HashKey k) k) as [p |] eqn:Hf.
    - simpl. split; [exact Hf |].
      apply FindIdByHash_Some in Hf as (_ & e & G & _).
      unfold TMapBaseOps.ValueAt. rewrite G. eauto.
    - unfold TMapBaseOps.AddByHash, TMapBaseOps.EmplaceByHash, TMapBaseOps.ValueAt.
      destruct (FindIdByHash_EmplaceByHash (Pairs m) (TMapBaseOps.HashKey k) (k, d) W)
        as (Hf' & k0 & G & _).
      destruct (TSetOps.EmplaceByHash (Pairs m) (TMapBaseOps.HashKey k) (k, d))
        as [P Id]. simpl in *.
      split; [exact Hf' |]. rewrite G. eauto. }
  destruct Hfound as [Hf Hv].
  assert (Hr2 : r2 = (r1.1, r1.2)).
  { subst r2. unfold TMapBaseOps.FindOrAdd at 1, TMapBaseOps.FindOrAddImpl.
    now rewrite Hf. }
  rewrite Hr2. simpl. repeat split; try reflexivity. exact Hv.
Qed.

Lemma FindOrAdd_twice_witness :
  KeyFuncsLaws (IntKeyFuncs true) /\
  TSetOps.WF (KF := IntKeyFuncs true)
    (Pairs (TMapBaseOps.EmptyMap (KeyType := Z) (ValueType := Z))) /\
  (TMapBaseOps.FindOrAdd (KF := IntKeyFuncs true)
     (TMapBaseOps.FindOrAdd (KF := IntKeyFuncs true) TMapBaseOps.EmptyMap 5 7).1 5 7).2
  = (TMapBaseOps.FindOrAdd (KF := IntKeyFuncs true) TMapBaseOps.EmptyMap 5 7).2.
Proof.
  split; [exact (IntKeyFuncs_laws true) |]. split; [exact WF_EmptyMap |].
  exact (proj1 (FindOrAdd_twice Z Z (IntKeyFuncs true) (IntKeyFuncs_laws true)
                  TMapBaseOps.EmptyMap 5 7 WF_EmptyMap)).
Defined.

(** C9. [Remove(k)] returns the number of pairs it removed, the drop in
    [Num()]: 0, with the map unchanged, when no stored key equals [k];
    exactly 1 when a single-value map contains [k]; and
    [Remove("missing")] on the empty map returns 0 and leaves it empty. *)
Theorem Remove_returns_removed_count :
  (forall (KeyType ValueType : Type) (KF : KeyFuncs KeyType),
     KeyFuncsLaws KF ->
     forall (m : TMapBase KeyType ValueType) (k : KeyType),
       TSetOps.WF (Pairs m) ->
       let r := TMapBaseOps.Remove m k in
       TMapBaseOps.Num r.1 = TMapBaseOps.Num m - r.2 /\
       0 <= r.2 /\
       ((forall e, e ∈ TSetOps.LivePairs (Pairs m) -> Matches e.1 k = false) ->
        r = (m, 0)) /\
       (bAllowDuplicateKeys = false -> TMapBaseOps.Contains m k = true -> r.2 = 1) /\
       (bAllowDuplicateKeys = false -> r.2 = 0 \/ r.2 = 1)) /\
  TMapBaseOps.Remove (KF := StringKeyFuncs)
    (TMapBaseOps.EmptyMap (ValueType := Z)) "missing"%string
  = (TMapBaseOps.EmptyMap, 0).
Proof.
  split; [| reflexivity].
  intros KeyType ValueType KF KL m k W r.
  assert (Hr1 : Pairs r.1 = (TSetOps.Remove (Pairs m) k).1) by apply Pairs_Remove.
  assert (Hr2 : r.2 = (TSetOps.Remove (Pairs m) k).2) by apply count_Remove.
  destruct (RemoveByHash_inv (Pairs m) (GetKeyHash k) k W) as (_ & _ & _ & Hnum & Hpos).
  assert (Hsingle : bAllowDuplicateKeys = false ->
            (TSetOps.Remove (Pairs m) k).2 =
              match TSetOps.FindId (Pairs m) k with Some _ => 1 | None => 0 end).
  { intros Hdup. unfold TSetOps.Remove, TSetOps.RemoveByHash.
    rewrite RemoveChain_single by exact Hdup.
    unfold TSetOps.FindId, TSetOps.FindIdByHash.
    now destruct (List.find _ _). }
  split; [unfold TMapBaseOps.Num; rewrite Hr1, Hr2; exact Hnum |].
  split; [rewrite Hr2; exact Hpos |].
  split; [| split].
  - intros Hno. subst r. unfold TMapBaseOps.Remove, TSetOps.Remove, TSetOps.RemoveByHash.
    rewrite RemoveChain_none; [now destruct m |].
    intros j Hj. destruct (TSetOps.MatchesAt (Pairs m) k j) eqn:Hm; [| reflexivity].
    apply MatchesAt_Some in Hm as (e & G & Hm).
    rewrite Hno in Hm; [discriminate |]. apply elem_of_LivePairs. eauto.
  - intros Hdup Hc. rewrite Hr2, (Hsingle Hdup).
    unfold TMapBaseOps.Contains, TSetOps.Contains in Hc.
    now destruct (TSetOps.FindId (Pairs m) k).
  - intros Hdup. rewrite Hr2, (Hsingle Hdup).
    destruct (TSetOps.FindId (Pairs m) k); auto.
Qed.

Lemma Remove_returns_removed_count_witness :
  KeyFuncsLaws StringKeyFuncs /\
  TSetOps.WF (KF := StringKeyFuncs)
    (Pairs (TMapBaseOps.EmptyMap (KeyType := string) (ValueType := Z))) /\
  0 <= (TMapBaseOps.Remove (KF := StringKeyFuncs)
          (TMapBaseOps.EmptyMap (ValueType := Z)) "missing"%string).2.
Proof.
  split; [exact StringKeyFuncs_laws |]. split; [exact WF_EmptyMap |].
  exact (proj1 (proj2 (proj1 Remove_returns_removed_count string Z StringKeyFuncs
                         StringKeyFuncs_laws TMapBaseOps.EmptyMap "missing"%string
                         WF_EmptyMap))).
Defined.


(** * Order-independent comparison *)

Section CompareFacts.
Context {KeyType ValueType : Type} {KF : KeyFuncs KeyType}.
Variable ValueEq : ValueType -> ValueType -> bool.
Implicit Types (m : TMapBase KeyType ValueType).
Implicit Types (e : KeyType * ValueType) (ops : list (KeyType * ValueType)).

Lemma CompareLoop_true_iff Other It :
  (TMapBaseOps.CompareLoop ValueEq Other It).1 = true <->
  forall k v, (k, v) ∈ It ->
    exists p b, TMapBaseOps.Find Other k = Some p /\
                TMapBaseOps.ValueAt Other p = Some b /\ ValueEq b v = true.
Proof.
  induction It as [| [k0 v0] It IH]; simpl.
  - split; [intros _ k v H; inversion H | reflexivity].
  - destruct (TMapBaseOps.Find Other k0) as [p |] eqn:Hf.
    2:{ split; [discriminate |]. intros H.
        destruct (H k0 v0) as (p & b & Hp & _); [left | congruence]. }
    destruct (TMapBaseOps.ValueAt Other p) as [b |] eqn:Hv.
    2:{ split; [discriminate |]. intros H.
        destruct (H k0 v0) as (p' & b & Hp & Hb & _); [left | congruence]. }
    destruct (ValueEq b v0) eqn:He.
    + destruct (TMapBaseOps.CompareLoop ValueEq Other It) as [r cmps]. simpl in *.
      rewrite IH. split.
      * intros H k v Hin. apply elem_of_cons in Hin as [[= -> ->] | Hin]; eauto.
      * intros H k v Hin. apply H. now right.
    + split; [discriminate |]. intros H.
      destruct (H k0 v0) as (p' & b' & Hp & Hb & Hq); [left | congruence].
Qed.

Lemma OrderIndependentCompareEqual_true_iff this Other :
  TMapBaseOps.OrderIndependentCompareEqual ValueEq this Other = true <->
  TMapBaseOps.Num this = TMapBaseOps.Num Other /\
  forall k v, (k, v) ∈ TSetOps.LivePairs (Pairs this) ->
    exists p b, TMapBaseOps.Find Other k = Some p /\
                TMapBaseOps.ValueAt Other p = Some b /\ ValueEq b v = true.
Proof.
  unfold TMapBaseOps.OrderIndependentCompareEqual,
    TMapBaseOps.OrderIndependentCompareEqual_traced.
  destruct (Z.eqb_spec (TMapBaseOps.Num this) (TMapBaseOps.Num Other)) as [E | E]; simpl.
  - rewrite CompareLoop_true_iff. tauto.
  - split; [discriminate | tauto].
Qed.

End CompareFacts.

Section DistinctRuns.
Context {KeyType ValueType : Type} {KF : KeyFuncs KeyType} {KL : KeyFuncsLaws KF}.
Implicit Types (m : TMapBase KeyType ValueType).
Implicit Types (e : KeyType * ValueType) (ops : list (KeyType * ValueType)).

Lemma LastAdded_None ops Key :
  (forall x, x ∈ ops -> Matches x.1 Key = false) -> LastAdded ops Key = None.
Proof.
  induction ops as [| a ops IH]; intros H; [reflexivity |].
  rewrite LastAdded_cons, IH by (intros x Hx; apply H; now right).
  now rewrite (H a) by left.
Qed.

Lemma LastAdded_distinct ops kv :
  DistinctKeys ops -> kv ∈ ops -> LastAdded ops kv.1 = Some kv.2.
Proof.
  induction ops as [| a ops IH]; intros Hd Hin; [inversion Hin |].
  destruct Hd as [Ha Hd]. rewrite LastAdded_cons.
  apply elem_of_cons in Hin as [-> | Hin].
  - rewrite LastAdded_None, Matches_refl; [reflexivity |].
    intros x Hx. destruct (Matches x.1 a.1) eqn:Hm; [| reflexivity].
    apply Matches_sym in Hm. rewrite (Ha x Hx) in Hm. discriminate.
  - now rewrite IH.
Qed.

Lemma DistinctKeys_perm ops1 ops2 :
  ops1 ≡ₚ ops2 -> DistinctKeys ops1 -> DistinctKeys ops2.
Proof.
  induction 1 as [| x l l' Hp IH | x y l | l l' l'' _ IH1 _ IH2]; simpl.
  - trivial.
  - intros [Hx Hd]. split; [| auto].
    intros kv' Hin. apply Hx. now rewrite Hp.
  - intros [Hy [Hx Hd]]. split; [| split; [| exact Hd]].
    + intros kv' Hin. apply elem_of_cons in Hin as [-> | Hin]; [| auto].
      destruct (Matches x.1 y.1) eqn:Hm; [| reflexivity].
      apply Matches_sym in Hm. rewrite Hy in Hm by left. discriminate.
    + intros kv' Hin. apply Hy. now right.
  - auto.
Qed.

(** Inserting pairs whose keys are new and pairwise different adds each
    of them as an element of its own. *)
Lemma AddAll_distinct ops m :
  TSetOps.WF (Pairs m) ->
  (forall e kv, e ∈ TSetOps.LivePairs (Pairs m) -> kv ∈ ops -> Matches e.1 kv.1 = false) ->
  DistinctKeys ops ->
  TMapBaseOps.Num (AddAll ops m) = TMapBaseOps.Num m + Z.of_nat (length ops) /\
  forall e, e ∈ TSetOps.LivePairs (Pairs (AddAll ops m)) <->
            e ∈ TSetOps.LivePairs (Pairs m) \/ e ∈ ops.
Proof.
  revert m. induction ops as [| kv ops IH]; intros m W Hnew Hd.
  { simpl. split; [lia |]. intros e. split; [auto | intros [? | H]; [auto | inversion H]]. }
  destruct Hd as [Hkv Hd]. simpl.
  assert (Hnone : TSetOps.FindIdByHash (Pairs m) (GetKeyHash kv.1) kv.1 = None).
  { apply find_None_elem. intros j _.
    destruct (TSetOps.MatchesAt (Pairs m) kv.1 j) eqn:Hm; [| reflexivity].
    apply MatchesAt_Some in Hm as (e & G & Hm).
    rewrite (Hnew e kv) in Hm; [discriminate | | left].
    apply elem_of_LivePairs. eauto. }
  assert (HP : Pairs (TMapBaseOps.Add m kv.1 kv.2).1 =
               (TSetOps.AddNew (Pairs m) (GetKeyHash kv.1) kv).1).
  { rewrite Pairs_Add. unfold TSetOps.Emplace, TSetOps.EmplaceByHash. simpl.
    rewrite Hnone. destruct kv; simpl. now destruct bAllowDuplicateKeys. }
  assert (Hlive : forall e, e ∈ TSetOps.LivePairs (Pairs (TMapBaseOps.Add m kv.1 kv.2).1) <->
                            e = kv \/ e ∈ TSetOps.LivePairs (Pairs m)).
  { intros e. rewrite HP, !elem_of_LivePairs. split.
    - intros [i Hi]. rewrite Get_AddNew in Hi by exact W.
      case_decide; [left; congruence | right; eauto].
    - intros [-> | [i Hi]].
      + eexists. rewrite Get_AddNew by exact W. now rewrite decide_True.
      + exists i. rewrite Get_AddNew by exact W. case_decide as Hd'; [| exact Hi].
        subst i. rewrite AddNew_id_fresh in Hi by exact W. discriminate. }
  destruct (IH (TMapBaseOps.Add m kv.1 kv.2).1) as [Hn Hl].
  - now apply WF_Add.
  - intros e x He Hx. apply Hlive in He as [-> | He].
    + now apply Hkv.
    + apply Hnew; [exact He | now right].
  - exact Hd.
  - split.
    + rewrite Hn. unfold TMapBaseOps.Num at 1. rewrite HP, Num_AddNew by exact W.
      unfold TMapBaseOps.Num. lia.
    + intros e. rewrite Hl, Hlive, elem_of_cons. tauto.
Qed.

End DistinctRuns.

(** C4 (as amended). [OrderIndependentCompareEqual(other)] returns true
    exactly when the two [Num()] agree and every pair of this map has its
    key mapped in [other] to a value comparing equal.  So two maps built
    by inserting the same pairs, their keys pairwise different, in
    different orders compare equal exactly when every inserted value
    compares equal to itself, as every value does under a reflexive
    [==]; one differing value makes the result false; and on a
    cardinality mismatch the result is false with no value comparison
    made. *)
Theorem OrderIndependentCompareEqual_spec :
  forall (KeyType ValueType : Type) (KF : KeyFuncs KeyType)
         (ValueEq : ValueType -> ValueType -> bool),
    KeyFuncsLaws KF ->
    (forall this Other : TMapBase KeyType ValueType,
       TMapBaseOps.OrderIndependentCompareEqual ValueEq this Other = true <->
       TMapBaseOps.Num this = TMapBaseOps.Num Other /\
       forall k v, (k, v) ∈ TSetOps.LivePairs (Pairs this) ->
         exists p b, TMapBaseOps.Find Other k = Some p /\
                     TMapBaseOps.ValueAt Other p = Some b /\ ValueEq b v = true) /\
    (forall ops1 ops2 : list (KeyType * ValueType),
       ops1 ≡ₚ ops2 -> DistinctKeys ops1 ->
       (TMapBaseOps.OrderIndependentCompareEqual ValueEq
          (AddAll ops1 TMapBaseOps.EmptyMap) (AddAll ops2 TMapBaseOps.EmptyMap) = true <->
        forall kv, kv ∈ ops1 -> ValueEq kv.2 kv.2 = true)) /\
    ((forall v, ValueEq v v = true) ->
     forall ops1 ops2 : list (KeyType * ValueType),
       ops1 ≡ₚ ops2 -> DistinctKeys ops1 ->
       TMapBaseOps.OrderIndependentCompareEqual ValueEq
         (AddAll ops1 TMapBaseOps.EmptyMap) (AddAll ops2 TMapBaseOps.EmptyMap) = true) /\
    (forall (this Other : TMapBase KeyType ValueType) k v p b,
       (k, v) ∈ TSetOps.LivePairs (Pairs this) ->
       TMapBaseOps.Find Other k = Some p -> TMapBaseOps.ValueAt Other p = Some b ->
       ValueEq b v = false ->
       TMapBaseOps.OrderIndependentCompareEqual ValueEq this Other = false) /\
    (forall this Other : TMapBase KeyType ValueType,
       TMapBaseOps.Num this <> TMapBaseOps.Num Other ->
       TMapBaseOps.OrderIndependentCompareEqual_traced ValueEq this Other = (false, [])).
Proof.
  intros KeyType ValueType KF ValueEq KL.
  assert (Horder : forall ops1 ops2 : list (KeyType * ValueType),
            ops1 ≡ₚ ops2 -> DistinctKeys ops1 ->
            (TMapBaseOps.OrderIndependentCompareEqual ValueEq
               (AddAll ops1 TMapBaseOps.EmptyMap) (AddAll ops2 TMapBaseOps.EmptyMap) = true <->
             forall kv, kv ∈ ops1 -> ValueEq kv.2 kv.2 = true)).
  { intros ops1 ops2 Hp Hd1.
    pose proof (DistinctKeys_perm ops1 ops2 Hp Hd1) as Hd2.
    destruct (AddAll_distinct ops1 TMapBaseOps.EmptyMap WF_EmptyMap) as [Hn1 Hl1];
      [intros e kv He; inversion He | exact Hd1 |].
    destruct (AddAll_distinct ops2 TMapBaseOps.EmptyMap WF_EmptyMap) as [Hn2 Hl2];
      [intros e kv He; inversion He | exact Hd2 |].
    destruct (AddAll_inv ops2 TMapBaseOps.EmptyMap WF_EmptyMap WellHashed_Empty) as [W2 _].
    assert (Hlook : forall k v, (k, v) ∈ ops1 ->
              TSetOps.FindValue (Pairs (AddAll ops2 TMapBaseOps.EmptyMap)) k = Some v).
    { intros k v Hin. rewrite Hp in Hin.
      pose proof (LastAdded_distinct ops2 (k, v) Hd2 Hin) as HL. simpl in HL.
      pose proof (FindValue_AddAll ops2 TMapBaseOps.EmptyMap k WF_EmptyMap) as HF.
      now rewrite HL in HF. }
    rewrite OrderIndependentCompareEqual_true_iff. split.
    - intros [_ Hall] [k v] Hin. simpl.
      destruct (Hall k v) as (p & b & Hf & Hv & He); [apply Hl1; now right |].
      assert (Hb : TSetOps.FindValue (Pairs (AddAll ops2 TMapBaseOps.EmptyMap)) k = Some b)
        by (apply FindValue_Some_iff; eauto).
      rewrite (Hlook k v Hin) in Hb. injection Hb as ->. exact He.
    - intros Hrefl.
      split; [rewrite Hn1, Hn2, (Permutation_length Hp); reflexivity |].
      intros k v Hin. apply Hl1 in Hin as [Hin | Hin]; [inversion Hin |].
      pose proof (Hlook k v Hin) as HF.
      apply FindValue_Some_iff in HF as (p & Hp' & Hv); [| exact W2].
      exists p, v. split; [exact Hp' |]. split; [exact Hv |]. exact (Hrefl (k, v) Hin). }
  split; [apply OrderIndependentCompareEqual_true_iff |]. split; [exact Horder |].
  split; [| split].
  - intros Hrefl ops1 ops2 Hp Hd1. apply (Horder ops1 ops2 Hp Hd1).
    intros kv _. apply Hrefl.
  - intros this Other k v p b Hin Hf Hv Hne.
    destruct (TMapBaseOps.OrderIndependentCompareEqual ValueEq this Other) eqn:Hc;
      [| reflexivity].
    apply OrderIndependentCompareEqual_true_iff in Hc as [_ Hc].
    destruct (Hc k v Hin) as (p' & b' & Hf' & Hv' & He). congruence.
  - intros this Other Hne.
    unfold TMapBaseOps.OrderIndependentCompareEqual_traced.
    now destruct (Z.eqb_spec (TMapBaseOps.Num this) (TMapBaseOps.Num Other)).
Qed.

Lemma OrderIndependentCompareEqual_spec_witness :
  KeyFuncsLaws StringKeyFuncs /\
  TMapBaseOps.Num (AddAll (KF := StringKeyFuncs) [("a"%string, 1)] TMapBaseOps.EmptyMap)
    <> TMapBaseOps.Num (TMapBaseOps.EmptyMap (KeyType := string) (ValueType := Z)) /\
  TMapBaseOps.OrderIndependentCompareEqual_traced (KF := StringKeyFuncs) Z.eqb
    (AddAll (KF := StringKeyFuncs) [("a"%string, 1)] TMapBaseOps.EmptyMap)
    TMapBaseOps.EmptyMap = (false, []).
Proof.
  assert (Hne : TMapBaseOps.Num
                  (AddAll (KF := StringKeyFuncs) [("a"%string, 1)] TMapBaseOps.EmptyMap)
                <> TMapBaseOps.Num (TMapBaseOps.EmptyMap (KeyType := string) (ValueType := Z)))
    by (vm_compute; discriminate).
  split; [exact StringKeyFuncs_laws |]. split; [exact Hne |].
  exact (proj2 (proj2 (proj2 (proj2 (OrderIndependentCompareEqual_spec string Z
                                        StringKeyFuncs Z.eqb StringKeyFuncs_laws))))
           _ _ Hne).
Defined.

(** The same pairs inserted in the opposite order, one key occurring
    twice: the two maps do not compare equal. *)
Lemma OrderIndependentCompareEqual_repeated_key :
  let ops := [("a"%string, 1); ("b"%string, 2); ("a"%string, 3)] in
  ~ (ops ≡ₚ reverse ops ->
     TMapBaseOps.OrderIndependentCompareEqual (KF := StringKeyFuncs) Z.eqb
       (AddAll (KF := StringKeyFuncs) ops TMapBaseOps.EmptyMap)
       (AddAll (KF := StringKeyFuncs) (reverse ops) TMapBaseOps.EmptyMap) = true).
Proof.
  intros ops H. specialize (H (symmetry (reverse_Permutation ops))).
  vm_compute in H. discriminate H.
Qed.

(** A value type whose [==] is not reflexive (a floating-point value that
    can be NaN, here [None]): one pair inserted into two maps, and the
    two maps do not compare equal. *)
Lemma OrderIndependentCompareEqual_irreflexive_value :
  let ValueEq := fun a b : option Z =>
                   match a, b with Some x, Some y => x =? y | _, _ => false end in
  let ops := [("a"%string, @None Z)] in
  TMapBaseOps.OrderIndependentCompareEqual (KF := StringKeyFuncs) ValueEq
    (AddAll (KF := StringKeyFuncs) ops TMapBaseOps.EmptyMap)
    (AddAll (KF := StringKeyFuncs) ops TMapBaseOps.EmptyMap) = false.
Proof. vm_compute. reflexivity. Qed.


(** * Key extraction *)

Section ContainsFacts.
Context {KeyType ValueType : Type} {KF : KeyFuncs KeyType} {KL : KeyFuncsLaws KF}.
Implicit Types (s : TSet KeyType ValueType) (e : KeyType * ValueType).

Lemma Contains_FindValue s Key :
  TSetOps.WF s ->
  TSetOps.Contains s Key =
    match TSetOps.FindValue s Key with Some _ => true | None => false end.
Proof.
  intros W. unfold TSetOps.Contains, TSetOps.FindValue.
  destruct (TSetOps.FindId s Key) as [i |] eqn:Hf; [| reflexivity].
  apply FindIdByHash_Some in Hf as (_ & e & G & _). now rewrite G.
Qed.

Lemma Contains_Add s e Key :
  TSetOps.WF s ->
  TSetOps.Contains (TSetOps.Add s e).1 Key = Matches e.1 Key || TSetOps.Contains s Key.
Proof.
  intros W. unfold TSetOps.Add.
  rewrite !Contains_FindValue by (exact W || now apply WF_Emplace).
  rewrite FindValue_Emplace by exact W.
  now destruct (Matches e.1 Key).
Qed.

(** The key of every element after an insertion is the inserted key or
    the key of an element that was there. *)
Lemma keys_Emplace s x e :
  TSetOps.WF s ->
  e ∈ TSetOps.LivePairs (TSetOps.Emplace s x).1 ->
  e.1 = x.1 \/ exists e0, e0 ∈ TSetOps.LivePairs s /\ e.1 = e0.1.
Proof.
  intros W. rewrite elem_of_LivePairs. intros [i Hi].
  assert (Hnew : forall h, TSetOps.Get (TSetOps.AddNew s h x).1 i = Some e ->
            e.1 = x.1 \/ exists e0, e0 ∈ TSetOps.LivePairs s /\ e.1 = e0.1).
  { intros h. rewrite Get_AddNew by exact W. case_decide.
    - intros [= <-]. now left.
    - intros G. right. exists e. split; [apply elem_of_LivePairs; eauto | reflexivity]. }
  unfold TSetOps.Emplace, TSetOps.EmplaceByHash in Hi.
  destruct bAllowDuplicateKeys; [eauto |].
  destruct (TSetOps.FindIdByHash s (GetKeyHash x.1) x.1) as [Id |]; [| eauto].
  simpl in Hi. rewrite Get_ReplaceValue in Hi. right. case_decide.
  - subst i. destruct (TSetOps.Get s Id) as [e0 |] eqn:G0; [| discriminate].
    simpl in Hi. injection Hi as <-. exists e0.
    split; [apply elem_of_LivePairs; eauto | reflexivity].
  - exists e. split; [apply elem_of_LivePairs; eauto | reflexivity].
Qed.

Lemma keys_AddAll (ops : list (KeyType * ValueType)) (m : TMapBase KeyType ValueType) e :
  TSetOps.WF (Pairs m) ->
  e ∈ TSetOps.LivePairs (Pairs (AddAll ops m)) ->
  (exists e0, e0 ∈ TSetOps.LivePairs (Pairs m) /\ e.1 = e0.1) \/
  (exists x, x ∈ ops /\ e.1 = x.1).
Proof.
  revert m. induction ops as [| kv ops IH]; intros m W Hin; simpl in Hin.
  - left. eauto.
  - apply IH in Hin as [(e0 & H0 & E0) | (x & Hx & Ex)]; [| | now apply WF_Add].
    + rewrite Pairs_Add in H0. apply keys_Emplace in H0 as [H0 | (e1 & H1 & E1)];
        [| | exact W].
      * simpl in H0. right. exists kv. split; [left | congruence].
      * left. exists e1. split; [exact H1 | congruence].
    + right. exists x. split; [now right | exact Ex].
Qed.

Lemma LastAdded_Some (ops : list (KeyType * ValueType)) Key x :
  x ∈ ops -> Matches x.1 Key = true -> is_Some (LastAdded ops Key).
Proof.
  induction ops as [| a ops IH]; intros Hin Hm; [inversion Hin |].
  rewrite LastAdded_cons. apply elem_of_cons in Hin as [<- | Hin].
  - rewrite Hm. destruct (LastAdded ops Key); eauto.
  - destruct (IH Hin Hm) as [v ->]. eauto.
Qed.

End ContainsFacts.

Section CountFacts.
Context {KeyType : Type} (KF : KeyFuncs KeyType) {KL : KeyFuncsLaws KF}.
Implicit Types (l : list KeyType) (k : KeyType).

Lemma CountEqual_app Key l1 l2 :
  CountEqual KF Key (l1 ++ l2) = (CountEqual KF Key l1 + CountEqual KF Key l2)%nat.
Proof. unfold CountEqual. now rewrite filter_app, length_app. Qed.

Lemma CountEqual_singleton Key k :
  CountEqual KF Key [k] = if Matches k Key then 1%nat else 0%nat.
Proof.
  unfold CountEqual. rewrite filter_cons.
  destruct (decide (Matches k Key = true)) as [H | H].
  - now rewrite H.
  - apply not_true_is_false in H. now rewrite H.
Qed.

Lemma CountEqual_pos Key l :
  (0 < CountEqual KF Key l)%nat <-> exists k, k ∈ l /\ Matches k Key = true.
Proof.
  unfold CountEqual. split.
  - destruct (filter _ l) as [| k t] eqn:E; simpl; [lia |]. intros _.
    assert (Hk : k ∈ filter (fun k0 => Matches k0 Key = true) l) by (rewrite E; left).
    apply list_elem_of_filter in Hk as [? ?]. eauto.
  - intros (k & Hk & Hm).
    assert (Hin : k ∈ filter (fun k0 => Matches k0 Key = true) l)
      by (apply list_elem_of_filter; auto).
    destruct (filter _ l); [inversion Hin | simpl; lia].
Qed.

Lemma CountEqual_congr a b l :
  Matches a b = true -> CountEqual KF a l = CountEqual KF b l.
Proof.
  intros Hab. unfold CountEqual. f_equal.
  apply list_filter_iff. intros k. now rewrite (Matches_congr a b a Hab k).
Qed.

End CountFacts.

Section GetKeysFacts.
Context {KeyType ValueType : Type} {KF : KeyFuncs KeyType}.
Context (DKF : KeyFuncs KeyType) {DKL : KeyFuncsLaws DKF}.
Implicit Types (m : TMapBase KeyType ValueType) (Out : list KeyType).
Implicit Types (V : TSet KeyType unit).

(** The loop keeps [VisitedKeys] equal to the keys written so far, writes
    no key twice, and writes a key for every pair it passes. *)
Lemma GetKeysLoop_spec It Out V :
  TSetOps.WF (KF := DKF) V ->
  (forall k, TSetOps.Contains (KF := DKF) V k = true <-> (0 < CountEqual DKF k Out)%nat) ->
  (forall k, (CountEqual DKF k Out <= 1)%nat) ->
  let r := TMapBaseOps.GetKeysLoop DKF It Out V in
  (forall k, (CountEqual DKF k r.1 <= 1)%nat) /\
  (forall k, (0 < CountEqual DKF k Out)%nat \/
             (exists e : KeyType * ValueType, e ∈ It /\ Matches (KeyFuncs := DKF) e.1 k = true) ->
             CountEqual DKF k r.1 = 1%nat) /\
  (forall x, x ∈ r.1 -> x ∈ Out \/ exists v : ValueType, (x, v) ∈ It).
Proof.
  revert Out V. induction It as [| [k0 v0] It IH]; intros Out V W HV Hle; simpl.
  { split; [exact Hle |]. split; [| auto].
    intros k [Hk | (e & He & _)]; [| inversion He].
    specialize (Hle k). lia. }
  destruct (TSetOps.Contains (KF := DKF) V k0) eqn:Hc; simpl.
  - destruct (IH Out V W HV Hle) as (H1 & H2 & H3).
    split; [exact H1 |]. split.
    + intros k [Hk | (e & He & Hm)]; [apply H2; now left |].
      apply elem_of_cons in He as [-> | He]; [| apply H2; right; eauto].
      apply H2. left. simpl in Hm.
      rewrite <- (CountEqual_congr DKF k0 k Out Hm). now apply HV.
    + intros x Hx. apply H3 in Hx as [Hx | [v Hv]]; [now left |].
      right. exists v. now right.
  - assert (Hzero : CountEqual DKF k0 Out = 0%nat).
    { destruct (CountEqual DKF k0 Out) eqn:E; [reflexivity |].
      assert (Ht : TSetOps.Contains (KF := DKF) V k0 = true) by (apply HV; lia).
      congruence. }
    assert (Hcount : forall k, CountEqual DKF k (TArray_Add Out k0) =
              (CountEqual DKF k Out + if Matches (KeyFuncs := DKF) k0 k then 1 else 0)%nat).
    { intros k. unfold TArray_Add. now rewrite CountEqual_app, CountEqual_singleton. }
    destruct (IH (TArray_Add Out k0) (TSetOps.Add (KF := DKF) V (k0, tt)).1)
      as (H1 & H2 & H3).
    + now apply WF_Emplace.
    + intros k. rewrite Contains_Add by exact W. rewrite Hcount. simpl.
      destruct (Matches (KeyFuncs := DKF) k0 k); simpl; [split; [lia | reflexivity] |].
      rewrite Nat.add_0_r. apply HV.
    + intros k. rewrite Hcount.
      destruct (Matches (KeyFuncs := DKF) k0 k) eqn:Hm; [| specialize (Hle k); lia].
      rewrite <- (CountEqual_congr DKF k0 k Out Hm), Hzero. lia.
    + split; [exact H1 |]. split.
      * intros k [Hk | (e & He & Hm)].
        { apply H2. left. rewrite Hcount. lia. }
        apply elem_of_cons in He as [-> | He]; [| apply H2; right; eauto].
        apply H2. left. rewrite Hcount. simpl in Hm. rewrite Hm. lia.
      * intros x Hx. apply H3 in Hx as [Hx | [v Hv]].
        { unfold TArray_Add in Hx. apply elem_of_app in Hx as [Hx | Hx]; [now left |].
          apply list_elem_of_singleton in Hx as ->. right. exists v0. left. }
        right. exists v. now right.
Qed.

Lemma GetKeys_spec m Out0 :
  let r := TMapBaseOps.GetKeys (KF := KF) DKF m Out0 in
  r.2 = Z.of_nat (length r.1) /\
  (forall x, x ∈ r.1 -> exists v, (x, v) ∈ TSetOps.LivePairs (Pairs m)) /\
  (forall k v, (k, v) ∈ TSetOps.LivePairs (Pairs m) -> CountEqual DKF k r.1 = 1%nat).
Proof.
  unfold TMapBaseOps.GetKeys, TArray_Reset, TArray_Reserve, TArray_Num, TSetOps.Reserve.
  rewrite Tauto.if_same.
  destruct (GetKeysLoop_spec (TSetOps.LivePairs (Pairs m)) [] TSetOps.Empty)
    as (H1 & H2 & H3).
  - apply WF_Empty.
  - intros k. unfold CountEqual. simpl. split; [discriminate | lia].
  - intros k. unfold CountEqual. simpl. lia.
  - destruct (TMapBaseOps.GetKeysLoop DKF (TSetOps.LivePairs (Pairs m)) [] TSetOps.Empty)
      as [Out Vis]. simpl in *.
    split; [reflexivity |]. split.
    + intros x Hx. apply H3 in Hx as [Hx | Hx]; [inversion Hx | exact Hx].
    + intros k v Hin. apply H2. right. exists (k, v). split; [exact Hin |].
      apply Matches_refl.
Qed.

Lemma foldl_Add_AddAll (l : list (KeyType * ValueType)) V :
  foldl (fun acc (It : KeyType * ValueType) => (TSetOps.Add (KF := DKF) acc (It.1, tt)).1) V l =
  Pairs (AddAll (KF := DKF) ((fun It => (It.1, tt)) <$> l) {| Pairs := V |}).
Proof.
  revert V. induction l as [| a l IH]; intros V; [reflexivity |].
  simpl. rewrite IH. f_equal. f_equal.
  unfold TMapBaseOps.Add, TMapBaseOps.Emplace, TSetOps.Add. simpl.
  now destruct (TSetOps.Emplace V (a.1, ())).
Qed.

Lemma GetKeys_TSet_spec m (Out0 : TSet KeyType unit) :
  bAllowDuplicateKeys (KeyFuncs := DKF) = false ->
  let r := TMapBaseOps.GetKeys_TSet (KF := KF) DKF m Out0 in
  r.2 = TSetOps.Num r.1 /\
  (forall e, e ∈ TSetOps.LivePairs r.1 -> exists v, (e.1, v) ∈ TSetOps.LivePairs (Pairs m)) /\
  (forall k v, (k, v) ∈ TSetOps.LivePairs (Pairs m) ->
     CountEqual DKF k (TSetOps.LivePairs r.1).*1 = 1%nat).
Proof.
  intros Hdup. unfold TMapBaseOps.GetKeys_TSet, TSetOps.Reset, TSetOps.Reserve.
  rewrite Tauto.if_same. simpl. rewrite foldl_Add_AddAll.
  set (ops := (fun It : KeyType * ValueType => (It.1, tt)) <$> TSetOps.LivePairs (Pairs m)).
  set (out := AddAll (KF := DKF) ops {| Pairs := TSetOps.Empty |}).
  destruct (AddAll_inv (KF := DKF) ops {| Pairs := TSetOps.Empty |} WF_Empty WellHashed_Empty)
    as [W WH]. fold out in W, WH.
  split; [reflexivity |]. split.
  - intros e He. apply (keys_AddAll (KF := DKF)) in He as [(e0 & H0 & _) | (x & Hx & Ex)];
      [inversion H0 | | exact WF_Empty].
    subst ops. apply list_elem_of_fmap in Hx as (y & -> & Hy).
    exists y.2. simpl in Ex. rewrite Ex. now destruct y.
  - intros k v Hin.
    pose proof (StoredValues_FindValue (KF := DKF) out k W WH Hdup) as HS.
    pose proof (FindValue_AddAll (KF := DKF) ops {| Pairs := TSetOps.Empty |} k WF_Empty) as HF.
    fold out in HF.
    destruct (LastAdded_Some (KF := DKF) ops k (k, tt)) as [u Hu].
    { subst ops. apply list_elem_of_fmap. exists (k, v). split; [reflexivity | exact Hin]. }
    { apply Matches_refl. }
    rewrite Hu in HF. rewrite HF in HS.
    unfold StoredValues in HS. apply (f_equal length) in HS.
    rewrite length_fmap in HS. simpl in HS.
    unfold CountEqual. rewrite <- HS. clear.
    induction (TSetOps.LivePairs (Pairs out)) as [| a l IH]; [reflexivity |].
    rewrite fmap_cons, !filter_cons. simpl.
    destruct (decide (Matches (KeyFuncs := DKF) a.1 k = true)); simpl; now rewrite IH.
Qed.

End GetKeysFacts.


(** * Runs of insertions that only append *)

Section AppendOnly.
Context {KeyType ValueType : Type} {KF : KeyFuncs KeyType} {KL : KeyFuncsLaws KF}.
Implicit Types (m : TMapBase KeyType ValueType) (s : TSet KeyType ValueType).
Implicit Types (ops : list (KeyType * ValueType)).

Lemma LivePairs_AddNew_append s h (e : KeyType * ValueType) :
  FreeList s = [] ->
  TSetOps.LivePairs (TSetOps.AddNew s h e).1 = TSetOps.LivePairs s ++ [e] /\
  FreeList (TSetOps.AddNew s h e).1 = [].
Proof.
  intros F. unfold TSetOps.AddNew. rewrite F. simpl. split; [| reflexivity].
  unfold TSetOps.LivePairs. simpl. apply live_append.
Qed.

Lemma LivePairs_AddAll_append ops m :
  TSetOps.WF (Pairs m) -> TSetOps.WellHashed (Pairs m) -> FreeList (Pairs m) = [] ->
  (bAllowDuplicateKeys = false ->
   (forall e kv, e ∈ TSetOps.LivePairs (Pairs m) -> kv ∈ ops -> Matches e.1 kv.1 = false) /\
   DistinctKeys ops) ->
  TSetOps.LivePairs (Pairs (AddAll ops m)) = TSetOps.LivePairs (Pairs m) ++ ops /\
  FreeList (Pairs (AddAll ops m)) = [].
Proof.
  revert m. induction ops as [| kv ops IH]; intros m W WH F Hd.
  - simpl. rewrite app_nil_r. auto.
  - change (AddAll (kv :: ops) m) with (AddAll ops (TMapBaseOps.Add m kv.1 kv.2).1).
    assert (Hadd : Pairs (TMapBaseOps.Add m kv.1 kv.2).1 =
                   (TSetOps.AddNew (Pairs m) (GetKeyHash kv.1) kv).1).
    { rewrite Pairs_Add. unfold TSetOps.Emplace, TSetOps.EmplaceByHash. simpl.
      destruct bAllowDuplicateKeys eqn:D; [now destruct kv |].
      destruct (Hd eq_refl) as [Hold _].
      assert (Hn : TSetOps.FindIdByHash (Pairs m) (GetKeyHash kv.1) kv.1 = None).
      { apply (FindId_None_iff (Pairs m) kv.1 W WH). intros i e G.
        apply Hold; [apply elem_of_LivePairs; eauto | left]. }
      rewrite Hn. now destruct kv. }
    destruct (LivePairs_AddNew_append (Pairs m) (GetKeyHash kv.1) kv F) as [HL HF].
    destruct (IH (TMapBaseOps.Add m kv.1 kv.2).1) as [IL IF].
    + now apply WF_Add.
    + now apply WellHashed_Add.
    + rewrite Hadd. exact HF.
    + intros D. destruct (Hd D) as [Hold [Hhead Hrest]]. split; [| exact Hrest].
      intros e kv' He Hkv'. rewrite Hadd, HL in He. apply elem_of_app in He as [He | He].
      * apply Hold; [exact He | now right].
      * apply list_elem_of_singleton in He. subst. now apply Hhead.
    + split; [| exact IF]. rewrite IL, Hadd, HL. now rewrite <- app_assoc.
Qed.

End AppendOnly.


Lemma LivePairs_of_Num_zero {KeyType ValueType : Type} (m : TMapBase KeyType ValueType) :
  TMapBaseOps.Num m = 0 -> TSetOps.LivePairs (Pairs m) = [].
Proof.
  unfold TMapBaseOps.Num, TSetOps.Num. intros H.
  destruct (TSetOps.LivePairs (Pairs m)); [reflexivity | simpl in H; lia].
Qed.

(** C8 (as amended). [GetKeys], in both overloads, first resets the output
    collection, so that its previous content does not matter, writes only
    keys of the map and returns the number of keys written, the final
    element count of the output collection; on a map with no element it
    returns 0 and leaves the output collection empty.  The array overload
    filters through a [TSet<KeyType>]: where the key type's default key
    functions compare keys as the map's [KeyFuncs] does, for every key of
    the map exactly one written key equals it under the configured
    equality.  The set overload adds every key to the caller's set:
    where that set's key functions disallow duplicate keys, for every key
    of the map exactly one element of the set equals it under them, and
    under the configured equality where the two agree; where they allow
    duplicate keys, one element is written per pair of the map. *)
Theorem GetKeys_writes_distinct_keys :
  forall (KeyType ValueType : Type) (KF DKF : KeyFuncs KeyType),
    KeyFuncsLaws DKF ->
    forall (m : TMapBase KeyType ValueType),
      (forall Out0 : list KeyType,
         let r := TMapBaseOps.GetKeys (KF := KF) DKF m Out0 in
         r = TMapBaseOps.GetKeys (KF := KF) DKF m [] /\
         r.2 = Z.of_nat (length r.1) /\
         (forall x, x ∈ r.1 -> exists v, (x, v) ∈ TSetOps.LivePairs (Pairs m)) /\
         (forall k v, (k, v) ∈ TSetOps.LivePairs (Pairs m) ->
            CountEqual DKF k r.1 = 1%nat) /\
         ((forall a b, Matches (KeyFuncs := KF) a b = Matches (KeyFuncs := DKF) a b) ->
          forall k v, (k, v) ∈ TSetOps.LivePairs (Pairs m) ->
            CountEqual KF k r.1 = 1%nat) /\
         (TMapBaseOps.Num m = 0 -> r = ([], 0))) /\
      (forall (OKF : KeyFuncs KeyType) (Out0 : TSet KeyType unit),
         KeyFuncsLaws OKF ->
         let r := TMapBaseOps.GetKeys_TSet (KF := KF) OKF m Out0 in
         r = TMapBaseOps.GetKeys_TSet (KF := KF) OKF m TSetOps.Empty /\
         r.2 = TSetOps.Num r.1 /\
         (forall e, e ∈ TSetOps.LivePairs r.1 ->
            exists v, (e.1, v) ∈ TSetOps.LivePairs (Pairs m)) /\
         (bAllowDuplicateKeys (KeyFuncs := OKF) = false ->
          (forall k v, (k, v) ∈ TSetOps.LivePairs (Pairs m) ->
             CountEqual OKF k (TSetOps.LivePairs r.1).*1 = 1%nat) /\
          ((forall a b, Matches (KeyFuncs := KF) a b = Matches (KeyFuncs := OKF) a b) ->
           forall k v, (k, v) ∈ TSetOps.LivePairs (Pairs m) ->
             CountEqual KF k (TSetOps.LivePairs r.1).*1 = 1%nat)) /\
         (bAllowDuplicateKeys (KeyFuncs := OKF) = true ->
          (TSetOps.LivePairs r.1).*1 = (TSetOps.LivePairs (Pairs m)).*1 /\
          r.2 = TMapBaseOps.Num m) /\
         (TMapBaseOps.Num m = 0 -> r = (TSetOps.Empty, 0))).
Proof.
  intros KeyType ValueType KF DKF DKL m.
  assert (Hagree : forall F : KeyFuncs KeyType,
            (forall a b, Matches (KeyFuncs := KF) a b = Matches (KeyFuncs := F) a b) ->
            forall k l, CountEqual KF k l = CountEqual F k l).
  { intros F Hab k l. unfold CountEqual. f_equal. apply list_filter_iff.
    intros x. now rewrite Hab. }
  split.
  - intros Out0 r.
    destruct (GetKeys_spec (KF := KF) DKF m Out0) as (H1 & H2 & H3). fold r in H1, H2, H3.
    split; [reflexivity |]. split; [exact H1 |]. split; [exact H2 |].
    split; [exact H3 |]. split.
    + intros Hab k v Hin. rewrite (Hagree DKF Hab). eauto.
    + intros Hz. subst r. unfold TMapBaseOps.GetKeys, TArray_Reset, TArray_Reserve.
      rewrite Tauto.if_same, (LivePairs_of_Num_zero m Hz). reflexivity.
  - intros OKF Out0 OKL r.
    set (ops := (fun It : KeyType * ValueType => (It.1, tt)) <$> TSetOps.LivePairs (Pairs m)).
    assert (Hr : r.1 = Pairs (AddAll (KF := OKF) ops {| Pairs := TSetOps.Empty |})).
    { subst r. unfold TMapBaseOps.GetKeys_TSet, TSetOps.Reset, TSetOps.Reserve.
      rewrite Tauto.if_same. simpl. apply foldl_Add_AddAll. }
    assert (Hkeys : forall e, e ∈ TSetOps.LivePairs r.1 ->
              exists v, (e.1, v) ∈ TSetOps.LivePairs (Pairs m)).
    { intros e He. rewrite Hr in He.
      apply (keys_AddAll (KF := OKF)) in He as [(e0 & H0 & _) | (x & Hx & Ex)];
        [inversion H0 | | exact WF_Empty].
      subst ops. apply list_elem_of_fmap in Hx as (y & -> & Hy).
      exists y.2. simpl in Ex. rewrite Ex. now destruct y. }
    split; [reflexivity |]. split; [reflexivity |]. split; [exact Hkeys |].
    split; [| split].
    + intros Hdup.
      destruct (GetKeys_TSet_spec (KF := KF) OKF m Out0 Hdup) as (_ & _ & H3).
      fold r in H3. split; [exact H3 |].
      intros Hab k v Hin. rewrite (Hagree OKF Hab). eauto.
    + intros Hdup.
      destruct (LivePairs_AddAll_append (KF := OKF) ops {| Pairs := TSetOps.Empty |}
                  WF_Empty WellHashed_Empty eq_refl) as [HL _]; [congruence |].
      simpl in HL.
      assert (Hl : (TSetOps.LivePairs r.1).*1 = (TSetOps.LivePairs (Pairs m)).*1).
      { rewrite Hr, HL. subst ops. rewrite <- list_fmap_compose.
        now apply list_fmap_ext. }
      split; [exact Hl |].
      change r.2 with (TSetOps.Num r.1).
      unfold TMapBaseOps.Num, TSetOps.Num. f_equal.
      apply (f_equal length) in Hl. now rewrite !length_fmap in Hl.
    + intros Hz. subst r. unfold TMapBaseOps.GetKeys_TSet, TSetOps.Reset, TSetOps.Reserve.
      rewrite Tauto.if_same, (LivePairs_of_Num_zero m Hz). reflexivity.
Qed.

Lemma GetKeys_writes_distinct_keys_witness :
  KeyFuncsLaws StringKeyFuncs /\
  (TMapBaseOps.GetKeys (KF := StringKeyFuncs) StringKeyFuncs
     (AddAll (KF := StringKeyFuncs) [("a"%string, 1); ("b"%string, 2)] TMapBaseOps.EmptyMap)
     ["z"%string]).2 =
  Z.of_nat (length (TMapBaseOps.GetKeys (KF := StringKeyFuncs) StringKeyFuncs
     (AddAll (KF := StringKeyFuncs) [("a"%string, 1); ("b"%string, 2)] TMapBaseOps.EmptyMap)
     ["z"%string]).1).
Proof.
  split; [exact StringKeyFuncs_laws |].
  exact (proj1 (proj2 (proj1 (GetKeys_writes_distinct_keys string Z StringKeyFuncs
                                StringKeyFuncs StringKeyFuncs_laws
                                (AddAll (KF := StringKeyFuncs)
                                   [("a"%string, 1); ("b"%string, 2)] TMapBaseOps.EmptyMap))
                         ["z"%string]))).
Defined.

(** The array overload where the two equalities differ: a map under
    case-sensitive key functions, on a key type whose default equality
    ignores case.  "A" is a key of the map, and no written key equals it
    under the map's own equality. *)
Lemma GetKeys_default_equality_hides_key :
  let m := AddAll (KF := StringKeyFuncs)
             [("a"%string, 1); ("A"%string, 2)] TMapBaseOps.EmptyMap in
  let r := TMapBaseOps.GetKeys (KF := StringKeyFuncs) NoCaseKeyFuncs m [] in
  ~ (forall k v, (k, v) ∈ TSetOps.LivePairs (Pairs m) ->
       CountEqual StringKeyFuncs k r.1 = 1%nat).
Proof.
  intros m r H.
  assert (Hl : TSetOps.LivePairs (Pairs m) = [("a"%string, 1); ("A"%string, 2)])
    by (vm_compute; reflexivity).
  specialize (H "A"%string 2). rewrite Hl in H.
  specialize (H ltac:(right; left)). vm_compute in H. discriminate H.
Qed.

(** The set overload with an output set that the caller keys by a
    coarser equality: a map under case-sensitive key functions that holds
    "a" and "A", read into a set whose key functions ignore case.  "A" is
    a key of the map, and no element of the set equals it under the
    map's own equality. *)
Lemma GetKeys_TSet_coarser_output_equality :
  let m := AddAll (KF := StringKeyFuncs)
             [("a"%string, 1); ("A"%string, 2)] TMapBaseOps.EmptyMap in
  let r := TMapBaseOps.GetKeys_TSet (KF := StringKeyFuncs) NoCaseKeyFuncs m
             TSetOps.Empty in
  ~ (forall k v, (k, v) ∈ TSetOps.LivePairs (Pairs m) ->
       CountEqual StringKeyFuncs k (TSetOps.LivePairs r.1).*1 = 1%nat).
Proof.
  intros m r H.
  assert (Hl : TSetOps.LivePairs (Pairs m) = [("a"%string, 1); ("A"%string, 2)])
    by (vm_compute; reflexivity).
  specialize (H "A"%string 2). rewrite Hl in H.
  specialize (H ltac:(right; left)). vm_compute in H. discriminate H.
Qed.


(** * The allocator over its lifetime *)

Import AllocatorLifetime.

(** X1. Moving between two distinct allocators and then destroying both
    frees each block the two owned exactly once: the destination's former
    block during the move, the source's former block when the destination
    is destroyed, and nothing when the emptied source is destroyed. *)
Theorem Move_then_destroy_frees_each_block_once :
  forall (cfg : Config) (this Other : nat) (s : Store),
    this <> Other ->
    exists s' calls,
      MoveToEmptyFromOtherAllocator cfg this Other s = Returns s' calls /\
      calls = Destructor (s this) /\
      Destructor (s' Other) = [] /\
      Destructor (s' this) = Destructor (s Other) /\
      calls ++ Destructor (s' Other) ++ Destructor (s' this) =
        Destructor (s this) ++ Destructor (s Other).
Proof.
  intros cfg this Other s Hne.
  unfold MoveToEmptyFromOtherAllocator.
  assert (Hneq : Nat.eqb this Other = false) by (apply Nat.eqb_neq; exact Hne).
  assert (Hneq' : Nat.eqb Other this = false) by (apply Nat.eqb_neq; congruence).
  rewrite Hneq, andb_false_r. eexists _, _. split; [reflexivity |].
  unfold store_set, Destructor, HasAllocation.
  rewrite !Nat.eqb_refl, Hneq'. simpl.
  repeat split; reflexivity.
Qed.

Lemma Move_then_destroy_frees_each_block_once_witness :
  0%nat <> 1%nat /\
  exists s' calls,
    MoveToEmptyFromOtherAllocator ConfigDebug 0 1 TwoAllocators = Returns s' calls /\
    calls ++ Destructor (s' 1%nat) ++ Destructor (s' 0%nat) = [EvFree 4096; EvFree 8192].
Proof.
  split; [discriminate |].
  destruct (Move_then_destroy_frees_each_block_once ConfigDebug 0 1 TwoAllocators
              ltac:(discriminate)) as (s' & calls & Hm & _ & _ & _ & Hall).
  exists s', calls. split; [exact Hm | exact Hall].
Defined.

(** X2. In a build without [checkSlow], moving an allocator into itself
    frees its block and leaves it with no block: the block is not kept,
    and destroying the allocator afterwards frees nothing. *)
Theorem Self_move_release_frees_and_empties :
  forall (cfg : Config) (this : nat) (s : Store),
    DO_GUARD_SLOW cfg = false ->
    exists s',
      MoveToEmptyFromOtherAllocator cfg this this s = Returns s' (Destructor (s this)) /\
      HasAllocation (s' this) = false /\
      Destructor (s' this) = [] /\
      (forall a, a <> this -> s' a = s a).
Proof.
  intros cfg this s Hrel. unfold MoveToEmptyFromOtherAllocator.
  rewrite Hrel. simpl. eexists. split; [reflexivity |].
  unfold store_set, Destructor, HasAllocation. rewrite !Nat.eqb_refl. simpl.
  repeat split. intros a Ha.
  destruct (Nat.eqb_spec this a); [congruence | reflexivity].
Qed.

Lemma Self_move_release_frees_and_empties_witness :
  DO_GUARD_SLOW Config64 = false /\
  exists s',
    MoveToEmptyFromOtherAllocator Config64 0 0 TwoAllocators = Returns s' [EvFree 4096] /\
    HasAllocation (s' 0%nat) = false.
Proof.
  split; [reflexivity |].
  destruct (Self_move_release_frees_and_empties Config64 0 TwoAllocators eq_refl)
    as (s' & Hm & Hh & _).
  exists s'. split; [exact Hm | exact Hh].
Defined.

(** X3. Moving a block into an allocator that owns none and moving it
    back restores every allocator and calls neither [Free] nor
    [Realloc]. *)
Theorem Move_there_and_back :
  forall (cfg : Config) (this Other : nat) (s : Store),
    this <> Other -> HasAllocation (s this) = false ->
    exists s1 s2,
      MoveToEmptyFromOtherAllocator cfg this Other s = Returns s1 [] /\
      MoveToEmptyFromOtherAllocator cfg Other this s1 = Returns s2 [] /\
      forall a, s2 a = s a.
Proof.
  intros cfg this Other s Hne Hempty.
  assert (Hneq : Nat.eqb this Other = false) by (apply Nat.eqb_neq; exact Hne).
  assert (Hneq' : Nat.eqb Other this = false) by (apply Nat.eqb_neq; congruence).
  set (s1 := store_set (store_set s this {| Data := Data (s Other) |})
                       Other {| Data := nullptr |}).
  assert (H1 : s1 Other = {| Data := nullptr |})
    by (unfold s1, store_set; now rewrite Nat.eqb_refl).
  assert (H1' : s1 this = {| Data := Data (s Other) |})
    by (unfold s1, store_set; now rewrite Hneq', Nat.eqb_refl).
  exists s1, (store_set (store_set s1 Other {| Data := Data (s1 this) |})
                        this {| Data := nullptr |}).
  split; [| split].
  - unfold MoveToEmptyFromOtherAllocator.
    now rewrite Hneq, andb_false_r, Hempty.
  - unfold MoveToEmptyFromOtherAllocator.
    now rewrite Hneq', andb_false_r, H1.
  - intros a. rewrite H1'. unfold s1, store_set. simpl.
    unfold HasAllocation in Hempty. apply negb_false_iff, Z.eqb_eq in Hempty.
    destruct (Nat.eqb_spec this a) as [<- | Ha].
    + destruct (s this) as [d]. simpl in *. now rewrite Hempty.
    + destruct (Nat.eqb_spec Other a) as [<- | Hb]; [| reflexivity].
      now destruct (s Other).
Qed.

Lemma Move_there_and_back_witness :
  0%nat <> 1%nat /\
  HasAllocation (store_set TwoAllocators 0 DefaultConstructed 0%nat) = false /\
  exists s1 s2,
    MoveToEmptyFromOtherAllocator ConfigDebug 0 1
      (store_set TwoAllocators 0 DefaultConstructed) = Returns s1 [] /\
    MoveToEmptyFromOtherAllocator ConfigDebug 1 0 s1 = Returns s2 [] /\
    Data (s2 1%nat) = 8192.
Proof.
  split; [discriminate |]. split; [reflexivity |].
  destruct (Move_there_and_back ConfigDebug 0 1
              (store_set TwoAllocators 0 DefaultConstructed)
              ltac:(discriminate) eq_refl) as (s1 & s2 & H1 & H2 & H3).
  exists s1, s2. split; [exact H1 |]. split; [exact H2 |]. now rewrite H3.
Defined.

(** X4. Whenever [ResizeAllocation] returns after calling [Realloc], the
    byte count it asked for is what [GetAllocatedSize] reports for the
    same count and element size; for a 64-bit [SIZE_T] or an index as wide
    as [SIZE_T] that is the exact product, and for an index as wide as
    [SIZE_T] it is at most the largest [SizeType] value. *)
Theorem Resize_requests_GetAllocatedSize :
  forall (Realloc : ptr -> Z -> Z -> ptr) (DEFAULT_ALIGNMENT : Z) (cfg : Config)
         (self self' : ForAnyElementType) (calls : list Event) (prev n b : Z),
    ValidConfig cfg -> InSizeType cfg n -> InSIZE_T cfg b ->
    Data self <> nullptr \/ n <> 0 ->
    ResizeAllocation Realloc DEFAULT_ALIGNMENT cfg self prev n b = Returns self' calls ->
    calls = [EvRealloc (Data self) (GetAllocatedSize cfg self' n b) DEFAULT_ALIGNMENT] /\
    GetAllocation self' =
      Realloc (Data self) (GetAllocatedSize cfg self' n b) DEFAULT_ALIGNMENT /\
    (SIZE_T_bits cfg = 64 \/ IndexSize cfg = SIZE_T_bits cfg ->
     GetAllocatedSize cfg self' n b = n * b /\ 0 <= n * b) /\
    (IndexSize cfg = SIZE_T_bits cfg ->
     GetAllocatedSize cfg self' n b <= SizeType_Max cfg).
Proof.
  intros Realloc DA cfg self self' calls prev n b Hc Hn Hb Hg Hr.
  apply resize_guard_iff in Hg. unfold ResizeAllocation in Hr. rewrite Hg in Hr.
  destruct (bInvalidResize cfg n b) eqn:Hv; [discriminate |].
  injection Hr as <- <-. unfold GetAllocatedSize, GetAllocation. simpl.
  split; [reflexivity |]. split; [reflexivity |].
  assert (Hnot : ~ (n < 0 \/ b = 0 \/ MAX_int32 < b \/
            (IndexSize cfg = SIZE_T_bits cfg /\ SizeType_Max cfg < n * b))).
  { rewrite <- bInvalidResize_spec by assumption. congruence. }
  split.
  - intros Hw. rewrite exact_count by assumption. split; [reflexivity |].
    unfold InSIZE_T in Hb. nia.
  - intros He. rewrite exact_count by auto. lia.
Qed.

Lemma Resize_requests_GetAllocatedSize_witness :
  ValidConfig Config32on64 /\ InSizeType Config32on64 10 /\ InSIZE_T Config32on64 8 /\
  (Data DefaultConstructed <> nullptr \/ 10 <> 0) /\
  ResizeAllocation (fun _ _ _ => 4096) 0 Config32on64 DefaultConstructed 0 10 8 =
    Returns {| Data := 4096 |} [EvRealloc nullptr 80 0] /\
  GetAllocatedSize Config32on64 {| Data := 4096 |} 10 8 = 10 * 8.
Proof.
  assert (Hc : ValidConfig Config32on64) by (unfold ValidConfig; simpl; lia).
  assert (Hn : InSizeType Config32on64 10) by (split; vm_compute; discriminate).
  assert (Hb : InSIZE_T Config32on64 8) by (split; vm_compute; [discriminate | reflexivity]).
  assert (Hg : Data DefaultConstructed <> nullptr \/ 10 <> 0) by (right; discriminate).
  assert (Hr : ResizeAllocation (fun _ _ _ => 4096) 0 Config32on64 DefaultConstructed 0 10 8 =
               Returns {| Data := 4096 |} [EvRealloc nullptr 80 0]) by reflexivity.
  split; [exact Hc |]. split; [exact Hn |]. split; [exact Hb |]. split; [exact Hg |].
  split; [exact Hr |].
  destruct (Resize_requests_GetAllocatedSize (fun _ _ _ => 4096) 0 Config32on64
              DefaultConstructed {| Data := 4096 |} [EvRealloc nullptr 80 0] 0 10 8
              Hc Hn Hb Hg Hr) as (_ & _ & Hex & _).
  exact (proj1 (Hex (or_introl eq_refl))).
Defined.

(** X5. An allocator that is constructed, resized once from no block and
    destroyed: with a zero count it makes no call at all, whatever the
    element size; with a count the validation accepts it calls [Realloc]
    once on the null pointer and, when destroyed, frees exactly the block
    [Realloc] returned, if that is not null. *)
Theorem Construct_resize_destroy :
  forall (Realloc : ptr -> Z -> Z -> ptr) (DEFAULT_ALIGNMENT : Z) (cfg : Config)
         (prev n b : Z),
    (exists a,
       ResizeAllocation Realloc DEFAULT_ALIGNMENT cfg DefaultConstructed prev 0 b =
         Returns a [] /\ Destructor a = []) /\
    (n <> 0 -> bInvalidResize cfg n b = false ->
     exists a p,
       ResizeAllocation Realloc DEFAULT_ALIGNMENT cfg DefaultConstructed prev n b =
         Returns a [EvRealloc nullptr (wrap_SIZE_T cfg (n * b)) DEFAULT_ALIGNMENT] /\
       p = Realloc nullptr (wrap_SIZE_T cfg (n * b)) DEFAULT_ALIGNMENT /\
       GetAllocation a = p /\
       Destructor a = if p =? nullptr then [] else [EvFree p]).
Proof.
  intros Realloc DA cfg prev n b. split.
  - exists DefaultConstructed. split; reflexivity.
  - intros Hn Hv. unfold ResizeAllocation. simpl.
    destruct (Z.eqb_spec n 0) as [-> | _]; [contradiction |]. simpl. rewrite Hv.
    eexists _, _. split; [reflexivity |]. split; [reflexivity |].
    split; [reflexivity |]. unfold Destructor, HasAllocation. simpl.
    now destruct (_ =? nullptr).
Qed.

Lemma Construct_resize_destroy_witness :
  10 <> 0 /\ bInvalidResize Config32on64 10 8 = false /\
  exists a p,
    ResizeAllocation (fun _ _ _ => 4096) 0 Config32on64 DefaultConstructed 0 10 8 =
      Returns a [EvRealloc nullptr (wrap_SIZE_T Config32on64 (10 * 8)) 0] /\
    p = 4096 /\ GetAllocation a = p /\
    Destructor a = if p =? nullptr then [] else [EvFree p].
Proof.
  split; [discriminate |]. split; [reflexivity |].
  exact (proj2 (Construct_resize_destroy (fun _ _ _ => 4096) 0 Config32on64 0 10 8)
           ltac:(discriminate) eq_refl).
Defined.


(** * Memory, logging and shader flags *)

Lemma MemIsZeroLoop_true_iff (mem : Z -> Z) (n : nat) (Start : Z) :
  Memory.MemIsZeroLoop mem Start n = true <->
  forall a, Start <= a < Start + Z.of_nat n -> mem a = 0.
Proof.
  revert Start. induction n as [| n IH]; intros Start; simpl Memory.MemIsZeroLoop.
  - split; [intros _ a Ha; lia | reflexivity].
  - destruct (Z.eqb_spec (mem Start) 0) as [E | E]; simpl.
    + rewrite IH. split.
      * intros H a Ha. destruct (Z.eq_dec a Start) as [-> | Hne]; [exact E |].
        apply H. lia.
      * intros H a Ha. apply H. lia.
    + split; [discriminate |]. intros H. exfalso. apply E, H. lia.
Qed.

(** X6. [MemIsZero(Ptr, Count)] is true exactly when every byte of
    [Ptr, Ptr + Count) is zero; in particular it is true for [Count = 0],
    and false as soon as one byte of the range is not zero. *)
Theorem MemIsZero_true_iff :
  forall (mem : Z -> Z) (Ptr Count : Z),
    (Memory.MemIsZero mem Ptr Count = true <->
     forall a, Ptr <= a < Ptr + Count -> mem a = 0) /\
    Memory.MemIsZero mem Ptr 0 = true /\
    (forall a, Ptr <= a < Ptr + Count -> mem a <> 0 ->
       Memory.MemIsZero mem Ptr Count = false).
Proof.
  intros mem Ptr Count.
  assert (Hiff : Memory.MemIsZero mem Ptr Count = true <->
                 forall a, Ptr <= a < Ptr + Count -> mem a = 0).
  { unfold Memory.MemIsZero. rewrite MemIsZeroLoop_true_iff.
    split; intros H a Ha; apply H; lia. }
  split; [exact Hiff |]. split; [reflexivity |].
  intros a Ha Hnz. destruct (Memory.MemIsZero mem Ptr Count) eqn:E; [| reflexivity].
  exfalso. apply Hnz. now apply Hiff.
Qed.



(** X8. [GetShaderPermutationFlags] reads the cooked-editor setting on its
    first call only and remembers whether the setting was found and true.
    Every call returns [HasEditorOnlyData] when the remembered flag or
    [WithEditorOnly] holds and [None] otherwise, two different values; a
    later call does not consult the config, whatever it holds by then,
    and leaves the remembered flag as it is. *)
Theorem GetShaderPermutationFlags_reads_config_once :
  forall (GetBool1 GetBool2 : bool -> bool * bool) (w1 w2 : bool),
    let flag := (GetBool1 false).1 && (GetBool1 false).2 in
    let first := Shader.GetShaderPermutationFlags None GetBool1 w1 in
    let later := Shader.GetShaderPermutationFlags first.2 GetBool2 w2 in
    first = ((if flag || w1 then Shader.HasEditorOnlyData else Shader.None_), Some flag) /\
    later = ((if flag || w2 then Shader.HasEditorOnlyData else Shader.None_), Some flag) /\
    (forall (b : bool) (GetBool : bool -> bool * bool) (w : bool),
       Shader.GetShaderPermutationFlags (Some b) GetBool w =
         ((if b || w then Shader.HasEditorOnlyData else Shader.None_), Some b)) /\
    Shader.None_ <> Shader.HasEditorOnlyData.
Proof.
  intros g1 g2 w1 w2 flag first later.
  assert (Hcached : forall (b : bool) (g : bool -> bool * bool) (w : bool),
            Shader.GetShaderPermutationFlags (Some b) g w =
              ((if b || w then Shader.HasEditorOnlyData else Shader.None_), Some b)).
  { intros b g w. unfold Shader.GetShaderPermutationFlags.
    now destruct (b || w). }
  assert (Hfirst : first =
            ((if flag || w1 then Shader.HasEditorOnlyData else Shader.None_), Some flag)).
  { subst first flag. unfold Shader.GetShaderPermutationFlags.
    destruct (g1 false) as [found v]. simpl. now destruct (found && v || w1). }
  split; [exact Hfirst |]. split; [| split; [exact Hcached | discriminate]].
  subst later. rewrite Hfirst. simpl. apply Hcached.
Qed.


(** * Lookups that a mutation leaves alone *)

Section TSetFrame.
Context {KeyType ValueType : Type} {KF : KeyFuncs KeyType} {KL : KeyFuncsLaws KF}.
Implicit Types (s : TSet KeyType ValueType) (e : KeyType * ValueType).

Lemma find_filter_skip (f g : nat -> bool) (Id : nat) (chain : list nat) :
  f Id = false -> (forall j, j <> Id -> g j = f j) ->
  List.find g (filter (fun j => j <> Id) chain) = List.find f chain.
Proof.
  intros Hf Hg. induction chain as [| a chain IH]; [reflexivity |].
  rewrite filter_cons. destruct (decide (a <> Id)) as [Hne | He]; simpl.
  - rewrite (Hg a Hne). now rewrite IH.
  - assert (a = Id) by (destruct (decide (a = Id)); [assumption | contradiction]).
    subst a. now rewrite Hf.
Qed.

Lemma MatchesAt_RemoveId s h Id Key j :
  j <> Id ->
  TSetOps.MatchesAt (TSetOps.RemoveId s h Id) Key j = TSetOps.MatchesAt s Key j.
Proof.
  intros Hne. unfold TSetOps.MatchesAt. now rewrite Get_RemoveId, decide_False.
Qed.

Lemma FindIdByHash_RemoveId s h Id h' Key :
  TSetOps.MatchesAt s Key Id = false ->
  TSetOps.FindIdByHash (TSetOps.RemoveId s h Id) h' Key = TSetOps.FindIdByHash s h' Key.
Proof.
  intros Hm. unfold TSetOps.FindIdByHash. rewrite Bucket_RemoveId. case_decide.
  - subst h'. apply find_filter_skip; [exact Hm |].
    intros j Hj. now apply MatchesAt_RemoveId.
  - apply find_ext. intros j _. destruct (decide (j = Id)) as [-> | Hne].
    + rewrite Hm. unfold TSetOps.MatchesAt. now rewrite Get_RemoveId, decide_True.
    + now apply MatchesAt_RemoveId.
Qed.

Lemma MatchesAt_other_key s Key Key' Id :
  Matches Key Key' = false -> TSetOps.MatchesAt s Key Id = true ->
  TSetOps.MatchesAt s Key' Id = false.
Proof.
  intros Hne Hm. apply MatchesAt_Some in Hm as (e & G & Hm).
  unfold TSetOps.MatchesAt. rewrite G. destruct e as [k0 v0]. simpl in *.
  destruct (Matches k0 Key') eqn:Hm'; [| reflexivity].
  rewrite (Matches_trans _ _ _ (Matches_sym _ _ Hm) Hm') in Hne. discriminate.
Qed.

(** Removing the elements equal to one key changes neither what a probe
    for a different key finds nor the element it finds. *)
Lemma RemoveChain_frame Key h chain s h' Key' :
  Matches Key Key' = false ->
  TSetOps.FindIdByHash (TSetOps.RemoveChain Key h chain s).1 h' Key' =
    TSetOps.FindIdByHash s h' Key' /\
  forall i, TSetOps.MatchesAt s Key i = false ->
            TSetOps.Get (TSetOps.RemoveChain Key h chain s).1 i = TSetOps.Get s i.
Proof.
  intros Hne. revert s. induction chain as [| Id rest IH]; intros s; simpl; [auto |].
  destruct (TSetOps.MatchesAt s Key Id) eqn:Hm; [| apply IH].
  assert (H1 : TSetOps.FindIdByHash (TSetOps.RemoveId s h Id) h' Key' =
               TSetOps.FindIdByHash s h' Key')
    by (apply FindIdByHash_RemoveId; eapply MatchesAt_other_key; eauto).
  assert (H2 : forall i, TSetOps.MatchesAt s Key i = false ->
                 TSetOps.Get (TSetOps.RemoveId s h Id) i = TSetOps.Get s i).
  { intros i Hi. rewrite Get_RemoveId. case_decide; [congruence | reflexivity]. }
  destruct bAllowDuplicateKeys; [| simpl; auto].
  destruct (IH (TSetOps.RemoveId s h Id)) as [IH1 IH2].
  destruct (TSetOps.RemoveChain Key h rest (TSetOps.RemoveId s h Id)) as [s2 n].
  simpl in *. split; [congruence |].
  intros i Hi. rewrite IH2, H2; [reflexivity | exact Hi |].
  unfold TSetOps.MatchesAt. rewrite H2 by exact Hi. exact Hi.
Qed.

Lemma FindValue_Remove_other s Key Key' :
  Matches Key Key' = false ->
  TSetOps.FindValue (TSetOps.Remove s Key).1 Key' = TSetOps.FindValue s Key'.
Proof.
  intros Hne. unfold TSetOps.FindValue, TSetOps.FindId, TSetOps.Remove, TSetOps.RemoveByHash.
  destruct (RemoveChain_frame Key (GetKeyHash Key) (TSetOps.Bucket s (GetKeyHash Key)) s
              (GetKeyHash Key') Key' Hne) as [H1 H2].
  rewrite H1. destruct (TSetOps.FindIdByHash s (GetKeyHash Key') Key') as [i |] eqn:Hf;
    [| reflexivity].
  rewrite H2; [reflexivity |].
  apply find_Some_elem in Hf as [_ Hm].
  destruct (TSetOps.MatchesAt s Key i) eqn:Hm'; [| reflexivity].
  rewrite (MatchesAt_other_key s Key Key' i Hne Hm') in Hm. discriminate.
Qed.

Lemma FindIdByHash_congr s h Key Key' :
  Matches Key Key' = true ->
  TSetOps.FindIdByHash s h Key' = TSetOps.FindIdByHash s h Key.
Proof.
  intros Hm. unfold TSetOps.FindIdByHash. apply find_ext. intros j _.
  unfold TSetOps.MatchesAt. destruct (TSetOps.Get s j) as [[kj vj] |]; [| reflexivity].
  symmetry. now apply Matches_congr.
Qed.

Lemma FindValue_Remove_same s Key Key' :
  TSetOps.WF s -> Matches Key Key' = true ->
  TSetOps.FindValue (TSetOps.Remove s Key).1 Key' = None.
Proof.
  intros W Hm. unfold TSetOps.FindValue, TSetOps.FindId, TSetOps.Remove.
  rewrite <- (Matches_hash _ _ Hm), (FindIdByHash_congr _ _ Key Key' Hm).
  now rewrite FindIdByHash_RemoveByHash.
Qed.

(** Every element found live under its own key, in a single-value set. *)
Lemma FindValue_live s i e :
  TSetOps.WF s -> TSetOps.WellHashed s -> bAllowDuplicateKeys = false ->
  TSetOps.Get s i = Some e ->
  TSetOps.FindId s e.1 = Some i.
Proof.
  intros W WH Hdup G.
  destruct (TSetOps.FindId s e.1) as [j |] eqn:Hf.
  - pose proof Hf as Hf'. apply FindIdByHash_Some in Hf' as (_ & ej & Gj & Hm).
    f_equal. eapply (live_unique s j i ej e); eauto.
  - pose proof (Matches_refl e.1) as Hr.
    rewrite (proj1 (FindId_None_iff s e.1 W WH) Hf i e G) in Hr. discriminate.
Qed.

(** What removal does to each slot: it stays as it was, or it held an
    element equal to the key and is now a tombstone. *)
Lemma RemoveChain_slots Key h chain s i :
  TSetOps.Get (TSetOps.RemoveChain Key h chain s).1 i = TSetOps.Get s i \/
  (TSetOps.Get (TSetOps.RemoveChain Key h chain s).1 i = None /\
   TSetOps.MatchesAt s Key i = true).
Proof.
  revert s. induction chain as [| Id rest IH]; intros s; simpl; [auto |].
  destruct (TSetOps.MatchesAt s Key Id) eqn:Hm; [| apply IH].
  assert (H1 : TSetOps.Get (TSetOps.RemoveId s h Id) i = TSetOps.Get s i \/
               (TSetOps.Get (TSetOps.RemoveId s h Id) i = None /\
                TSetOps.MatchesAt s Key i = true)).
  { rewrite Get_RemoveId. case_decide; [subst; auto | auto]. }
  destruct bAllowDuplicateKeys; [| exact H1].
  specialize (IH (TSetOps.RemoveId s h Id)).
  destruct (TSetOps.RemoveChain Key h rest (TSetOps.RemoveId s h Id)) as [s2 n].
  simpl in *. destruct IH as [IH | [IH1 IH2]].
  - rewrite IH. exact H1.
  - right. split; [exact IH1 |].
    apply MatchesAt_Some in IH2 as (e & G & Hm').
    rewrite Get_RemoveId in G. case_decide; [discriminate |].
    apply MatchesAt_Some. eauto.
Qed.

End TSetFrame.


(** * Lookups after a mutation of the map *)

Section TMapBaseLaws.
Context {KeyType ValueType : Type} {KF : KeyFuncs KeyType} {KL : KeyFuncsLaws KF}.
Implicit Types (m : TMapBase KeyType ValueType).

Lemma FindRef_FindValue (D : ValueType) m Key :
  TMapBaseQueries.FindRef D m Key = default D (TSetOps.FindValue (Pairs m) Key).
Proof.
  unfold TMapBaseQueries.FindRef, TSetOps.FindValue, TSetOps.Find, TMapBaseOps.ValueAt.
  now destruct (TSetOps.FindId (Pairs m) Key).
Qed.

Lemma Contains_map_FindValue m Key :
  TSetOps.WF (Pairs m) ->
  TMapBaseOps.Contains m Key =
    match TSetOps.FindValue (Pairs m) Key with Some _ => true | None => false end.
Proof. intros W. unfold TMapBaseOps.Contains. now apply Contains_FindValue. Qed.

Lemma WF_Remove m Key :
  TSetOps.WF (Pairs m) -> TSetOps.WF (Pairs (TMapBaseOps.Remove m Key).1).
Proof.
  intros W. rewrite Pairs_Remove.
  now destruct (RemoveByHash_inv (Pairs m) (GetKeyHash Key) Key W) as [? _].
Qed.

Lemma Pairs_AddByHash m h k v :
  Pairs (TMapBaseOps.AddByHash m h k v).1 = (TSetOps.EmplaceByHash (Pairs m) h (k, v)).1 /\
  (TMapBaseOps.AddByHash m h k v).2 = (TSetOps.EmplaceByHash (Pairs m) h (k, v)).2.
Proof.
  unfold TMapBaseOps.AddByHash, TMapBaseOps.EmplaceByHash.
  now destruct (TSetOps.EmplaceByHash (Pairs m) h (k, v)).
Qed.

Lemma Pairs_RemoveByHash m h k :
  Pairs (TMapBaseOps.RemoveByHash m h k).1 = (TSetOps.RemoveByHash (Pairs m) h k).1.
Proof.
  unfold TMapBaseOps.RemoveByHash. now destruct (TSetOps.RemoveByHash (Pairs m) h k).
Qed.


End TMapBaseLaws.

(** X9. On every map state, after [Add(k, v)] a lookup of a key equal to
    [k] gives [v] and a lookup of any other key gives what it gave
    before: [FindRef] returns [v] or its former result, and [Contains]
    is true for the keys equal to [k] and unchanged for the others. *)
Theorem Add_then_lookup :
  forall (KeyType ValueType : Type) (KF : KeyFuncs KeyType),
    KeyFuncsLaws KF ->
    forall (D : ValueType) (m : TMapBase KeyType ValueType) (k k' : KeyType)
           (v : ValueType),
      TSetOps.WF (Pairs m) ->
      TMapBaseQueries.FindRef D (TMapBaseOps.Add m k v).1 k' =
        (if Matches k k' then v else TMapBaseQueries.FindRef D m k') /\
      TMapBaseOps.Contains (TMapBaseOps.Add m k v).1 k' =
        Matches k k' || TMapBaseOps.Contains m k'.
Proof.
  intros KeyType ValueType KF KL D m k k' v W.
  rewrite !FindRef_FindValue, !Contains_map_FindValue by (exact W || now apply WF_Add).
  rewrite Pairs_Add, FindValue_Emplace by exact W. simpl.
  now destruct (Matches k k').
Qed.

Lemma Add_then_lookup_witness :
  KeyFuncsLaws StringKeyFuncs /\
  TSetOps.WF (KF := StringKeyFuncs)
    (Pairs (TMapBaseOps.EmptyMap (KeyType := string) (ValueType := Z))) /\
  TMapBaseQueries.FindRef (KF := StringKeyFuncs) 0
    (TMapBaseOps.Add (KF := StringKeyFuncs) TMapBaseOps.EmptyMap "a"%string 5).1
    "b"%string = 0.
Proof.
  split; [exact StringKeyFuncs_laws |]. split; [exact WF_EmptyMap |].
  exact (proj1 (Add_then_lookup string Z StringKeyFuncs StringKeyFuncs_laws 0
                  TMapBaseOps.EmptyMap "a"%string "b"%string 5 WF_EmptyMap)).
Defined.

(** X10. On every map state, after [Remove(k)] a lookup of a key equal to
    [k] finds nothing and a lookup of any other key gives what it gave
    before: [FindRef] returns the default value or its former result, and
    [Contains] is false for the keys equal to [k] and unchanged for the
    others. *)
Theorem Remove_then_lookup :
  forall (KeyType ValueType : Type) (KF : KeyFuncs KeyType),
    KeyFuncsLaws KF ->
    forall (D : ValueType) (m : TMapBase KeyType ValueType) (k k' : KeyType),
      TSetOps.WF (Pairs m) ->
      TMapBaseQueries.FindRef D (TMapBaseOps.Remove m k).1 k' =
        (if Matches k k' then D else TMapBaseQueries.FindRef D m k') /\
      TMapBaseOps.Contains (TMapBaseOps.Remove m k).1 k' =
        negb (Matches k k') && TMapBaseOps.Contains m k'.
Proof.
  intros KeyType ValueType KF KL D m k k' W.
  rewrite !FindRef_FindValue, !Contains_map_FindValue by (exact W || now apply WF_Remove).
  rewrite Pairs_Remove. destruct (Matches k k') eqn:Hm.
  - now rewrite FindValue_Remove_same.
  - now rewrite FindValue_Remove_other.
Qed.

Lemma Remove_then_lookup_witness :
  KeyFuncsLaws StringKeyFuncs /\
  TSetOps.WF (KF := StringKeyFuncs)
    (Pairs (AddAll (KF := StringKeyFuncs) [("a"%string, 1); ("b"%string, 2)]
              TMapBaseOps.EmptyMap)) /\
  TMapBaseQueries.FindRef (KF := StringKeyFuncs) 0
    (TMapBaseOps.Remove (KF := StringKeyFuncs)
       (AddAll (KF := StringKeyFuncs) [("a"%string, 1); ("b"%string, 2)]
          TMapBaseOps.EmptyMap) "a"%string).1 "b"%string = 2.
Proof.
  pose proof (proj1 (AddAll_inv (KL := StringKeyFuncs_laws)
                       [("a"%string, 1); ("b"%string, 2)] TMapBaseOps.EmptyMap
                       WF_EmptyMap WellHashed_Empty)) as W.
  split; [exact StringKeyFuncs_laws |]. split; [exact W |].
  exact (proj1 (Remove_then_lookup string Z StringKeyFuncs StringKeyFuncs_laws 0
                  _ "a"%string "b"%string W)).
Defined.

(** X11. [Add(k, v)] makes [Num()] grow by one when duplicate keys are
    allowed or the map does not contain [k], and leaves it unchanged when
    a single-value map contains [k]. *)
Theorem Num_after_Add :
  forall (KeyType ValueType : Type) (KF : KeyFuncs KeyType),
    KeyFuncsLaws KF ->
    forall (m : TMapBase KeyType ValueType) (k : KeyType) (v : ValueType),
      TSetOps.WF (Pairs m) ->
      TMapBaseOps.Num (TMapBaseOps.Add m k v).1 =
        if bAllowDuplicateKeys || negb (TMapBaseOps.Contains m k)
        then TMapBaseOps.Num m + 1 else TMapBaseOps.Num m.
Proof.
  intros KeyType ValueType KF KL m k v W.
  unfold TMapBaseOps.Num. rewrite Pairs_Add. unfold TSetOps.Emplace.
  rewrite Num_EmplaceByHash by exact W. simpl.
  unfold TMapBaseOps.Contains, TSetOps.Contains, TSetOps.FindId.
  destruct bAllowDuplicateKeys; [reflexivity |].
  now destruct (TSetOps.FindIdByHash (Pairs m) (GetKeyHash k) k).
Qed.

Lemma Num_after_Add_witness :
  KeyFuncsLaws StringKeyFuncs /\
  TSetOps.WF (KF := StringKeyFuncs)
    (Pairs (TMapBaseOps.EmptyMap (KeyType := string) (ValueType := Z))) /\
  TMapBaseOps.Num (TMapBaseOps.Add (KF := StringKeyFuncs)
                     TMapBaseOps.EmptyMap "a"%string 5).1 = 0 + 1.
Proof.
  split; [exact StringKeyFuncs_laws |]. split; [exact WF_EmptyMap |].
  exact (Num_after_Add string Z StringKeyFuncs StringKeyFuncs_laws
           TMapBaseOps.EmptyMap "a"%string 5 WF_EmptyMap).
Defined.

(** X12. The by-hash operations given the key's own hash.  After
    [AddByHash(HashKey(k), k, v)], [FindByHash] under that hash with any
    comparable key equal to [k] returns the reference [AddByHash]
    returned, which holds [v]; [ContainsByHash] is true and [Find]
    returns the same reference.  After [RemoveByHash] under that hash
    with a comparable key equal to [k], [FindByHash], [ContainsByHash],
    [Find] and [Contains] of [k] find nothing. *)
Theorem ByHash_round_trip :
  forall (KeyType ValueType : Type) (KF : KeyFuncs KeyType),
    KeyFuncsLaws KF ->
    forall (m : TMapBase KeyType ValueType) (k k' : KeyType) (v : ValueType),
      TSetOps.WF (Pairs m) -> Matches k k' = true ->
      let h := TMapBaseOps.HashKey k in
      let a := TMapBaseOps.AddByHash m h k v in
      let r := TMapBaseOps.RemoveByHash m h k' in
      (TMapBaseOps.FindByHash a.1 h k' = Some a.2 /\
       TMapBaseOps.ValueAt a.1 a.2 = Some v /\
       TMapBaseQueries.ContainsByHash a.1 h k' = true /\
       TMapBaseOps.Find a.1 k' = Some a.2) /\
      (TMapBaseOps.FindByHash r.1 h k = None /\
       TMapBaseQueries.ContainsByHash r.1 h k = false /\
       TMapBaseOps.Find r.1 k = None /\
       TMapBaseOps.Contains r.1 k = false).
Proof.
  intros KeyType ValueType KF KL m k k' v W Hm h a r.
  assert (Hh : GetKeyHash k' = h) by (symmetry; now apply Matches_hash).
  split.
  - destruct (Pairs_AddByHash m h k v) as [HP Hr]. fold a in HP, Hr.
    destruct (FindIdByHash_EmplaceByHash (Pairs m) h (k, v) W) as (Hf & k0 & G & _).
    rewrite <- HP, <- Hr in Hf, G. simpl in Hf, G.
    assert (Hf' : TSetOps.FindIdByHash (Pairs a.1) h k' = Some a.2)
      by (rewrite (FindIdByHash_congr (Pairs a.1) h k k' Hm); exact Hf).
    rewrite FindByHash_eq, Find_eq.
    unfold TMapBaseQueries.ContainsByHash, TSetQueries.ContainsByHash,
      TMapBaseOps.ValueAt, TSetOps.FindId.
    rewrite Hh, Hf', G. auto.
  - assert (HP : Pairs r.1 = (TSetOps.RemoveByHash (Pairs m) h k').1)
      by apply Pairs_RemoveByHash.
    assert (Hf : TSetOps.FindIdByHash (Pairs r.1) h k = None).
    { rewrite <- (FindIdByHash_congr (Pairs r.1) h k k' Hm), HP.
      now apply FindIdByHash_RemoveByHash. }
    rewrite FindByHash_eq, Find_eq.
    unfold TMapBaseQueries.ContainsByHash, TSetQueries.ContainsByHash,
      TMapBaseOps.Contains, TSetOps.Contains, TSetOps.FindId.
    change (GetKeyHash k) with h. rewrite Hf. auto.
Qed.

Lemma ByHash_round_trip_witness :
  KeyFuncsLaws StringKeyFuncs /\
  TSetOps.WF (KF := StringKeyFuncs)
    (Pairs (TMapBaseOps.EmptyMap (KeyType := string) (ValueType := Z))) /\
  Matches (KeyFuncs := StringKeyFuncs) "a"%string "a"%string = true /\
  TMapBaseOps.ValueAt
    (TMapBaseOps.AddByHash (KF := StringKeyFuncs) TMapBaseOps.EmptyMap
       (TMapBaseOps.HashKey (KF := StringKeyFuncs) "a"%string) "a"%string 5).1
    (TMapBaseOps.AddByHash (KF := StringKeyFuncs) TMapBaseOps.EmptyMap
       (TMapBaseOps.HashKey (KF := StringKeyFuncs) "a"%string) "a"%string 5).2
  = Some 5.
Proof.
  split; [exact StringKeyFuncs_laws |]. split; [exact WF_EmptyMap |].
  split; [reflexivity |].
  exact (proj1 (proj2 (proj1 (ByHash_round_trip string Z StringKeyFuncs StringKeyFuncs_laws
                                TMapBaseOps.EmptyMap "a"%string "a"%string 5
                                WF_EmptyMap eq_refl)))).
Defined.

(** X14. [FindOrAdd(k, d)] does not overwrite: when [Find(k)] finds a
    value it returns the same pointer and leaves the map as it is; when
    [Find(k)] finds nothing it inserts [d], so that [Num()] grows by one,
    the returned reference holds [d], [Find(k)] returns that reference,
    and lookups of other keys are unchanged. *)
Theorem FindOrAdd_finds_or_inserts :
  forall (KeyType ValueType : Type) (KF : KeyFuncs KeyType),
    KeyFuncsLaws KF ->
    forall (D : ValueType) (m : TMapBase KeyType ValueType) (k : KeyType)
           (d : ValueType),
      TSetOps.WF (Pairs m) ->
      (forall p, TMapBaseOps.Find m k = Some p ->
         TMapBaseOps.FindOrAdd m k d = (m, p)) /\
      (TMapBaseOps.Find m k = None ->
         let r := TMapBaseOps.FindOrAdd m k d in
         TMapBaseOps.Num r.1 = TMapBaseOps.Num m + 1 /\
         TMapBaseOps.ValueAt r.1 r.2 = Some d /\
         TMapBaseOps.Find r.1 k = Some r.2 /\
         forall k', Matches k k' = false ->
           TMapBaseQueries.FindRef D r.1 k' = TMapBaseQueries.FindRef D m k').
Proof.
  intros KeyType ValueType KF KL D m k d W. split.
  - intros p Hf. rewrite Find_eq in Hf.
    unfold TMapBaseOps.FindOrAdd, TMapBaseOps.FindOrAddImpl, TSetOps.FindByHash,
      TMapBaseOps.HashKey.
    unfold TSetOps.FindId in Hf. now rewrite Hf.
  - intros Hf r. rewrite Find_eq in Hf. unfold TSetOps.FindId in Hf.
    assert (Hr : r = TMapBaseOps.AddByHash m (GetKeyHash k) k d).
    { subst r. unfold TMapBaseOps.FindOrAdd, TMapBaseOps.FindOrAddImpl,
        TSetOps.FindByHash, TMapBaseOps.HashKey. now rewrite Hf. }
    destruct (Pairs_AddByHash m (GetKeyHash k) k d) as [HP Href].
    rewrite <- Hr in HP, Href.
    destruct (FindIdByHash_EmplaceByHash (Pairs m) (GetKeyHash k) (k, d) W)
      as (Hf' & k0 & G & _).
    rewrite <- HP, <- Href in Hf', G. simpl in Hf', G.
    split; [| split; [| split]].
    + unfold TMapBaseOps.Num. rewrite HP, Num_EmplaceByHash by exact W. simpl.
      rewrite Hf. now destruct bAllowDuplicateKeys.
    + unfold TMapBaseOps.ValueAt. now rewrite G.
    + rewrite Find_eq. exact Hf'.
    + intros k' Hne. rewrite !FindRef_FindValue, HP.
      change (TSetOps.EmplaceByHash (Pairs m) (GetKeyHash k) (k, d))
        with (TSetOps.Emplace (Pairs m) (k, d)).
      rewrite FindValue_Emplace by exact W. simpl. now rewrite Hne.
Qed.

Lemma FindOrAdd_finds_or_inserts_witness :
  KeyFuncsLaws StringKeyFuncs /\
  TSetOps.WF (KF := StringKeyFuncs)
    (Pairs (TMapBaseOps.EmptyMap (KeyType := string) (ValueType := Z))) /\
  TMapBaseOps.Find (KF := StringKeyFuncs)
    (TMapBaseOps.EmptyMap (ValueType := Z)) "a"%string = None /\
  TMapBaseOps.Num
    (TMapBaseOps.FindOrAdd (KF := StringKeyFuncs) TMapBaseOps.EmptyMap "a"%string 7).1
  = 0 + 1.
Proof.
  split; [exact StringKeyFuncs_laws |]. split; [exact WF_EmptyMap |].
  split; [reflexivity |].
  exact (proj1 (proj2 (FindOrAdd_finds_or_inserts string Z StringKeyFuncs
                         StringKeyFuncs_laws 0 TMapBaseOps.EmptyMap "a"%string 7
                         WF_EmptyMap) eq_refl)).
Defined.

(** X15. [FindChecked(k)] returns the reference [Find(k)] found whenever
    the map contains [k], in every build.  When the map does not contain
    [k], a build that compiles [check] in stops at the failed assertion,
    and a build that compiles it out goes on to read the value through a
    null pointer.  So right after [Add(k, v)] it returns the reference
    [Add] returned in every build, and right after [Remove(k)] it fails
    the assertion or, without it, reads through the null pointer. *)
Theorem FindChecked_asserts_presence :
  forall (KeyType ValueType : Type) (KF : KeyFuncs KeyType),
    KeyFuncsLaws KF ->
    forall (DO_CHECK : bool) (m : TMapBase KeyType ValueType) (k : KeyType)
           (v : ValueType),
      TSetOps.WF (Pairs m) ->
      (forall p, TMapBaseQueries.FindChecked DO_CHECK m k = TMapBaseQueries.Checked p <->
                 TMapBaseOps.Find m k = Some p) /\
      (TMapBaseQueries.FindChecked DO_CHECK m k = TMapBaseQueries.CheckFailed <->
       DO_CHECK = true /\ TMapBaseOps.Contains m k = false) /\
      (TMapBaseQueries.FindChecked DO_CHECK m k = TMapBaseQueries.NullDereference <->
       DO_CHECK = false /\ TMapBaseOps.Contains m k = false) /\
      TMapBaseQueries.FindChecked DO_CHECK (TMapBaseOps.Add m k v).1 k =
        TMapBaseQueries.Checked (TMapBaseOps.Add m k v).2 /\
      TMapBaseQueries.FindChecked DO_CHECK (TMapBaseOps.Remove m k).1 k =
        (if DO_CHECK then TMapBaseQueries.CheckFailed
         else TMapBaseQueries.NullDereference).
Proof.
  intros KeyType ValueType KF KL DO_CHECK m k v W.
  unfold TMapBaseQueries.FindChecked, TMapBaseOps.Contains, TSetOps.Contains, TSetOps.Find.
  split; [| split; [| split; [| split]]].
  - intros p. rewrite Find_eq.
    destruct (TSetOps.FindId (Pairs m) k), DO_CHECK; simpl; split; congruence.
  - destruct (TSetOps.FindId (Pairs m) k), DO_CHECK; simpl; intuition congruence.
  - destruct (TSetOps.FindId (Pairs m) k), DO_CHECK; simpl; intuition congruence.
  - rewrite Pairs_Add, ref_Add.
    destruct (FindIdByHash_EmplaceByHash (Pairs m) (GetKeyHash k) (k, v) W) as (Hf & _).
    unfold TSetOps.FindId, TSetOps.Emplace. simpl in *. rewrite Hf.
    now destruct DO_CHECK.
  - rewrite Pairs_Remove. unfold TSetOps.FindId, TSetOps.Remove.
    rewrite FindIdByHash_RemoveByHash by exact W. now destruct DO_CHECK.
Qed.

Lemma FindChecked_asserts_presence_witness :
  KeyFuncsLaws StringKeyFuncs /\
  TSetOps.WF (KF := StringKeyFuncs)
    (Pairs (TMapBaseOps.EmptyMap (KeyType := string) (ValueType := Z))) /\
  TMapBaseQueries.FindChecked (KF := StringKeyFuncs) false
    (TMapBaseOps.Remove (KF := StringKeyFuncs)
       (TMapBaseOps.EmptyMap (ValueType := Z)) "a"%string).1 "a"%string
  = TMapBaseQueries.NullDereference.
Proof.
  split; [exact StringKeyFuncs_laws |]. split; [exact WF_EmptyMap |].
  exact (proj2 (proj2 (proj2 (proj2 (FindChecked_asserts_presence string Z StringKeyFuncs
                         StringKeyFuncs_laws false TMapBaseOps.EmptyMap "a"%string 0
                         WF_EmptyMap))))).
Defined.


(** * Slot identifiers, emptiness, self comparison and reverse lookup *)

Section TMapBaseSlots.
Context {KeyType ValueType : Type} {KF : KeyFuncs KeyType}.
Implicit Types (m : TMapBase KeyType ValueType) (s : TSet KeyType ValueType).

Lemma RemoveChain_removes_found Key h chain s p :
  List.find (TSetOps.MatchesAt s Key) chain = Some p ->
  TSetOps.Get (TSetOps.RemoveChain Key h chain s).1 p = None.
Proof.
  revert s. induction chain as [| Id rest IH]; intros s; simpl; [discriminate |].
  destruct (TSetOps.MatchesAt s Key Id) eqn:Hm.
  - intros [= ->]. destruct bAllowDuplicateKeys.
    + pose proof (RemoveChain_slots Key h rest (TSetOps.RemoveId s h p) p) as Hs.
      destruct (TSetOps.RemoveChain Key h rest (TSetOps.RemoveId s h p)) as [s2 n].
      simpl in *. destruct Hs as [Hs | [Hs _]]; [| exact Hs].
      rewrite Hs, Get_RemoveId. now rewrite decide_True.
    + simpl. rewrite Get_RemoveId. now rewrite decide_True.
  - apply IH.
Qed.

Lemma Get_EmplaceByHash_valid s h e Id x :
  TSetOps.WF s -> TSetOps.Get s Id = Some x ->
  exists v', TSetOps.Get (TSetOps.EmplaceByHash s h e).1 Id = Some (x.1, v') /\
             (Id <> (TSetOps.EmplaceByHash s h e).2 -> v' = x.2).
Proof.
  intros W G.
  assert (HNew : exists v', TSetOps.Get (TSetOps.AddNew s h e).1 Id = Some (x.1, v') /\
                            (Id <> (TSetOps.AddNew s h e).2 -> v' = x.2)).
  { exists x.2. rewrite Get_AddNew by exact W. case_decide as Hd.
    - pose proof (AddNew_id_fresh s h e W) as Hf. rewrite <- Hd in Hf. congruence.
    - split; [now destruct x | reflexivity]. }
  unfold TSetOps.EmplaceByHash. destruct bAllowDuplicateKeys; [exact HNew |].
  destruct (TSetOps.FindIdByHash s h e.1) as [Id0 |]; [| exact HNew]. simpl.
  rewrite Get_ReplaceValue. case_decide as Hd.
  - subst Id0. rewrite G. simpl. exists e.2. split; [reflexivity | congruence].
  - exists x.2. split; [now destruct x | reflexivity].
Qed.

Lemma Contains_live s Key :
  TSetOps.Contains s Key = true -> exists e, e ∈ TSetOps.LivePairs s.
Proof.
  unfold TSetOps.Contains, TSetOps.FindId.
  destruct (TSetOps.FindIdByHash s (GetKeyHash Key) Key) as [i |] eqn:Hf; [| discriminate].
  intros _. apply FindIdByHash_Some in Hf as (_ & e & G & _).
  exists e. apply elem_of_LivePairs. eauto.
Qed.

Lemma IsEmpty_LivePairs s : TSetQueries.IsEmpty s = true <-> TSetOps.LivePairs s = [].
Proof.
  unfold TSetQueries.IsEmpty, TSetOps.Num. rewrite Z.eqb_eq.
  destruct (TSetOps.LivePairs s); simpl; split; intros; (reflexivity || lia || discriminate).
Qed.

End TMapBaseSlots.



(** X17. Slot identifiers are stable.  An identifier that is valid before
    [Add(k, v)] is valid afterwards and still names the same key, and,
    unless it is the slot [Add] returns, the same pair; [Remove(k)]
    leaves every pair whose key is not equal to [k] under its identifier,
    invalidates the identifier that [Find(k)] returned, and changes no
    slot that is still valid afterwards. *)
Theorem Ids_stable_under_Add_and_Remove :
  forall (KeyType ValueType : Type) (KF : KeyFuncs KeyType)
         (m : TMapBase KeyType ValueType) (k : KeyType) (v : ValueType),
    TSetOps.WF (Pairs m) ->
    (forall Id x, TMapBaseQueries.Get m Id = Some x ->
       TMapBaseQueries.IsValidId (TMapBaseOps.Add m k v).1 Id = true /\
       fst <$> TMapBaseQueries.Get (TMapBaseOps.Add m k v).1 Id = Some x.1 /\
       (Id <> (TMapBaseOps.Add m k v).2 ->
        TMapBaseQueries.Get (TMapBaseOps.Add m k v).1 Id = Some x) /\
       (Matches x.1 k = false ->
        TMapBaseQueries.Get (TMapBaseOps.Remove m k).1 Id = Some x)) /\
    (forall p, TMapBaseOps.Find m k = Some p ->
       TMapBaseQueries.IsValidId (TMapBaseOps.Remove m k).1 p = false) /\
    (forall Id, TMapBaseQueries.IsValidId (TMapBaseOps.Remove m k).1 Id = true ->
       TMapBaseQueries.Get (TMapBaseOps.Remove m k).1 Id = TMapBaseQueries.Get m Id).
Proof.
  intros KeyType ValueType KF m k v W.
  unfold TMapBaseQueries.IsValidId, TSetQueries.IsValidId, TMapBaseQueries.Get.
  rewrite Pairs_Add, ref_Add, Pairs_Remove.
  unfold TSetOps.Emplace, TSetOps.Remove, TSetOps.RemoveByHash.
  split; [| split].
  - intros Id x G.
    destruct (Get_EmplaceByHash_valid (Pairs m) (GetKeyHash (k, v).1) (k, v) Id x W G)
      as (v' & G' & Hv).
    rewrite G'. simpl. split; [reflexivity |]. split; [reflexivity |].
    split.
    + intros Hne. rewrite (Hv Hne). now destruct x.
    + intros Hm.
      destruct (RemoveChain_slots k (GetKeyHash k) (TSetOps.Bucket (Pairs m) (GetKeyHash k))
                  (Pairs m) Id) as [Hs | [_ Hs]]; [now rewrite Hs |].
      apply MatchesAt_Some in Hs as (e & Ge & He). congruence.
  - intros p Hf. rewrite Find_eq in Hf. unfold TSetOps.FindId, TSetOps.FindIdByHash in Hf.
    now rewrite (RemoveChain_removes_found k (GetKeyHash k) _ (Pairs m) p Hf).
  - intros Id Hv.
    destruct (RemoveChain_slots k (GetKeyHash k) (TSetOps.Bucket (Pairs m) (GetKeyHash k))
                (Pairs m) Id) as [Hs | [Hs _]]; [exact Hs |].
    rewrite Hs in Hv. discriminate.
Qed.

Lemma Ids_stable_under_Add_and_Remove_witness :
  TSetOps.WF (KF := StringKeyFuncs)
    (Pairs (TMapBaseOps.Add (KF := StringKeyFuncs)
              (TMapBaseOps.EmptyMap (ValueType := Z)) "a"%string 1).1) /\
  TMapBaseQueries.Get
    (TMapBaseOps.Add (KF := StringKeyFuncs)
       (TMapBaseOps.Add (KF := StringKeyFuncs)
          (TMapBaseOps.EmptyMap (ValueType := Z)) "a"%string 1).1 "b"%string 2).1 0%nat
  = Some ("a"%string, 1).
Proof.
  pose proof (WF_Add (KL := StringKeyFuncs_laws) (ValueType := Z)
                TMapBaseOps.EmptyMap "a"%string 1 WF_EmptyMap) as W.
  split; [exact W |].
  refine (proj1 (proj2 (proj2 (proj1 (Ids_stable_under_Add_and_Remove string Z
            StringKeyFuncs _ "b"%string 2 W) 0%nat ("a"%string, 1) eq_refl))) _).
  vm_compute. discriminate.
Defined.

(** X18. [IsEmpty()] is [Num() == 0]; an empty map contains no key, and a
    map in which every element is linked under its own key's hash is
    empty as soon as it contains no key.  After [Add] the map is not
    empty; after [Reset] and after [Empty] it is. *)
Theorem IsEmpty_iff_nothing_contained :
  forall (KeyType ValueType : Type) (KF : KeyFuncs KeyType),
    KeyFuncsLaws KF ->
    forall (m : TMapBase KeyType ValueType) (k : KeyType) (v : ValueType) (n : Z),
      TSetOps.WF (Pairs m) ->
      (TMapBaseQueries.IsEmpty m = true -> forall k', TMapBaseOps.Contains m k' = false) /\
      (TSetOps.WellHashed (Pairs m) ->
       (forall k', TMapBaseOps.Contains m k' = false) -> TMapBaseQueries.IsEmpty m = true) /\
      TMapBaseQueries.IsEmpty (TMapBaseOps.Add m k v).1 = false /\
      TMapBaseQueries.IsEmpty (TMapBaseQueries.Reset m) = true /\
      TMapBaseQueries.IsEmpty (TMapBaseQueries.Empty m n) = true.
Proof.
  intros KeyType ValueType KF KL m k v n W.
  assert (Hnone : forall m0 : TMapBase KeyType ValueType,
            TMapBaseQueries.IsEmpty m0 = true ->
            forall k', TMapBaseOps.Contains m0 k' = false).
  { intros m0 He k'. apply IsEmpty_LivePairs in He.
    destruct (TMapBaseOps.Contains m0 k') eqn:Hc; [| reflexivity].
    apply Contains_live in Hc as (e & Hin). rewrite He in Hin. inversion Hin. }
  split; [apply Hnone |]. split; [| split; [| split; reflexivity]].
  - intros WH Hall. unfold TMapBaseQueries.IsEmpty. apply IsEmpty_LivePairs.
    destruct (TSetOps.LivePairs (Pairs m)) as [| e l] eqn:HL; [reflexivity |].
    assert (Hin : e ∈ TSetOps.LivePairs (Pairs m)) by (rewrite HL; left).
    apply elem_of_LivePairs in Hin as (i & G).
    specialize (Hall e.1). unfold TMapBaseOps.Contains, TSetOps.Contains in Hall.
    destruct (TSetOps.FindId (Pairs m) e.1) eqn:Hf; [discriminate |].
    pose proof (proj1 (FindId_None_iff (Pairs m) e.1 W WH) Hf i e G) as Hm.
    rewrite Matches_refl in Hm. discriminate.
  - destruct (TMapBaseQueries.IsEmpty (TMapBaseOps.Add m k v).1) eqn:He; [| reflexivity].
    pose proof (Hnone _ He k) as Hc. unfold TMapBaseOps.Contains in Hc.
    rewrite Pairs_Add in Hc.
    change (TSetOps.Emplace (Pairs m) (k, v)) with (TSetOps.Add (Pairs m) (k, v)) in Hc.
    rewrite Contains_Add in Hc by exact W. simpl in Hc.
    rewrite Matches_refl in Hc. discriminate.
Qed.

Lemma IsEmpty_iff_nothing_contained_witness :
  KeyFuncsLaws StringKeyFuncs /\
  TSetOps.WF (KF := StringKeyFuncs)
    (Pairs (TMapBaseOps.EmptyMap (KeyType := string) (ValueType := Z))) /\
  TMapBaseQueries.IsEmpty
    (TMapBaseOps.Add (KF := StringKeyFuncs)
       (TMapBaseOps.EmptyMap (ValueType := Z)) "a"%string 1).1 = false.
Proof.
  split; [exact StringKeyFuncs_laws |]. split; [exact WF_EmptyMap |].
  exact (proj1 (proj2 (proj2 (IsEmpty_iff_nothing_contained string Z StringKeyFuncs
                                StringKeyFuncs_laws TMapBaseOps.EmptyMap "a"%string 1 0
                                WF_EmptyMap)))).
Defined.

(** X19. Comparing a map with itself.  A single-value map whose elements
    are linked under their own keys' hashes compares equal to itself
    under [OrderIndependentCompareEqual] exactly when every stored value
    compares equal to itself, so always under a reflexive value equality.
    A map that holds, under two equal keys, two values that no value
    equals both does not compare equal to itself, whatever its state. *)
Theorem OrderIndependentCompareEqual_self :
  forall (KeyType ValueType : Type) (KF : KeyFuncs KeyType),
    KeyFuncsLaws KF ->
    forall (ValueEq : ValueType -> ValueType -> bool)
           (m : TMapBase KeyType ValueType),
      (TSetOps.WF (Pairs m) -> TSetOps.WellHashed (Pairs m) ->
       bAllowDuplicateKeys = false ->
       (TMapBaseOps.OrderIndependentCompareEqual ValueEq m m = true <->
        forall e, e ∈ TMapBaseQueries.Array m -> ValueEq e.2 e.2 = true) /\
       ((forall a, ValueEq a a = true) ->
        TMapBaseOps.OrderIndependentCompareEqual ValueEq m m = true)) /\
      (forall i j ei ej,
         TMapBaseQueries.Get m i = Some ei -> TMapBaseQueries.Get m j = Some ej ->
         Matches ei.1 ej.1 = true ->
         (forall b, ValueEq b ei.2 = true -> ValueEq b ej.2 = false) ->
         TMapBaseOps.OrderIndependentCompareEqual ValueEq m m = false).
Proof.
  intros KeyType ValueType KF KL ValueEq m. split.
  - intros W WH Hsingle.
    assert (Hiff : TMapBaseOps.OrderIndependentCompareEqual ValueEq m m = true <->
                   forall e, e ∈ TMapBaseQueries.Array m -> ValueEq e.2 e.2 = true).
    { unfold TMapBaseQueries.Array, TSetQueries.Array.
      rewrite OrderIndependentCompareEqual_true_iff. split.
      - intros [_ Hall] [k v] Hin. simpl.
        destruct (Hall k v Hin) as (p & b & Hf & Hv & He).
        apply elem_of_LivePairs in Hin as (i & G).
        pose proof (FindValue_live (Pairs m) i (k, v) W WH Hsingle G) as Hl.
        simpl in Hl. rewrite Find_eq, Hl in Hf. injection Hf as <-.
        unfold TMapBaseOps.ValueAt in Hv. rewrite G in Hv. simpl in Hv.
        injection Hv as <-. exact He.
      - intros Hrefl. split; [reflexivity |]. intros k v Hin.
        pose proof (Hrefl (k, v) Hin) as He.
        apply elem_of_LivePairs in Hin as (i & G).
        exists i, v. rewrite Find_eq.
        pose proof (FindValue_live (Pairs m) i (k, v) W WH Hsingle G) as Hl.
        simpl in Hl. rewrite Hl.
        unfold TMapBaseOps.ValueAt. rewrite G. auto. }
    split; [exact Hiff |]. intros Hrefl. apply Hiff. intros e _. apply Hrefl.
  - intros i j ei ej Gi Gj Hm Hno. unfold TMapBaseQueries.Get in *.
    destruct (TMapBaseOps.OrderIndependentCompareEqual ValueEq m m) eqn:Hc; [| reflexivity].
    apply OrderIndependentCompareEqual_true_iff in Hc as (_ & Hall).
    destruct (Hall ei.1 ei.2) as (p & b & Hf & Hv & He).
    { apply elem_of_LivePairs. exists i. now destruct ei. }
    destruct (Hall ej.1 ej.2) as (p' & b' & Hf' & Hv' & He').
    { apply elem_of_LivePairs. exists j. now destruct ej. }
    rewrite Find_eq in Hf, Hf'. unfold TSetOps.FindId in Hf, Hf'.
    rewrite <- (Matches_hash _ _ Hm) in Hf'.
    rewrite (FindIdByHash_congr (Pairs m) (GetKeyHash ei.1) ei.1 ej.1 Hm) in Hf'.
    assert (p' = p) by congruence. subst p'.
    assert (b' = b) by congruence. subst b'.
    rewrite (Hno b He) in He'. discriminate.
Qed.

Lemma OrderIndependentCompareEqual_self_witness :
  KeyFuncsLaws StringKeyFuncs /\
  TSetOps.WF (KF := StringKeyFuncs)
    (Pairs (AddAll (KF := StringKeyFuncs) [("a"%string, 1); ("b"%string, 2)]
              TMapBaseOps.EmptyMap)) /\
  TSetOps.WellHashed (KF := StringKeyFuncs)
    (Pairs (AddAll (KF := StringKeyFuncs) [("a"%string, 1); ("b"%string, 2)]
              TMapBaseOps.EmptyMap)) /\
  TMapBaseOps.OrderIndependentCompareEqual (KF := StringKeyFuncs) Z.eqb
    (AddAll (KF := StringKeyFuncs) [("a"%string, 1); ("b"%string, 2)] TMapBaseOps.EmptyMap)
    (AddAll (KF := StringKeyFuncs) [("a"%string, 1); ("b"%string, 2)] TMapBaseOps.EmptyMap)
  = true.
Proof.
  destruct (AddAll_inv (KL := StringKeyFuncs_laws)
              [("a"%string, 1); ("b"%string, 2)] TMapBaseOps.EmptyMap
              WF_EmptyMap WellHashed_Empty) as [W WH].
  split; [exact StringKeyFuncs_laws |]. split; [exact W |]. split; [exact WH |].
  exact (proj2 (proj1 (OrderIndependentCompareEqual_self string Z StringKeyFuncs
                         StringKeyFuncs_laws Z.eqb _) W WH eq_refl) Z.eqb_refl).
Defined.

(** X20. [FindKey(v)] returns null exactly when no pair of the map has a
    value equal to [v]; a key it returns is the key of a pair whose value
    equals [v], and in a single-value map whose elements are linked under
    their own hashes [Find] of that key reaches a value equal to [v]. *)
Theorem FindKey_returns_key_of_equal_value :
  forall (KeyType ValueType : Type) (KF : KeyFuncs KeyType),
    KeyFuncsLaws KF ->
    forall (ValueEq : ValueType -> ValueType -> bool)
           (m : TMapBase KeyType ValueType) (v : ValueType),
      (TMapBaseQueries.FindKey ValueEq m v = None <->
       forall e, e ∈ TMapBaseQueries.Array m -> ValueEq e.2 v = false) /\
      (forall k, TMapBaseQueries.FindKey ValueEq m v = Some k ->
         (exists v', (k, v') ∈ TMapBaseQueries.Array m /\ ValueEq v' v = true) /\
         (TSetOps.WF (Pairs m) -> TSetOps.WellHashed (Pairs m) ->
          bAllowDuplicateKeys = false ->
          exists p v', TMapBaseOps.Find m k = Some p /\
                       TMapBaseOps.ValueAt m p = Some v' /\ ValueEq v' v = true)).
Proof.
  intros KeyType ValueType KF KL ValueEq m v.
  unfold TMapBaseQueries.FindKey, TMapBaseQueries.Array, TSetQueries.Array. split.
  - rewrite <- find_None_elem.
    destruct (List.find _ (TSetOps.LivePairs (Pairs m))); simpl; split; congruence.
  - intros k Hk.
    destruct (List.find _ (TSetOps.LivePairs (Pairs m))) as [[k0 v0] |] eqn:Hf;
      [| discriminate].
    simpl in Hk. injection Hk as ->.
    apply find_Some_elem in Hf as [Hin He]. simpl in He. split; [eauto |].
    intros W WH Hsingle. apply elem_of_LivePairs in Hin as (i & G).
    exists i, v0. rewrite Find_eq.
    pose proof (FindValue_live (Pairs m) i (k, v0) W WH Hsingle G) as Hl.
    simpl in Hl. rewrite Hl.
    unfold TMapBaseOps.ValueAt. rewrite G. auto.
Qed.

Lemma FindKey_returns_key_of_equal_value_witness :
  KeyFuncsLaws StringKeyFuncs /\
  TMapBaseQueries.FindKey Z.eqb
    (AddAll (KF := StringKeyFuncs) [("a"%string, 1); ("b"%string, 2)] TMapBaseOps.EmptyMap)
    2 = Some "b"%string /\
  exists v', ("b"%string, v') ∈
               TMapBaseQueries.Array
                 (AddAll (KF := StringKeyFuncs) [("a"%string, 1); ("b"%string, 2)]
                    TMapBaseOps.EmptyMap) /\
             Z.eqb v' 2 = true.
Proof.
  split; [exact StringKeyFuncs_laws |]. split; [reflexivity |].
  exact (proj1 (proj2 (FindKey_returns_key_of_equal_value string Z StringKeyFuncs
                         StringKeyFuncs_laws Z.eqb
                         (AddAll (KF := StringKeyFuncs)
                            [("a"%string, 1); ("b"%string, 2)] TMapBaseOps.EmptyMap) 2)
                  "b"%string eq_refl)).
Defined.


(** * Traversals: filtering and the generated arrays *)

Section AppendRuns.
Context {KeyType ValueType : Type} {KF : KeyFuncs KeyType} {KL : KeyFuncsLaws KF}.
Implicit Types (m : TMapBase KeyType ValueType) (s : TSet KeyType ValueType).
Implicit Types (ops : list (KeyType * ValueType)).

Lemma DistinctKeys_live (l : list (option (KeyType * ValueType))) :
  (forall i j ei ej, l !! i = Some (Some ei) -> l !! j = Some (Some ej) ->
                     Matches ei.1 ej.1 = true -> i = j) ->
  DistinctKeys (omap (fun e => e) l).
Proof.
  induction l as [| a l IH]; intros H; [exact I |].
  assert (Hl : forall i j ei ej, l !! i = Some (Some ei) -> l !! j = Some (Some ej) ->
                                 Matches ei.1 ej.1 = true -> i = j).
  { intros i j ei ej Hi Hj Hm. specialize (H (S i) (S j) ei ej Hi Hj Hm). lia. }
  destruct a as [e |].
  - change (DistinctKeys (e :: omap (fun e => e) l)). split; [| apply IH, Hl].
    intros kv' Hin. apply elem_of_live in Hin as (j & Hj).
    destruct (Matches e.1 kv'.1) eqn:Hm; [| reflexivity].
    specialize (H 0%nat (S j) e kv' eq_refl Hj Hm). discriminate.
  - change (DistinctKeys (omap (fun e => e) l)). apply IH, Hl.
Qed.

Lemma DistinctKeys_LivePairs s :
  TSetOps.WF s -> TSetOps.WellHashed s -> bAllowDuplicateKeys = false ->
  DistinctKeys (TSetOps.LivePairs s).
Proof.
  intros W WH D. apply DistinctKeys_live. intros i j ei ej Hi Hj Hm.
  apply (live_unique s i j ei ej W WH D); [now apply Get_Some_iff .. | exact Hm].
Qed.

Lemma DistinctKeys_filter (Pred : KeyType * ValueType -> bool) ops :
  DistinctKeys ops -> DistinctKeys (List.filter Pred ops).
Proof.
  induction ops as [| a ops IH]; simpl; [auto |]. intros [Ha Hr].
  destruct (Pred a); simpl; [split |]; auto.
  intros kv' Hin. apply Ha. apply list_elem_of_In in Hin.
  apply List.filter_In in Hin as [Hin _]. now apply list_elem_of_In.
Qed.

Lemma FilterByPredicate_AddAll m (Pred : KeyType * ValueType -> bool) :
  TMapBaseQueries.FilterByPredicate m Pred =
    AddAll (List.filter Pred (TSetOps.LivePairs (Pairs m))) TMapBaseOps.EmptyMap.
Proof.
  unfold TMapBaseQueries.FilterByPredicate, TMapBaseQueries.Reserve, TSetOps.Reserve.
  change {| Pairs := Pairs TMapBaseOps.EmptyMap |}
    with (TMapBaseOps.EmptyMap (KeyType := KeyType) (ValueType := ValueType)).
  generalize (TMapBaseOps.EmptyMap (KeyType := KeyType) (ValueType := ValueType)).
  induction (TSetOps.LivePairs (Pairs m)) as [| a l IH]; intros R; simpl; [reflexivity |].
  destruct (Pred a); simpl; apply IH.
Qed.

(** The loop of [GetKeys] over pairs with pairwise different keys appends
    every key.  Here [KF] is the key strategy of the visited set. *)
Lemma GetKeysLoop_distinct (It : list (KeyType * ValueType)) (Out : list KeyType)
    (Vs : TSet KeyType unit) :
  TSetOps.WF Vs -> TSetOps.WellHashed Vs ->
  (forall (e : KeyType * unit) (kv : KeyType * ValueType),
     e ∈ TSetOps.LivePairs Vs -> kv ∈ It -> Matches e.1 kv.1 = false) ->
  DistinctKeys It ->
  (TMapBaseOps.GetKeysLoop KF It Out Vs).1 = Out ++ It.*1.
Proof.
  revert Out Vs. induction It as [| [Key v] rest IH]; intros Out Vs W WH Hold Hd.
  - simpl. now rewrite app_nil_r.
  - destruct Hd as [Hhead Hrest]. simpl.
    assert (Hc : TSetOps.Contains Vs Key = false).
    { unfold TSetOps.Contains.
      rewrite (proj2 (FindId_None_iff Vs Key W WH)); [reflexivity |].
      intros i e G. apply (Hold e (Key, v)); [apply elem_of_LivePairs; eauto | left]. }
    rewrite Hc. simpl. rewrite IH.
    + unfold TArray_Add. now rewrite <- app_assoc.
    + now apply WF_Emplace.
    + now apply WellHashed_Emplace.
    + intros e kv He Hkv. apply keys_Emplace in He as [He | (e0 & He0 & He)]; [| | exact W].
      * rewrite He. simpl. apply (Hhead kv Hkv).
      * rewrite He. apply Hold; [exact He0 | now right].
    + exact Hrest.
Qed.

End AppendRuns.

Lemma DistinctKeys_transfer {KeyType ValueType : Type} (KF DKF : KeyFuncs KeyType)
    (ops : list (KeyType * ValueType)) :
  (forall a b, Matches (KeyFuncs := DKF) a b = Matches (KeyFuncs := KF) a b) ->
  DistinctKeys (KF := KF) ops -> DistinctKeys (KF := DKF) ops.
Proof.
  intros Hag. induction ops as [| a ops IH]; simpl; [auto |].
  intros [Ha Hr]. split; [| auto]. intros kv' Hin. rewrite Hag. now apply Ha.
Qed.

Lemma foldl_TArray_Add {A B : Type} (f : A -> B) (l : list A) (acc : list B) :
  foldl (fun (Out : list B) (x : A) => TArray_Add Out (f x)) acc l = acc ++ (f <$> l).
Proof.
  revert acc. induction l as [| a l IH]; intros acc; simpl.
  - now rewrite app_nil_r.
  - rewrite IH. unfold TArray_Add. now rewrite <- app_assoc.
Qed.

Lemma DistinctKeys_of_counts {KeyType ValueType : Type} (KF : KeyFuncs KeyType)
    {KL : KeyFuncsLaws KF} (l : list (KeyType * ValueType)) :
  (forall kv, kv ∈ l -> CountEqual KF kv.1 l.*1 = 1%nat) -> DistinctKeys (KF := KF) l.
Proof.
  induction l as [| a l IH]; intros H; [exact I |].
  assert (Hcons : forall k, CountEqual KF k (a :: l).*1 =
            ((if Matches a.1 k then 1 else 0) + CountEqual KF k l.*1)%nat).
  { intros k. rewrite fmap_cons.
    change (a.1 :: l.*1) with ([a.1] ++ l.*1).
    now rewrite CountEqual_app, CountEqual_singleton. }
  assert (Hhead : forall kv', kv' ∈ l -> Matches a.1 kv'.1 = false).
  { intros kv' Hin. destruct (Matches a.1 kv'.1) eqn:Hm; [| reflexivity].
    pose proof (H a ltac:(left)) as Ha. rewrite Hcons, Matches_refl in Ha.
    assert (Hpos : (0 < CountEqual KF a.1 l.*1)%nat).
    { apply CountEqual_pos. exists kv'.1. split.
      - apply list_elem_of_fmap. eauto.
      - now apply Matches_sym. }
    lia. }
  split; [exact Hhead |]. apply IH. intros kv Hin.
  pose proof (H kv ltac:(now right)) as Hk. rewrite Hcons, (Hhead kv Hin) in Hk.
  exact Hk.
Qed.

(** X21. [FilterByPredicate] returns a map that holds exactly the pairs of
    this map that satisfy the predicate, in iteration order, when the map
    allows duplicate keys or its elements are linked under their own
    hashes; the map it builds satisfies the representation invariant. *)
Theorem FilterByPredicate_keeps_matching_pairs :
  forall (KeyType ValueType : Type) (KF : KeyFuncs KeyType),
    KeyFuncsLaws KF ->
    forall (m : TMapBase KeyType ValueType) (Pred : KeyType * ValueType -> bool),
      bAllowDuplicateKeys = true \/
      (TSetOps.WF (Pairs m) /\ TSetOps.WellHashed (Pairs m)) ->
      TMapBaseQueries.Array (TMapBaseQueries.FilterByPredicate m Pred) =
        List.filter Pred (TMapBaseQueries.Array m) /\
      TSetOps.WF (Pairs (TMapBaseQueries.FilterByPredicate m Pred)) /\
      TSetOps.WellHashed (Pairs (TMapBaseQueries.FilterByPredicate m Pred)).
Proof.
  intros KeyType ValueType KF KL m Pred Hm.
  rewrite FilterByPredicate_AddAll.
  unfold TMapBaseQueries.Array, TSetQueries.Array. split.
  - destruct (LivePairs_AddAll_append
                (List.filter Pred (TSetOps.LivePairs (Pairs m))) TMapBaseOps.EmptyMap
                WF_EmptyMap WellHashed_Empty eq_refl) as [HL _]; [| exact HL].
    intros D. split; [intros e kv He; inversion He |].
    apply DistinctKeys_filter. destruct Hm as [Hm | [W WH]]; [congruence |].
    now apply DistinctKeys_LivePairs.
  - apply AddAll_inv; [exact WF_EmptyMap | exact WellHashed_Empty].
Qed.

Lemma FilterByPredicate_keeps_matching_pairs_witness :
  KeyFuncsLaws StringKeyFuncs /\
  (bAllowDuplicateKeys (KeyFuncs := StringKeyFuncs) = true \/
   (TSetOps.WF (KF := StringKeyFuncs)
      (Pairs (AddAll (KF := StringKeyFuncs) [("a"%string, 1); ("b"%string, 2)]
                TMapBaseOps.EmptyMap)) /\
    TSetOps.WellHashed (KF := StringKeyFuncs)
      (Pairs (AddAll (KF := StringKeyFuncs) [("a"%string, 1); ("b"%string, 2)]
                TMapBaseOps.EmptyMap)))) /\
  TMapBaseQueries.Array
    (TMapBaseQueries.FilterByPredicate (KF := StringKeyFuncs)
       (AddAll (KF := StringKeyFuncs) [("a"%string, 1); ("b"%string, 2)]
          TMapBaseOps.EmptyMap)
       (fun Pair => 1 <? Pair.2)) = [("b"%string, 2)].
Proof.
  pose proof (AddAll_inv (KL := StringKeyFuncs_laws)
                [("a"%string, 1); ("b"%string, 2)] TMapBaseOps.EmptyMap
                WF_EmptyMap WellHashed_Empty) as Hinv.
  split; [exact StringKeyFuncs_laws |]. split; [right; exact Hinv |].
  exact (proj1 (FilterByPredicate_keeps_matching_pairs string Z StringKeyFuncs
                  StringKeyFuncs_laws _ (fun Pair => 1 <? Pair.2) (or_intror Hinv))).
Defined.

(** X22. [GenerateKeyArray] and [GenerateValueArray] discard what the
    output array held and write the keys, respectively the values, of all
    pairs in iteration order: both arrays have [Num()] elements and
    pairing them position by position gives [Array()]. *)
Theorem Generate_arrays_list_the_pairs :
  forall (KeyType ValueType : Type) (m : TMapBase KeyType ValueType)
         (OutKeys : list KeyType) (OutValues : list ValueType),
    TMapBaseQueries.GenerateKeyArray m OutKeys = (TMapBaseQueries.Array m).*1 /\
    TMapBaseQueries.GenerateValueArray m OutValues = (TMapBaseQueries.Array m).*2 /\
    TArray_Num (TMapBaseQueries.GenerateKeyArray m OutKeys) = TMapBaseOps.Num m /\
    TArray_Num (TMapBaseQueries.GenerateValueArray m OutValues) = TMapBaseOps.Num m /\
    zip (TMapBaseQueries.GenerateKeyArray m OutKeys)
        (TMapBaseQueries.GenerateValueArray m OutValues) = TMapBaseQueries.Array m.
Proof.
  intros KeyType ValueType m OutKeys OutValues.
  unfold TMapBaseQueries.GenerateKeyArray, TMapBaseQueries.GenerateValueArray,
    TMapBaseQueries.Array, TSetQueries.Array, TArray_Empty, TArray_Num,
    TMapBaseOps.Num, TSetOps.Num.
  rewrite (foldl_TArray_Add fst), (foldl_TArray_Add snd). simpl.
  rewrite !length_fmap. repeat split; try reflexivity. apply zip_fst_snd.
Qed.

(** X23. [GetKeys] against [GenerateKeyArray].  When the stored keys are
    pairwise different under the key type's default key functions,
    [GetKeys] writes what [GenerateKeyArray] writes, every key once and in
    iteration order, and returns [Num()]; when two stored keys are equal
    under them, it does not write what [GenerateKeyArray] writes.  The
    stored keys are pairwise different in a single-value map whose
    elements are linked under their own keys' hashes, when its key
    functions compare keys as the default ones do. *)
Theorem GetKeys_is_GenerateKeyArray :
  forall (KeyType ValueType : Type) (KF DKF : KeyFuncs KeyType),
    KeyFuncsLaws DKF ->
    forall (m : TMapBase KeyType ValueType) (Out Out' : list KeyType),
      (DistinctKeys (KF := DKF) (TMapBaseQueries.Array m) ->
       TMapBaseOps.GetKeys (KF := KF) DKF m Out =
         (TMapBaseQueries.GenerateKeyArray m Out', TMapBaseOps.Num m)) /\
      ((TMapBaseOps.GetKeys (KF := KF) DKF m Out).1 =
         TMapBaseQueries.GenerateKeyArray m Out' ->
       DistinctKeys (KF := DKF) (TMapBaseQueries.Array m)) /\
      (KeyFuncsLaws KF ->
       (forall a b, Matches (KeyFuncs := DKF) a b = Matches (KeyFuncs := KF) a b) ->
       TSetOps.WF (KF := KF) (Pairs m) -> TSetOps.WellHashed (KF := KF) (Pairs m) ->
       bAllowDuplicateKeys (KeyFuncs := KF) = false ->
       DistinctKeys (KF := DKF) (TMapBaseQueries.Array m)).
Proof.
  intros KeyType ValueType KF DKF DKL m Out Out'.
  unfold TMapBaseQueries.Array, TSetQueries.Array.
  assert (Hgen : TMapBaseQueries.GenerateKeyArray m Out' = (TSetOps.LivePairs (Pairs m)).*1).
  { unfold TMapBaseQueries.GenerateKeyArray, TArray_Empty.
    now rewrite (foldl_TArray_Add fst). }
  split; [| split].
  - intros Hd.
    pose proof (GetKeysLoop_distinct (KF := DKF) (TSetOps.LivePairs (Pairs m)) []
                  TSetOps.Empty WF_Empty WellHashed_Empty) as HL.
    rewrite Hgen.
    unfold TMapBaseOps.GetKeys, TArray_Reset, TArray_Reserve, TSetOps.Reserve.
    replace (if negb (bAllowDuplicateKeys (KeyFuncs := KF)) then [] else [])
      with (@nil KeyType) by (now destruct (negb bAllowDuplicateKeys)).
    destruct (TMapBaseOps.GetKeysLoop DKF (TSetOps.LivePairs (Pairs m)) [] TSetOps.Empty)
      as [OutKeys Vs].
    simpl in HL. rewrite HL.
    + unfold TArray_Num, TMapBaseOps.Num, TSetOps.Num. now rewrite length_fmap.
    + intros e kv He. inversion He.
    + exact Hd.
  - intros Heq. rewrite Hgen in Heq.
    destruct (GetKeys_spec (KF := KF) DKF m Out) as (_ & _ & H3).
    rewrite Heq in H3.
    apply (DistinctKeys_of_counts DKF). intros [k v] Hin. now apply (H3 k v).
  - intros KL Hag W WH D.
    apply (DistinctKeys_transfer KF DKF _ Hag). now apply DistinctKeys_LivePairs.
Qed.

Lemma GetKeys_is_GenerateKeyArray_witness :
  KeyFuncsLaws StringKeyFuncs /\
  DistinctKeys (KF := StringKeyFuncs)
    (TMapBaseQueries.Array
       (AddAll (KF := StringKeyFuncs) [("a"%string, 1); ("b"%string, 2)]
          TMapBaseOps.EmptyMap)) /\
  TMapBaseOps.GetKeys (KF := StringKeyFuncs) StringKeyFuncs
    (AddAll (KF := StringKeyFuncs) [("a"%string, 1); ("b"%string, 2)]
       TMapBaseOps.EmptyMap) ["z"%string]
  = (TMapBaseQueries.GenerateKeyArray
       (AddAll (KF := StringKeyFuncs) [("a"%string, 1); ("b"%string, 2)]
          TMapBaseOps.EmptyMap) [],
     TMapBaseOps.Num
       (AddAll (KF := StringKeyFuncs) [("a"%string, 1); ("b"%string, 2)]
          TMapBaseOps.EmptyMap)).
Proof.
  destruct (AddAll_inv (KL := StringKeyFuncs_laws)
              [("a"%string, 1); ("b"%string, 2)] TMapBaseOps.EmptyMap
              WF_EmptyMap WellHashed_Empty) as [W WH].
  pose proof (proj2 (proj2 (GetKeys_is_GenerateKeyArray string Z StringKeyFuncs
                StringKeyFuncs StringKeyFuncs_laws
                (AddAll (KF := StringKeyFuncs) [("a"%string, 1); ("b"%string, 2)]
                   TMapBaseOps.EmptyMap) ["z"%string] []))
                StringKeyFuncs_laws (fun a b => eq_refl) W WH eq_refl) as Hd.
  split; [exact StringKeyFuncs_laws |]. split; [exact Hd |].
  exact (proj1 (GetKeys_is_GenerateKeyArray string Z StringKeyFuncs StringKeyFuncs
                  StringKeyFuncs_laws _ ["z"%string] []) Hd).
Defined.


(** * The config cache's map of owned files *)

Section ConfigCacheFacts.
Context {FString FConfigFile : Type} {KF : KeyFuncs FString} {KL : KeyFuncsLaws KF}.
Implicit Types (c : ConfigCacheIni.FConfigCacheIni (FString := FString)
                      (FConfigFile := FConfigFile)).

Lemma ConfigCache_Add_fields c Filename File NewFile :
  ConfigCacheIni.OtherFiles (ConfigCacheIni.Add c Filename File NewFile).1 =
    (TMapBaseOps.Add (ConfigCacheIni.OtherFiles c) Filename NewFile).1 /\
  ConfigCacheIni.Heap (ConfigCacheIni.Add c Filename File NewFile).1 =
    <[NewFile := File]> (ConfigCacheIni.Heap c) /\
  (ConfigCacheIni.Add c Filename File NewFile).2 =
    default 0 (TMapBaseOps.ValueAt
                 (TMapBaseOps.Add (ConfigCacheIni.OtherFiles c) Filename NewFile).1
                 (TMapBaseOps.Add (ConfigCacheIni.OtherFiles c) Filename NewFile).2).
Proof.
  unfold ConfigCacheIni.Add.
  now destruct (TMapBaseOps.Add (ConfigCacheIni.OtherFiles c) Filename NewFile).
Qed.

Lemma ConfigCache_Remove_fields c Filename :
  ConfigCacheIni.OtherFiles (ConfigCacheIni.Remove c Filename).1 =
    (TMapBaseOps.Remove (ConfigCacheIni.OtherFiles c) Filename).1 /\
  ConfigCacheIni.Heap (ConfigCacheIni.Remove c Filename).1 =
    ConfigCacheIni.Delete
      (TMapBaseQueries.FindRef 0 (ConfigCacheIni.OtherFiles c) Filename)
      (ConfigCacheIni.Heap c) /\
  (ConfigCacheIni.Remove c Filename).2 =
    (TMapBaseOps.Remove (ConfigCacheIni.OtherFiles c) Filename).2.
Proof.
  unfold ConfigCacheIni.Remove.
  now destruct (TMapBaseOps.Remove (ConfigCacheIni.OtherFiles c) Filename).
Qed.

Lemma FindRef_after_Add (m : TMapBase FString Z) Filename NewFile :
  TSetOps.WF (Pairs m) ->
  TMapBaseQueries.FindRef 0 (TMapBaseOps.Add m Filename NewFile).1 Filename = NewFile /\
  TMapBaseOps.ValueAt (TMapBaseOps.Add m Filename NewFile).1
    (TMapBaseOps.Add m Filename NewFile).2 = Some NewFile.
Proof.
  intros W. split.
  - rewrite FindRef_FindValue, Pairs_Add, FindValue_Emplace by exact W. simpl.
    now rewrite Matches_refl.
  - rewrite ref_Add. unfold TMapBaseOps.ValueAt. rewrite Pairs_Add.
    destruct (FindIdByHash_EmplaceByHash (Pairs m) (GetKeyHash Filename)
                (Filename, NewFile) W) as (_ & k0 & G & _).
    unfold TSetOps.Emplace. simpl in *. now rewrite G.
Qed.

Lemma Remove_count_single (m : TMapBase FString Z) Filename :
  bAllowDuplicateKeys = false ->
  (TMapBaseOps.Remove m Filename).2 =
    if TMapBaseOps.Contains m Filename then 1 else 0.
Proof.
  intros D. rewrite count_Remove. unfold TSetOps.Remove, TSetOps.RemoveByHash.
  rewrite RemoveChain_single by exact D.
  unfold TMapBaseOps.Contains, TSetOps.Contains, TSetOps.FindId, TSetOps.FindIdByHash.
  now destruct (List.find _ _).
Qed.

End ConfigCacheFacts.

(** X24. [FConfigCacheIni::Add] followed by [FConfigCacheIni::Remove] of
    the same filename.  [Add] returns the file it has just allocated and
    stores it under the filename; [Remove] then reports one removed
    entry, leaves the filename absent, and deletes that file: the heap is
    the one before [Add] without the new address, which is the heap
    before [Add] when the allocation was fresh. *)
Theorem ConfigCache_Add_then_Remove :
  forall (FString FConfigFile : Type) (KF : KeyFuncs FString),
    KeyFuncsLaws KF ->
    forall (c : ConfigCacheIni.FConfigCacheIni (FString := FString)
                  (FConfigFile := FConfigFile))
           (Filename : FString) (File : FConfigFile) (NewFile : Z),
      TSetOps.WF (Pairs (ConfigCacheIni.OtherFiles c)) ->
      bAllowDuplicateKeys = false ->
      NewFile <> 0 ->
      let a := ConfigCacheIni.Add c Filename File NewFile in
      let r := ConfigCacheIni.Remove a.1 Filename in
      a.2 = NewFile /\
      ConfigCacheIni.Heap a.1 !! NewFile = Some File /\
      TMapBaseQueries.FindRef 0 (ConfigCacheIni.OtherFiles a.1) Filename = NewFile /\
      r.2 = 1 /\
      TMapBaseOps.Contains (ConfigCacheIni.OtherFiles r.1) Filename = false /\
      ConfigCacheIni.Heap r.1 = delete NewFile (ConfigCacheIni.Heap c) /\
      (ConfigCacheIni.Heap c !! NewFile = None ->
       ConfigCacheIni.Heap r.1 = ConfigCacheIni.Heap c).
Proof.
  intros FString FConfigFile KF KL c Filename File NewFile W D Hnz a r.
  destruct (ConfigCache_Add_fields c Filename File NewFile) as (Ho & Hh & Hr).
  fold a in Ho, Hh, Hr.
  destruct (ConfigCache_Remove_fields a.1 Filename) as (Ho' & Hh' & Hr').
  fold r in Ho', Hh', Hr'.
  destruct (FindRef_after_Add (ConfigCacheIni.OtherFiles c) Filename NewFile W)
    as [Hfind Hval].
  assert (Wa : TSetOps.WF (Pairs (ConfigCacheIni.OtherFiles a.1)))
    by (rewrite Ho; now apply WF_Add).
  assert (Hheap : ConfigCacheIni.Heap r.1 = delete NewFile (ConfigCacheIni.Heap c)).
  { rewrite Hh', Ho, Hfind, Hh. unfold ConfigCacheIni.Delete.
    destruct (NewFile =? 0) eqn:E; [lia |]. apply delete_insert_eq. }
  split; [rewrite Hr, Hval; reflexivity |].
  split; [rewrite Hh; apply lookup_insert_eq |].
  split; [rewrite Ho; exact Hfind |].
  split.
  { rewrite Hr', Remove_count_single by exact D.
    rewrite Contains_map_FindValue by exact Wa.
    rewrite Ho, Pairs_Add, FindValue_Emplace by exact W. simpl.
    now rewrite Matches_refl. }
  split.
  { rewrite Ho'. rewrite Contains_map_FindValue by (now apply WF_Remove).
    rewrite Pairs_Remove, FindValue_Remove_same; [reflexivity | exact Wa |].
    apply Matches_refl. }
  split; [exact Hheap |].
  intros Hfresh. rewrite Hheap. now apply delete_id.
Qed.

Lemma ConfigCache_Add_then_Remove_witness :
  KeyFuncsLaws StringKeyFuncs /\
  (ConfigCacheIni.Remove (KF := StringKeyFuncs)
     (ConfigCacheIni.Add (KF := StringKeyFuncs)
        {| ConfigCacheIni.OtherFiles := TMapBaseOps.EmptyMap;
           ConfigCacheIni.Heap := (∅ : gmap Z string) |}
        "Engine.ini"%string "[Core]"%string 4096).1 "Engine.ini"%string).2 = 1.
Proof.
  split; [exact StringKeyFuncs_laws |].
  refine (proj1 (proj2 (proj2 (proj2 (ConfigCache_Add_then_Remove string string
            StringKeyFuncs StringKeyFuncs_laws
            {| ConfigCacheIni.OtherFiles := TMapBaseOps.EmptyMap;
               ConfigCacheIni.Heap := (∅ : gmap Z string) |}
            "Engine.ini"%string "[Core]"%string 4096 WF_EmptyMap eq_refl _))))).
  lia.
Defined.

(** X25. [FConfigCacheIni::Remove] of a filename the cache does not hold
    returns 0 and changes nothing: [FindRef] gives the null pointer, whose
    deletion does nothing, and the map is left as it is. *)
Theorem ConfigCache_Remove_missing :
  forall (FString FConfigFile : Type) (KF : KeyFuncs FString)
         (c : ConfigCacheIni.FConfigCacheIni (FString := FString)
                (FConfigFile := FConfigFile))
         (Filename : FString),
    TMapBaseOps.Contains (ConfigCacheIni.OtherFiles c) Filename = false ->
    ConfigCacheIni.Remove c Filename = (c, 0).
Proof.
  intros FString FConfigFile KF c Filename Hc.
  unfold TMapBaseOps.Contains, TSetOps.Contains in Hc.
  destruct (TSetOps.FindId (Pairs (ConfigCacheIni.OtherFiles c)) Filename) eqn:Hf;
    [discriminate |].
  unfold ConfigCacheIni.Remove, TMapBaseQueries.FindRef, TSetOps.Find.
  rewrite Hf. unfold TMapBaseOps.Remove, TSetOps.Remove, TSetOps.RemoveByHash.
  rewrite RemoveChain_none.
  - destruct c as [[P] H]. reflexivity.
  - unfold TSetOps.FindId, TSetOps.FindIdByHash in Hf.
    now apply find_None_elem.
Qed.

Lemma ConfigCache_Remove_missing_witness :
  ConfigCacheIni.Remove (KF := StringKeyFuncs)
    {| ConfigCacheIni.OtherFiles := TMapBaseOps.EmptyMap;
       ConfigCacheIni.Heap := (∅ : gmap Z string) |} "Game.ini"%string
  = ({| ConfigCacheIni.OtherFiles := TMapBaseOps.EmptyMap;
        ConfigCacheIni.Heap := (∅ : gmap Z string) |}, 0).
Proof.
  exact (ConfigCache_Remove_missing string string StringKeyFuncs
           {| ConfigCacheIni.OtherFiles := TMapBaseOps.EmptyMap;
              ConfigCacheIni.Heap := (∅ : gmap Z string) |} "Game.ini"%string eq_refl).
Defined.

(** X26. [FConfigCacheIni::Add] deletes nothing.  When the filename is
    already in the cache, [Add] replaces the stored pointer by the new
    file's and the entry count stays the same; the file stored before
    stays allocated, also after a following [Remove] of the filename,
    which deletes the new file only. *)
Theorem ConfigCache_Add_over_existing_keeps_old_file :
  forall (FString FConfigFile : Type) (KF : KeyFuncs FString),
    KeyFuncsLaws KF ->
    forall (c : ConfigCacheIni.FConfigCacheIni (FString := FString)
                  (FConfigFile := FConfigFile))
           (Filename : FString) (File : FConfigFile) (NewFile : Z),
      TSetOps.WF (Pairs (ConfigCacheIni.OtherFiles c)) ->
      let a := ConfigCacheIni.Add c Filename File NewFile in
      let r := ConfigCacheIni.Remove a.1 Filename in
      (forall q, q <> NewFile ->
         ConfigCacheIni.Heap a.1 !! q = ConfigCacheIni.Heap c !! q /\
         ConfigCacheIni.Heap r.1 !! q = ConfigCacheIni.Heap c !! q) /\
      (bAllowDuplicateKeys = false ->
       TMapBaseOps.Contains (ConfigCacheIni.OtherFiles c) Filename = true ->
       TMapBaseOps.Num (ConfigCacheIni.OtherFiles a.1) =
         TMapBaseOps.Num (ConfigCacheIni.OtherFiles c) /\
       TMapBaseQueries.FindRef 0 (ConfigCacheIni.OtherFiles a.1) Filename = NewFile /\
       TMapBaseOps.Contains (ConfigCacheIni.OtherFiles r.1) Filename = false).
Proof.
  intros FString FConfigFile KF KL c Filename File NewFile W a r.
  destruct (ConfigCache_Add_fields c Filename File NewFile) as (Ho & Hh & Hr).
  fold a in Ho, Hh, Hr.
  destruct (ConfigCache_Remove_fields a.1 Filename) as (Ho' & Hh' & Hr').
  fold r in Ho', Hh', Hr'.
  destruct (FindRef_after_Add (ConfigCacheIni.OtherFiles c) Filename NewFile W)
    as [Hfind Hval].
  assert (Wa : TSetOps.WF (Pairs (ConfigCacheIni.OtherFiles a.1)))
    by (rewrite Ho; now apply WF_Add).
  split.
  - intros q Hq.
    assert (Ha : ConfigCacheIni.Heap a.1 !! q = ConfigCacheIni.Heap c !! q)
      by (rewrite Hh; now apply lookup_insert_ne).
    split; [exact Ha |].
    rewrite Hh', Ho, Hfind. unfold ConfigCacheIni.Delete.
    destruct (NewFile =? 0); [exact Ha |].
    rewrite lookup_delete_ne by congruence. exact Ha.
  - intros D Hc. split; [| split].
    + rewrite Ho. unfold TMapBaseOps.Num. rewrite Pairs_Add. unfold TSetOps.Emplace.
      rewrite Num_EmplaceByHash by exact W. rewrite D. simpl.
      unfold TMapBaseOps.Contains, TSetOps.Contains, TSetOps.FindId in Hc.
      now destruct (TSetOps.FindIdByHash (Pairs (ConfigCacheIni.OtherFiles c))
                      (GetKeyHash Filename) Filename).
    + rewrite Ho. exact Hfind.
    + rewrite Ho'. rewrite Contains_map_FindValue by (now apply WF_Remove).
      rewrite Pairs_Remove, FindValue_Remove_same; [reflexivity | exact Wa |].
      apply Matches_refl.
Qed.

Lemma ConfigCache_Add_over_existing_keeps_old_file_witness :
  KeyFuncsLaws StringKeyFuncs /\
  ConfigCacheIni.Heap
    (ConfigCacheIni.Remove (KF := StringKeyFuncs)
       (ConfigCacheIni.Add (KF := StringKeyFuncs)
          (ConfigCacheIni.Add (KF := StringKeyFuncs)
             {| ConfigCacheIni.OtherFiles := TMapBaseOps.EmptyMap;
                ConfigCacheIni.Heap := (∅ : gmap Z string) |}
             "Engine.ini"%string "[Old]"%string 4096).1
          "Engine.ini"%string "[New]"%string 8192).1 "Engine.ini"%string).1 !! 4096
  = Some "[Old]"%string.
Proof.
  split; [exact StringKeyFuncs_laws |].
  assert (W : TSetOps.WF (KF := StringKeyFuncs)
                (Pairs (ConfigCacheIni.OtherFiles
                          (ConfigCacheIni.Add (KF := StringKeyFuncs)
                             {| ConfigCacheIni.OtherFiles := TMapBaseOps.EmptyMap;
                                ConfigCacheIni.Heap := (∅ : gmap Z string) |}
                             "Engine.ini"%string "[Old]"%string 4096).1))).
  { exact (WF_Add (KL := StringKeyFuncs_laws) TMapBaseOps.EmptyMap
             "Engine.ini"%string 4096 WF_EmptyMap). }
  refine (eq_trans (proj2 (proj1 (ConfigCache_Add_over_existing_keeps_old_file
            string string StringKeyFuncs StringKeyFuncs_laws _
            "Engine.ini"%string "[New]"%string 8192 W) 4096 _)) _).
  - lia.
  - reflexivity.
Defined.
